(** * agentlink: the chain resolver, the merge engine, the mapping builder,
      link status, repair and the watch daemon, embedded from the
      TypeScript sources under [src/core].

    Paths are lists of segments (root first), the file system is a tree of
    files, symbolic links and directories, and the asynchronous functions
    of the sources are functions in a small state-and-exception monad over
    that tree. *)

From Stdlib Require Import List String Ascii Bool Arith Lia.
From Stdlib Require Import Sorting.Sorted.
From Equations Require Import Equations.
Import ListNotations.

Open Scope string_scope.
Open Scope list_scope.

Set Implicit Arguments.

(* ===================================================================== *)
(** ** Paths *)

(** An absolute, normalised path: its segments, root first.  [[]] is the
    file-system root.  Every name the sources join to a path ([.agents],
    [merged], a resource name, the base name of a directory entry) is one
    segment; so is an item of an include list that is a plain name. *)
Definition path := list string.

(** [path.join(p, s)] for a single segment [s]. *)
Definition join (p : path) (s : string) : path := p ++ [s].

(** [path.dirname]: the root is its own parent. *)
Definition dirname (p : path) : path := removelast p.

(** [path.basename]. *)
Definition basename (p : path) : string := last p "".

Fixpoint path_eqb (p q : path) : bool :=
  match p, q with
  | [], [] => true
  | a :: p', b :: q' => String.eqb a b && path_eqb p' q'
  | _, _ => false
  end.

(** [is_prefix p q]: [q] is [p] or lies below [p]. *)
Fixpoint is_prefix (p q : path) : bool :=
  match p, q with
  | [], _ => true
  | a :: p', b :: q' => String.eqb a b && is_prefix p' q'
  | _ :: _, [] => false
  end.

(** Two paths are apart when neither lies on the other's branch. *)
Definition apart (p q : path) : bool :=
  negb (is_prefix p q) && negb (is_prefix q p).

(** [path.resolve] on a list of raw segments: [.] is dropped and [..]
    climbs (the root is its own parent).  [acc] is the path so far,
    reversed. *)
Fixpoint resolve_from (acc : list string) (segs : list string) : path :=
  match segs with
  | [] => rev acc
  | s :: rest =>
      if String.eqb s ".." then resolve_from (tl acc) rest
      else if String.eqb s "." then resolve_from acc rest
      else resolve_from (s :: acc) rest
  end.

Definition resolve (p : list string) : path := resolve_from [] p.

(* ===================================================================== *)
(** ** The file system *)

(** A disk is a tree of regular files, symbolic links and directories; a
    directory lists its entries in the order [readdir] returns them.
    Symbolic links are recorded and never followed: a link is a leaf, what
    lies behind it is not part of the tree, and reading through one is an
    error.  The canonical trees the pipeline reads hold files and
    directories; links are what it writes into the client directories.
    On a path that leads through a directory which is a link the system
    calls of the sources find what lies behind the link and the tree
    finds nothing; what is stated of the status of a target is stated
    for targets that no link leads to. *)

(** What [readlink] returns: an absolute or a relative link text. *)
Record linktext := MkLink { link_absolute : bool; link_segs : list string }.

#[local] Set Warnings "-register-all".
Inductive node :=
| File (content : string)
| Link (dest : linktext)
| Dir (entries : list (string * node)).
#[local] Set Warnings "register-all".

(** The whole disk is the node at the root. *)
Abbreviation FS := node.

Inductive errno := ENOENT | ENOTDIR | EISDIR | EEXIST | EINVAL | EPERM.

Inductive res (A : Type) :=
| OK (a : A)
| Fail (e : errno).
Arguments Fail {A} e.

Definition res_bind {A B} (r : res A) (k : A -> res B) : res B :=
  match r with OK a => k a | Fail e => Fail e end.

Fixpoint assoc (s : string) (es : list (string * node)) : option node :=
  match es with
  | [] => None
  | (k, v) :: rest => if String.eqb s k then Some v else assoc s rest
  end.

Fixpoint remove_entry (s : string) (es : list (string * node))
  : list (string * node) :=
  match es with
  | [] => []
  | (k, v) :: rest =>
      if String.eqb s k then remove_entry s rest
      else (k, v) :: remove_entry s rest
  end.

(** Replace the entry in place, or append a new one. *)
Fixpoint set_entry (s : string) (v : node) (es : list (string * node))
  : list (string * node) :=
  match es with
  | [] => [(s, v)]
  | (k, w) :: rest =>
      if String.eqb s k then (k, v) :: rest
      else (k, w) :: set_entry s v rest
  end.

Definition put (s : string) (v : option node) (es : list (string * node))
  : list (string * node) :=
  match v with
  | Some n => set_entry s n es
  | None => remove_entry s es
  end.

(** What is at [p] below [n].  Links are leaves: the tree records them and
    never follows them. *)
Fixpoint lookup (p : path) (n : option node) : option node :=
  match p with
  | [] => n
  | s :: p' =>
      match n with
      | Some (Dir es) => lookup p' (assoc s es)
      | _ => None
      end
  end.

(** Rewrite the slot at [p] with [f].  With [mk], missing directories on the
    way are created ([mkdir -p]); without, they are an error. *)
Fixpoint alter (mk : bool) (f : option node -> res (option node))
         (p : path) (n : option node) : res (option node) :=
  match p with
  | [] => f n
  | s :: p' =>
      match n with
      | Some (Dir es) =>
          res_bind (alter mk f p' (assoc s es))
                   (fun c => OK (Some (Dir (put s c es))))
      | None =>
          if mk
          then res_bind (alter mk f p' None)
                        (fun c => OK (Some (Dir (put s c []))))
          else Fail ENOENT
      | Some _ => Fail ENOTDIR
      end
  end.

Definition alterFS (mk : bool) (f : option node -> res (option node))
           (p : path) (fs : FS) : res FS :=
  match alter mk f p (Some fs) with
  | OK (Some fs') => OK fs'
  | OK None => Fail EPERM
  | Fail e => Fail e
  end.

(** *** The helpers of [utils/fs.js] *)

(** Modelled from the spec: [pathExists] of [utils/fs.js] is not among the
    sources; it answers whether anything (file, link or directory) is at the
    path. *)
Definition pathExists (fs : FS) (p : path) : bool :=
  match lookup p (Some fs) with Some _ => true | None => false end.

(** Modelled from the spec: [ensureDir] of [utils/fs.js] ("ensure the
    target's parent directory exists"), a recursive [mkdir]. *)
Definition ensureDir_slot (n : option node) : res (option node) :=
  match n with
  | None => OK (Some (Dir []))
  | Some (Dir es) => OK (Some (Dir es))
  | Some _ => Fail EEXIST
  end.

Definition ensureDir_fs (p : path) (fs : FS) : res FS :=
  alterFS true ensureDir_slot p fs.

(** Modelled from the spec: [readText] of [utils/fs.js], the content of a
    regular file. *)
Definition readText_fs (p : path) (fs : FS) : res string :=
  match lookup p (Some fs) with
  | Some (File c) => OK c
  | Some (Dir _) => Fail EISDIR
  | Some (Link _) => Fail EINVAL
  | None => Fail ENOENT
  end.

Definition writeFile_slot (c : string) (n : option node) : res (option node) :=
  match n with
  | None | Some (File _) => OK (Some (File c))
  | Some (Dir _) => Fail EISDIR
  | Some (Link _) => Fail EINVAL
  end.

(** Modelled from the spec: [writeText] of [utils/fs.js], create or
    overwrite a regular file in an existing directory. *)
Definition writeText_fs (p : path) (c : string) (fs : FS) : res FS :=
  alterFS false (writeFile_slot c) p fs.

(** [fs.promises.copyFile]: read a regular file, create or overwrite the
    destination. *)
Definition copyFile_fs (src dst : path) (fs : FS) : res FS :=
  res_bind (readText_fs src fs) (fun c => writeText_fs dst c fs).

Definition is_file (n : node) : bool :=
  match n with File _ => true | _ => false end.

Definition is_dir (n : node) : bool :=
  match n with Dir _ => true | _ => false end.

Definition is_link (n : node) : bool :=
  match n with Link _ => true | _ => false end.

Definition list_entries (keep : node -> bool) (d : path) (fs : FS)
  : res (list path) :=
  match lookup d (Some fs) with
  | Some (Dir es) =>
      OK (map (fun e => join d (fst e)) (filter (fun e => keep (snd e)) es))
  | Some _ => Fail ENOTDIR
  | None => Fail ENOENT
  end.

(** Modelled from the spec: [listFiles] of [utils/fs.js], the full paths of
    the regular files directly in a directory. *)
Definition listFiles_fs : path -> FS -> res (list path) := list_entries is_file.

(** Modelled from the spec: [listDirs] of [utils/fs.js], the full paths of
    the subdirectories directly in a directory. *)
Definition listDirs_fs : path -> FS -> res (list path) := list_entries is_dir.

(** [fs.promises.lstat]: the kind of what is at the path, links not
    followed. *)
Inductive stat := StFile | StLink | StDir.

Definition stat_of (n : node) : stat :=
  match n with File _ => StFile | Link _ => StLink | Dir _ => StDir end.

Definition lstat_fs (p : path) (fs : FS) : res stat :=
  match lookup p (Some fs) with
  | Some n => OK (stat_of n)
  | None => Fail ENOENT
  end.

Definition isSymbolicLink (s : stat) : bool :=
  match s with StLink => true | _ => false end.

Definition isDirectory (s : stat) : bool :=
  match s with StDir => true | _ => false end.

(** [fs.promises.readlink]. *)
Definition readlink_fs (p : path) (fs : FS) : res linktext :=
  match lookup p (Some fs) with
  | Some (Link l) => OK l
  | Some _ => Fail EINVAL
  | None => Fail ENOENT
  end.

Definition unlink_slot (n : option node) : res (option node) :=
  match n with
  | Some (File _) | Some (Link _) => OK None
  | Some (Dir _) => Fail EISDIR
  | None => Fail ENOENT
  end.

(** [fs.promises.unlink]. *)
Definition unlink_fs (p : path) (fs : FS) : res FS :=
  alterFS false unlink_slot p fs.

Definition symlink_slot (l : linktext) (n : option node) : res (option node) :=
  match n with
  | None => OK (Some (Link l))
  | Some _ => Fail EEXIST
  end.

(** [fs.promises.symlink(source, target)] with an absolute source. *)
Definition symlink_fs (source target : path) (fs : FS) : res FS :=
  alterFS false (symlink_slot (MkLink true source)) target fs.

(** [fs.promises.rm(p, { recursive: true, force: true })]. *)
Definition rm_rf_fs (p : path) (fs : FS) : res FS :=
  if pathExists fs p then alterFS false (fun _ => OK None) p fs else OK fs.

(* ===================================================================== *)
(** ** The monad of the asynchronous functions *)

(** A call finishes with a value, throws, or runs out of the fuel that
    bounds the recursion of the directory copy.  The file system travels
    with both a value and an exception, as a [catch] continues from the
    state in which the exception was thrown. *)
Inductive outcome (A : Type) :=
| Done (a : A) (fs : FS)
| Thrown (e : errno) (fs : FS)
| OutOfFuel.
Arguments Thrown {A} e fs.
Arguments OutOfFuel {A}.

Definition M (A : Type) := FS -> outcome A.

Definition ret {A} (a : A) : M A := fun fs => Done a fs.

Definition bind {A B} (m : M A) (k : A -> M B) : M B :=
  fun fs =>
    match m fs with
    | Done a fs' => k a fs'
    | Thrown e fs' => Thrown e fs'
    | OutOfFuel => OutOfFuel
    end.

Declare Scope fs_scope.
Delimit Scope fs_scope with fs.
Notation "x <- m ;; k" := (bind m (fun x => k))
  (at level 100, m at next level, right associativity) : fs_scope.
Notation "m ;; k" := (bind m (fun _ => k))
  (at level 100, right associativity) : fs_scope.
Open Scope fs_scope.

(** [try { m } catch { h }]. *)
Definition try_catch {A} (m : M A) (h : errno -> M A) : M A :=
  fun fs =>
    match m fs with
    | Done a fs' => Done a fs'
    | Thrown e fs' => h e fs'
    | OutOfFuel => OutOfFuel
    end.

Definition reads {A} (f : FS -> A) : M A := fun fs => Done (f fs) fs.

Definition reads_res {A} (f : FS -> res A) : M A :=
  fun fs => match f fs with OK a => Done a fs | Fail e => Thrown e fs end.

Definition writes (f : FS -> res FS) : M unit :=
  fun fs => match f fs with OK fs' => Done tt fs' | Fail e => Thrown e fs end.

Definition out_of_fuel {A} : M A := fun _ => OutOfFuel.

(** [for (const x of xs) { await body(x) }]. *)
Fixpoint for_each {A} (xs : list A) (body : A -> M unit) : M unit :=
  match xs with
  | [] => ret tt
  | x :: rest => body x ;; for_each rest body
  end.

Definition pathExistsM (p : path) : M bool := reads (fun fs => pathExists fs p).
Definition ensureDir (p : path) : M unit := writes (ensureDir_fs p).
Definition readText (p : path) : M string := reads_res (readText_fs p).
Definition writeText (p : path) (c : string) : M unit := writes (writeText_fs p c).
Definition copyFile (src dst : path) : M unit := writes (copyFile_fs src dst).
Definition listFiles (d : path) : M (list path) := reads_res (listFiles_fs d).
Definition listDirs (d : path) : M (list path) := reads_res (listDirs_fs d).
Definition lstat (p : path) : M stat := reads_res (lstat_fs p).
Definition readlink (p : path) : M linktext := reads_res (readlink_fs p).
Definition unlink (p : path) : M unit := writes (unlink_fs p).
Definition symlink (source target : path) : M unit := writes (symlink_fs source target).
Definition rm_rf (p : path) : M unit := writes (rm_rf_fs p).

(* ===================================================================== *)
(** ** Chain resolver ([monorepo.ts]) *)

(** The process environment the sources read: [os.homedir()],
    [process.cwd()], the platform, and the commands on the search path. *)
(** A home directory as the sources take it: the string [os.homedir()]
    returns or the option [homeDir] holds, used as it is given.
    [path.join] normalises the string, so it names the path [home_path];
    a comparison with [===] sees the string itself, which is the string
    of that path only when it is written in the normal form that
    [path.resolve] and [path.dirname] produce (no trailing separator, no
    [.] or [..] segment, no doubled separator): [normalised]. *)
Record HomeDir := MkHome { home_path :> path; normalised : bool }.

Record Env := MkEnv {
  os_homedir : HomeDir;
  process_cwd : path;
  (** [process.platform === 'darwin']. *)
  platform_darwin : bool;
  (** Whether [which <command>] succeeds. *)
  command_exists : string -> bool
}.

Record InheritanceChain := MkChain {
  global : option path;
  ancestors : list path;
  current : option path
}.

(** [startDir] goes through [path.resolve] before it is used, so it is a
    path; [homeDir] is used as it is given. *)
Record DetectOptions := MkDetect {
  startDir : option path;
  homeDir : option HomeDir
}.

Definition or_else {A} (o : option A) (d : A) : A :=
  match o with Some a => a | None => d end.

Definition AGENTS_DIR : string := ".agents".

(** [dir === homeDir], for a directory [dir] the walk visits: the string
    of [dir] is in normal form, so the two are the same string exactly
    when [homeDir] is written in normal form and names [dir]. *)
Definition is_home (home : HomeDir) (dir : path) : bool :=
  normalised home && path_eqb dir home.

(** The test inside the [while (true)] loop of [detectMonorepoChain]:
    [parentDir === currentDir || parentDir === homeDir ||
     currentDir === homeDir]. *)
Definition stops (home : HomeDir) (currentDir : path) : bool :=
  let parentDir := dirname currentDir in
  path_eqb parentDir currentDir || is_home home parentDir
  || is_home home currentDir.

Definition inspect {A} (a : A) : { b : A | a = b } := exist _ a eq_refl.

(** [if (await pathExists(agentsPath)) agentsFolders.push(agentsPath)]. *)
Definition marker_of (fs : FS) (dir : path) : list path :=
  let agentsPath := join dir AGENTS_DIR in
  if pathExists fs agentsPath then [agentsPath] else [].

(** The [while (true)] loop of [detectMonorepoChain], as the list of
    markers it pushes to [agentsFolders]: the marker of [currentDir] is
    recorded first, then the stop conditions are checked, then the walk
    moves to the parent. *)
Equations walkUp (fs : FS) (home : HomeDir) (currentDir : path) : list path
  by wf (List.length currentDir) lt :=
walkUp fs home currentDir with inspect (stops home currentDir) := {
  | exist _ true _ => marker_of fs currentDir
  | exist _ false Hgo =>
      marker_of fs currentDir ++ walkUp fs home (dirname currentDir) }.
Next Obligation.
  destruct currentDir as [|a p]; [discriminate Hgo|]. clear.
  unfold dirname. revert a.
  induction p as [|b p IH]; intros a; [simpl; lia|].
  change (removelast (a :: b :: p)) with (a :: removelast (b :: p)).
  specialize (IH b). cbn [List.length] in *. lia.
Qed.

Section WithEnv.

Variable env : Env.

Definition detectMonorepoChain (opts : DetectOptions) (fs : FS)
  : InheritanceChain :=
  let homeDir := or_else (homeDir opts) (os_homedir env) in
  let startDir := or_else (startDir opts) (process_cwd env) in
  let globalAgents := join homeDir AGENTS_DIR in
  let agentsFolders := walkUp fs homeDir startDir in
  {| global := if pathExists fs globalAgents then Some globalAgents else None;
     ancestors := tl agentsFolders;
     current := hd_error agentsFolders |}.

End WithEnv.

Definition hasMonorepoParent (chain : InheritanceChain) : bool :=
  negb (Nat.eqb (List.length (ancestors chain)) 0)
  || match global chain with Some _ => true | None => false end.

Definition getEffectiveChain (chain : InheritanceChain) : list path :=
  (match current chain with Some c => [c] | None => [] end)
  ++ ancestors chain
  ++ (match global chain with Some g => [g] | None => [] end).

(* ===================================================================== *)
(** ** Strings of the sources *)

Definition LF : string := String (ascii_of_nat 10) EmptyString.

(** A text is held as the bytes of its UTF-8 encoding, the form it has
    in a file.  The white space [String.prototype.trim], [trimStart] and
    [trimEnd] remove is the WhiteSpace and the LineTerminator of
    ECMAScript.  In one byte: tab, line feed, vertical tab, form feed,
    carriage return and space. *)
Definition is_ws (c : ascii) : bool :=
  let n := nat_of_ascii c in
  (Nat.leb 9 n && Nat.leb n 13) || Nat.eqb n 32.

(** In two bytes: the no-break space U+00A0 ([C2 A0]). *)
Definition is_ws2 (c1 c2 : ascii) : bool :=
  Nat.eqb (nat_of_ascii c1) 194 && Nat.eqb (nat_of_ascii c2) 160.

(** In three bytes: U+1680 ([E1 9A 80]); U+2000 to U+200A, the line and
    paragraph separators U+2028 and U+2029, and U+202F ([E2 80 80] to
    [E2 80 8A], [E2 80 A8], [E2 80 A9], [E2 80 AF]); U+205F ([E2 81 9F]);
    U+3000 ([E3 80 80]); and the byte order mark U+FEFF ([EF BB BF]). *)
Definition is_ws3 (c1 c2 c3 : ascii) : bool :=
  let a := nat_of_ascii c1 in
  let b := nat_of_ascii c2 in
  let c := nat_of_ascii c3 in
  (Nat.eqb a 225 && Nat.eqb b 154 && Nat.eqb c 128)
  || (Nat.eqb a 226 && Nat.eqb b 128
      && ((Nat.leb 128 c && Nat.leb c 138)
          || Nat.eqb c 168 || Nat.eqb c 169 || Nat.eqb c 175))
  || (Nat.eqb a 226 && Nat.eqb b 129 && Nat.eqb c 159)
  || (Nat.eqb a 227 && Nat.eqb b 128 && Nat.eqb c 128)
  || (Nat.eqb a 239 && Nat.eqb b 187 && Nat.eqb c 191).

(** [s.trimStart()]: the white-space characters at the start are dropped,
    whether they take one, two or three bytes. *)
Fixpoint trimStart (s : string) : string :=
  match s with
  | EmptyString => EmptyString
  | String c1 r1 =>
      if is_ws c1 then trimStart r1
      else
        match r1 with
        | EmptyString => s
        | String c2 r2 =>
            if is_ws2 c1 c2 then trimStart r2
            else
              match r2 with
              | EmptyString => s
              | String c3 r3 => if is_ws3 c1 c2 c3 then trimStart r3 else s
              end
        end
  end.

(** A string is falsy exactly when it is empty. *)
Definition falsy (s : string) : bool :=
  match s with EmptyString => true | _ => false end.

(** [s.trimEnd()]: the text is cut at the first place from which only white
    space follows. *)
Fixpoint trimEnd (s : string) : string :=
  match s with
  | EmptyString => EmptyString
  | String c rest =>
      if falsy (trimStart s) then EmptyString else String c (trimEnd rest)
  end.

Definition trim (s : string) : string := trimEnd (trimStart s).

Fixpoint last_char (s : string) : option ascii :=
  match s with
  | EmptyString => None
  | String c EmptyString => Some c
  | String _ rest => last_char rest
  end.

(** [s.endsWith('/')]. *)
Definition endsWith_slash (s : string) : bool :=
  match last_char s with
  | Some c => Ascii.eqb c "/"%char
  | None => false
  end.

(** [s.slice(0, -1)]. *)
Fixpoint slice_but_last (s : string) : string :=
  match s with
  | EmptyString => EmptyString
  | String c EmptyString => EmptyString
  | String c rest => String c (slice_but_last rest)
  end.

(* ===================================================================== *)
(** ** Merge engine ([merge.ts]) *)

Inductive ExtendBehavior := inherit | override | extend | compose.

Definition MERGED_DIR : string := "merged".
Definition SEPARATOR : string := (LF ++ LF ++ "---" ++ LF ++ LF)%string.

Definition getMergedDir (agentsRoot : path) : path := join agentsRoot MERGED_DIR.

(** The body of the [for] loop of [mergeMarkdownChain], with [result] as
    the loop variable. *)
Fixpoint mergeMarkdownChain_from (result : string) (filePaths : list path)
  : M string :=
  match filePaths with
  | [] => ret result
  | filePath :: rest =>
      present <- pathExistsM filePath ;;
      if negb present then mergeMarkdownChain_from result rest
      else
        content <- readText filePath ;;
        if falsy (trim content) then mergeMarkdownChain_from result rest
        else if falsy result then mergeMarkdownChain_from content rest
        else mergeMarkdownChain_from
               (trimEnd result ++ SEPARATOR ++ trimStart content)%string rest
  end.

Definition mergeMarkdownChain (filePaths : list path) : M string :=
  mergeMarkdownChain_from "" filePaths.

(** [copyDirectoryContents]: the recursion follows the directory tree on
    disk, so the embedding bounds it by [fuel]. *)
Fixpoint copyDirectoryContents (fuel : nat) (srcDir destDir : path) : M unit :=
  match fuel with
  | 0 => out_of_fuel
  | S fuel' =>
      ensureDir destDir ;;
      files <- listFiles srcDir ;;
      for_each files (fun file =>
        let fileName := basename file in
        let destFile := join destDir fileName in
        copyFile file destFile) ;;
      dirs <- listDirs srcDir ;;
      for_each dirs (fun dir =>
        let dirName := basename dir in
        let destSubDir := join destDir dirName in
        copyDirectoryContents fuel' dir destSubDir)
  end.

Record MergeChainOptions := MkMergeChain {
  agentsPaths : list path;
  currentRoot : path;
  resource : string;
  behavior : ExtendBehavior;
  includeList : option (list string)
}.

(** [for (const x of xs) if (await pathExists(f x)) out.push(f x)]. *)
Fixpoint existing (candidates : list path) : M (list path) :=
  match candidates with
  | [] => ret []
  | c :: rest =>
      present <- pathExistsM c ;;
      found <- existing rest ;;
      ret (if present then c :: found else found)
  end.

(** [for (const x of xs) if (await pathExists(x)) return x; return null]. *)
Fixpoint first_existing (candidates : list path) : M (option path) :=
  match candidates with
  | [] => ret None
  | c :: rest =>
      present <- pathExistsM c ;;
      if present then ret (Some c) else first_existing rest
  end.

Record IncludedItem := MkItem { item_name : string; sourcePath : path }.

(** The inner loop of [mergeCompose]: the first parent, nearest first,
    whose resource directory holds the item. *)
Fixpoint find_in_parents (resource itemName : string) (parentPaths : list path)
  : M (list IncludedItem) :=
  match parentPaths with
  | [] => ret []
  | parentPath :: rest =>
      let resourceDir := join parentPath resource in
      present <- pathExistsM resourceDir ;;
      if negb present then find_in_parents resource itemName rest
      else
        let isDirectory := endsWith_slash itemName in
        let cleanName := if isDirectory then slice_but_last itemName else itemName in
        let itemPath := join resourceDir cleanName in
        itemPresent <- pathExistsM itemPath ;;
        if itemPresent then ret [MkItem cleanName itemPath]
        else find_in_parents resource itemName rest
  end.

Fixpoint collect_items (resource : string) (parentPaths : list path)
         (includeList : list string) : M (list IncludedItem) :=
  match includeList with
  | [] => ret []
  | itemName :: rest =>
      found <- find_in_parents resource itemName parentPaths ;;
      more <- collect_items resource parentPaths rest ;;
      ret (found ++ more)
  end.

Definition is_nil {A} (l : list A) : bool :=
  match l with [] => true | _ => false end.

(** [mergeCompose].  An item of the include list is joined as one path
    segment, which is what [path.join] does with a plain name; an item
    that is empty, [.] or [..], or that holds a separator, [path.join]
    would resolve, and the statements that depend on how an item is
    joined are made for plain names. *)
Definition mergeCompose (fuel : nat) (agentsPaths : list path)
           (currentRoot : path) (resource : string) (includeList : list string)
  : M (option path) :=
  let currentDir := join currentRoot resource in
  currentExists <- pathExistsM currentDir ;;
  let parentPaths := filter (fun p => negb (path_eqb p currentRoot)) agentsPaths in
  if is_nil includeList && negb currentExists then ret None
  else if is_nil includeList && currentExists then ret (Some currentDir)
  else
    itemsToInclude <- collect_items resource parentPaths includeList ;;
    if is_nil itemsToInclude && negb currentExists then ret None
    else if is_nil itemsToInclude && currentExists then ret (Some currentDir)
    else
      let mergedDir := join (join currentRoot MERGED_DIR) resource in
      ensureDir mergedDir ;;
      for_each itemsToInclude (fun item =>
        let destPath := join mergedDir (item_name item) in
        st <- lstat (sourcePath item) ;;
        if isDirectory st
        then copyDirectoryContents fuel (sourcePath item) destPath
        else copyFile (sourcePath item) destPath) ;;
      (if currentExists
       then copyDirectoryContents fuel currentDir mergedDir
       else ret tt) ;;
      ret (Some mergedDir).

Definition mergeDirectoryChain (fuel : nat) (opts : MergeChainOptions)
  : M (option path) :=
  match behavior opts with
  | override =>
      let currentDir := join (currentRoot opts) (resource opts) in
      present <- pathExistsM currentDir ;;
      ret (if present then Some currentDir else None)
  | inherit =>
      first_existing (map (fun p => join p (resource opts)) (agentsPaths opts))
  | compose =>
      mergeCompose fuel (agentsPaths opts) (currentRoot opts) (resource opts)
                   (or_else (includeList opts) [])
  | extend =>
      dirsWithContent <-
        existing (map (fun p => join p (resource opts)) (agentsPaths opts)) ;;
      match dirsWithContent with
      | [] => ret None
      | [only] => ret (Some only)
      | _ =>
          let mergedDir := join (join (currentRoot opts) MERGED_DIR) (resource opts) in
          ensureDir mergedDir ;;
          for_each (rev dirsWithContent) (fun dir =>
            copyDirectoryContents fuel dir mergedDir) ;;
          ret (Some mergedDir)
      end
  end.

(** The instruction file of one root: [CLAUDE.md] before [AGENTS.md]. *)
Definition instructions_of (agentsRoot : path) : M (option path) :=
  let claudePath := join agentsRoot "CLAUDE.md" in
  hasClaude <- pathExistsM claudePath ;;
  if hasClaude then ret (Some claudePath)
  else
    let agentsPath := join agentsRoot "AGENTS.md" in
    hasAgents <- pathExistsM agentsPath ;;
    ret (if hasAgents then Some agentsPath else None).

Fixpoint first_instructions (roots : list path) : M (option path) :=
  match roots with
  | [] => ret None
  | agentsRoot :: rest =>
      found <- instructions_of agentsRoot ;;
      match found with
      | Some f => ret (Some f)
      | None => first_instructions rest
      end
  end.

Fixpoint all_instructions (roots : list path) : M (list path) :=
  match roots with
  | [] => ret []
  | agentsRoot :: rest =>
      found <- instructions_of agentsRoot ;;
      more <- all_instructions rest ;;
      ret (match found with Some f => f :: more | None => more end)
  end.

Definition mergeAgentsMd (agentsPaths : list path) (currentRoot : path)
           (behavior : ExtendBehavior) : M (option path) :=
  match behavior with
  | override => instructions_of currentRoot
  | inherit => first_instructions agentsPaths
  | _ =>
      filesToMerge <- all_instructions agentsPaths ;;
      match filesToMerge with
      | [] => ret None
      | [only] => ret (Some only)
      | _ =>
          mergedContent <- mergeMarkdownChain (rev filesToMerge) ;;
          let mergedPath := join (join currentRoot MERGED_DIR) "AGENTS.md" in
          ensureDir (dirname mergedPath) ;;
          writeText mergedPath mergedContent ;;
          ret (Some mergedPath)
      end
  end.

Definition cleanMergedDir (agentsRoot : path) : M unit :=
  let mergedDir := getMergedDir agentsRoot in
  present <- pathExistsM mergedDir ;;
  if present then rm_rf mergedDir else ret tt.

(* ===================================================================== *)
(** ** Config and behaviour resolver ([config.ts]) *)

Inductive ResourceName := R_AGENTS_md | R_commands | R_skills | R_hooks.

Definition resource_name (r : ResourceName) : string :=
  match r with
  | R_AGENTS_md => "AGENTS.md"
  | R_commands => "commands"
  | R_skills => "skills"
  | R_hooks => "hooks"
  end.

Record ExtendsMap := MkExtendsMap {
  ext_AGENTS_md : option ExtendBehavior;
  ext_commands : option ExtendBehavior;
  ext_skills : option ExtendBehavior;
  ext_hooks : option ExtendBehavior;
  ext_default : option ExtendBehavior
}.

Inductive ExtendsConfig :=
| ExtendsAll (b : bool)
| ExtendsPer (m : ExtendsMap).

Record IncludeConfig := MkInclude {
  inc_commands : option (list string);
  inc_skills : option (list string);
  inc_hooks : option (list string)
}.

Record MonorepoConfig := MkConfig {
  extends : option ExtendsConfig;
  include : option IncludeConfig;
  exclude : option (list string)
}.

Definition empty_config : MonorepoConfig := MkConfig None None None.

Definition CONFIG_FILENAME : string := "config.yaml".

Definition getConfigPath (agentsRoot : path) : path := join agentsRoot CONFIG_FILENAME.

Definition getExtendBehavior (config : MonorepoConfig) (r : ResourceName)
  : ExtendBehavior :=
  match extends config with
  | None | Some (ExtendsAll true) => inherit
  | Some (ExtendsAll false) => override
  | Some (ExtendsPer m) =>
      let specific :=
        match r with
        | R_AGENTS_md => ext_AGENTS_md m
        | R_commands => ext_commands m
        | R_skills => ext_skills m
        | R_hooks => ext_hooks m
        end in
      match specific with
      | Some b => b
      | None => or_else (ext_default m) inherit
      end
  end.

Definition getIncludeList (config : MonorepoConfig) (r : ResourceName)
  : option (list string) :=
  match include config with
  | None => None
  | Some inc =>
      match r with
      | R_commands => inc_commands inc
      | R_skills => inc_skills inc
      | R_hooks => inc_hooks inc
      | R_AGENTS_md => None
      end
  end.

(* ===================================================================== *)
(** ** Roots ([paths.ts]) and the mapping builder ([mappings.ts]) *)

Inductive Scope := scope_global | scope_project.
Inductive SourceKind := kind_file | kind_dir.
Inductive Client := claude | factory | codex | cursor | opencode.

Definition Client_eqb (a b : Client) : bool :=
  match a, b with
  | claude, claude | factory, factory | codex, codex
  | cursor, cursor | opencode, opencode => true
  | _, _ => false
  end.

Record Mapping := MkMapping {
  name : string;
  source : path;
  targets : list path;
  kind : SourceKind
}.

Record ResolvedRoots := MkRoots {
  canonicalRoot : path;
  claudeRoot : path;
  factoryRoot : path;
  codexRoot : path;
  cursorRoot : path;
  opencodeRoot : path;
  opencodeConfigRoot : path;
  projectRoot : path;
  rootsHomeDir : path
}.

Record MappingOptions := MkMappingOptions {
  mo_scope : Scope;
  mo_projectRoot : option path;
  mo_homeDir : option path;
  mo_clients : option (list Client)
}.

Record MonorepoMappingOptions := MkMonorepoMappingOptions {
  mm_chain : InheritanceChain;
  mm_projectRoot : option path;
  mm_homeDir : option path;
  mm_clients : option (list Client)
}.

Definition all_clients : list Client := [claude; factory; codex; cursor; opencode].

(** [new Set(opts.clients ?? [...]).has(c)]. *)
Definition has (clients : option (list Client)) (c : Client) : bool :=
  existsb (Client_eqb c) (or_else clients all_clients).

(** [[c1 ? p1 : null, ...].filter(Boolean)]. *)
Definition keep (slots : list (bool * path)) : list path :=
  map snd (filter fst slots).

Section WithProcess.

Variable env : Env.

(** The YAML parser of [js-yaml]: [None] when it throws or yields nothing. *)
Variable yaml_load : string -> option MonorepoConfig.

Definition loadMonorepoConfig (agentsRoot : path) : M MonorepoConfig :=
  let configPath := getConfigPath agentsRoot in
  present <- pathExistsM configPath ;;
  if negb present then ret empty_config
  else
    try_catch
      (content <- readText configPath ;;
       ret (or_else (yaml_load content) empty_config))
      (fun _ => ret empty_config).

Definition resolveRoots (opts : MappingOptions) : ResolvedRoots :=
  let homeDir := or_else (mo_homeDir opts) (os_homedir env) in
  let projectRoot := or_else (mo_projectRoot opts) (process_cwd env) in
  match mo_scope opts with
  | scope_global =>
      {| canonicalRoot := join homeDir ".agents";
         claudeRoot := join homeDir ".claude";
         factoryRoot := join homeDir ".factory";
         codexRoot := join homeDir ".codex";
         cursorRoot := join homeDir ".cursor";
         opencodeRoot := join homeDir ".opencode";
         opencodeConfigRoot := join (join homeDir ".config") "opencode";
         projectRoot := projectRoot;
         rootsHomeDir := homeDir |}
  | scope_project =>
      {| canonicalRoot := join projectRoot ".agents";
         claudeRoot := join projectRoot ".claude";
         factoryRoot := join projectRoot ".factory";
         codexRoot := join projectRoot ".codex";
         cursorRoot := join projectRoot ".cursor";
         opencodeRoot := join projectRoot ".opencode";
         opencodeConfigRoot := join (join homeDir ".config") "opencode";
         projectRoot := projectRoot;
         rootsHomeDir := homeDir |}
  end.

Definition resolveMonorepoRoots (opts : MonorepoMappingOptions) : ResolvedRoots :=
  let homeDir := or_else (mm_homeDir opts) (os_homedir env) in
  let chain := mm_chain opts in
  let effectiveRoot :=
    match current chain, ancestors chain, global chain with
    | Some c, _, _ => c
    | None, a :: _, _ => a
    | None, [], Some g => g
    | None, [], None => join homeDir ".agents"
    end in
  let projectRoot :=
    match current chain with
    | Some c => dirname c
    | None => or_else (mm_projectRoot opts) (process_cwd env)
    end in
  {| canonicalRoot := effectiveRoot;
     claudeRoot := join projectRoot ".claude";
     factoryRoot := join projectRoot ".factory";
     codexRoot := join projectRoot ".codex";
     cursorRoot := join projectRoot ".cursor";
     opencodeRoot := join projectRoot ".opencode";
     opencodeConfigRoot := join (join homeDir ".config") "opencode";
     projectRoot := projectRoot;
     rootsHomeDir := homeDir |}.

Definition commands_targets (clients : option (list Client)) (roots : ResolvedRoots)
  : list path :=
  keep [(has clients claude, join (claudeRoot roots) "commands");
        (has clients factory, join (factoryRoot roots) "commands");
        (has clients codex, join (codexRoot roots) "prompts");
        (has clients opencode, join (opencodeRoot roots) "commands");
        (has clients cursor, join (cursorRoot roots) "commands")].

Definition hooks_targets (clients : option (list Client)) (roots : ResolvedRoots)
  : list path :=
  keep [(has clients claude, join (claudeRoot roots) "hooks");
        (has clients factory, join (factoryRoot roots) "hooks")].

Definition skills_targets (clients : option (list Client)) (roots : ResolvedRoots)
  : list path :=
  keep [(has clients claude, join (claudeRoot roots) "skills");
        (has clients factory, join (factoryRoot roots) "skills");
        (has clients codex, join (codexRoot roots) "skills");
        (has clients opencode, join (opencodeRoot roots) "skills");
        (has clients cursor, join (cursorRoot roots) "skills")].

(** The targets of the clients that read [AGENTS.md]. *)
Definition agentTargets (clients : option (list Client)) (roots : ResolvedRoots)
  : list path :=
  keep [(has clients factory, join (factoryRoot roots) "AGENTS.md");
        (has clients codex, join (codexRoot roots) "AGENTS.md");
        (has clients opencode, join (opencodeConfigRoot roots) "AGENTS.md")].

Definition getMappings (opts : MappingOptions) : M (list Mapping) :=
  let roots := resolveRoots opts in
  let canonical := canonicalRoot roots in
  let claudeOverride := join canonical "CLAUDE.md" in
  let agentsFallback := join canonical "AGENTS.md" in
  hasOverride <- pathExistsM claudeOverride ;;
  let agentsSource := if hasOverride then claudeOverride else agentsFallback in
  let clients := mo_clients opts in
  let includeAgentFiles :=
    match mo_scope opts with scope_global => true | scope_project => false end in
  let m1 :=
    if includeAgentFiles && has clients claude
    then [MkMapping "claude-md" agentsSource
                    [join (claudeRoot roots) "CLAUDE.md"] kind_file]
    else [] in
  let m2 :=
    if includeAgentFiles
    then (if is_nil (agentTargets clients roots) then []
          else [MkMapping "agents-md" agentsFallback
                          (agentTargets clients roots) kind_file])
    else [] in
  ret (m1 ++ m2 ++
       [MkMapping "commands" (join canonical "commands")
                  (commands_targets clients roots) kind_dir;
        MkMapping "hooks" (join canonical "hooks")
                  (hooks_targets clients roots) kind_dir;
        MkMapping "skills" (join canonical "skills")
                  (skills_targets clients roots) kind_dir]).

(** One of the three directory resources of [getMonorepoMappings]. *)
Definition resource_mapping (fuel : nat) (config : MonorepoConfig)
           (effectiveChain : list path) (currentRoot : path)
           (r : ResourceName) (tgts : list path) : M (list Mapping) :=
  let resourceBehavior := getExtendBehavior config r in
  resourceSource <-
    mergeDirectoryChain fuel
      (MkMergeChain effectiveChain currentRoot (resource_name r) resourceBehavior
         (match resourceBehavior with
          | compose => getIncludeList config r
          | _ => None
          end)) ;;
  ret (match resourceSource with
       | Some src => [MkMapping (resource_name r) src tgts kind_dir]
       | None => []
       end).

(** The instruction-file part of [getMonorepoMappings]. *)
Definition instructions_mappings (clients : option (list Client))
           (roots : ResolvedRoots) (agentsSource : option path) : list Mapping :=
  match agentsSource with
  | None => []
  | Some src =>
      let isClaudeOverride := String.eqb (basename src) "CLAUDE.md" in
      (if has clients claude
       then [MkMapping "claude-md" src
                       [join (claudeRoot roots) "CLAUDE.md"] kind_file]
       else [])
      ++ (if negb isClaudeOverride
          then (if is_nil (agentTargets clients roots) then []
                else [MkMapping "agents-md" src
                                (agentTargets clients roots) kind_file])
          else [])
  end.

Definition getMonorepoMappings (fuel : nat) (opts : MonorepoMappingOptions)
  : M (list Mapping) :=
  let roots := resolveMonorepoRoots opts in
  let clients := mm_clients opts in
  let effectiveChain := getEffectiveChain (mm_chain opts) in
  match effectiveChain with
  | [] => ret []
  | firstInChain :: _ =>
      let currentRoot := or_else (current (mm_chain opts)) firstInChain in
      config <- loadMonorepoConfig currentRoot ;;
      let agentsBehavior := getExtendBehavior config R_AGENTS_md in
      agentsSource <- mergeAgentsMd effectiveChain currentRoot agentsBehavior ;;
      let m0 := instructions_mappings clients roots agentsSource in
      m1 <- resource_mapping fuel config effectiveChain currentRoot R_commands
              (commands_targets clients roots) ;;
      m2 <- resource_mapping fuel config effectiveChain currentRoot R_hooks
              (hooks_targets clients roots) ;;
      m3 <- resource_mapping fuel config effectiveChain currentRoot R_skills
              (skills_targets clients roots) ;;
      ret (m0 ++ m1 ++ m2 ++ m3)
  end.

(* ===================================================================== *)
(** ** Link status ([status.ts]) *)

Inductive TargetStatus := linked | missing | conflict.

Record LinkStatus := MkLinkStatus {
  ls_name : string;
  ls_source : path;
  ls_targets : list (path * TargetStatus)
}.

(** [resolveLinkTarget]: the link text, made absolute against the
    directory of the link; [null] when [readlink] throws. *)
Definition resolveLinkTarget (targetPath : path) : M (option (list string)) :=
  try_catch
    (link <- readlink targetPath ;;
     if negb (link_absolute link)
     then ret (Some (resolve (dirname targetPath ++ link_segs link)))
     else ret (Some (link_segs link)))
    (fun _ => ret None).

(** The body of the inner [for] loop of [getLinkStatus] and of
    [getMonorepoLinkStatus], which is the same text in both. *)
Definition targetStatus (mappingSource target : path) : M TargetStatus :=
  present <- pathExistsM target ;;
  if negb present then ret missing
  else
    st <- lstat target ;;
    if isSymbolicLink st
    then
      resolved <- resolveLinkTarget target ;;
      match resolved with
      | Some r =>
          if path_eqb (resolve r) (resolve mappingSource)
          then ret linked else ret conflict
      | None => ret conflict
      end
    else ret conflict.

Fixpoint targetStatuses (mappingSource : path) (tgts : list path)
  : M (list (path * TargetStatus)) :=
  match tgts with
  | [] => ret []
  | target :: rest =>
      st <- targetStatus mappingSource target ;;
      more <- targetStatuses mappingSource rest ;;
      ret ((target, st) :: more)
  end.

Fixpoint statusesOf (mappings : list Mapping) : M (list LinkStatus) :=
  match mappings with
  | [] => ret []
  | mapping :: rest =>
      tgts <- targetStatuses (source mapping) (targets mapping) ;;
      more <- statusesOf rest ;;
      ret (MkLinkStatus (name mapping) (source mapping) tgts :: more)
  end.

Definition getLinkStatus (opts : MappingOptions) : M (list LinkStatus) :=
  mappings <- getMappings opts ;;
  statusesOf mappings.

Definition getMonorepoLinkStatus (fuel : nat) (opts : MonorepoMappingOptions)
  : M (list LinkStatus) :=
  mappings <- getMonorepoMappings fuel opts ;;
  statusesOf mappings.

(* ===================================================================== *)
(** ** Repair ([repair.ts]) *)

Inductive RepairScope := rs_global | rs_project | rs_monorepo.

Record RepairResult := MkRepair {
  rr_scope : RepairScope;
  created : nat;
  updated : nat;
  skipped : nat;
  errors : list string
}.

Inductive EnsureResult := r_created | r_updated | r_skipped | r_error.

Definition detectScope : M (option (RepairScope * option InheritanceChain)) :=
  let cwd := process_cwd env in
  let projectAgents := join cwd ".agents" in
  let globalAgents := join (os_homedir env) ".agents" in
  hasProject <- pathExistsM projectAgents ;;
  if hasProject then
    chain <- reads (detectMonorepoChain env (MkDetect None None)) ;;
    if hasMonorepoParent chain then ret (Some (rs_monorepo, Some chain))
    else ret (Some (rs_project, None))
  else
    hasGlobal <- pathExistsM globalAgents ;;
    if hasGlobal then ret (Some (rs_global, None)) else ret None.

(** [detect.ts]: a client is detected by its configuration directory or,
    failing that, by its command (for cursor, by the application bundle on
    macOS). *)
Record DetectionResult := MkDetection {
  dr_client : Client;
  dr_detected : bool;
  dr_reason : option string
}.

Definition detectByDirOrCommand (client : Client) (dir command : string) (fs : FS)
  : DetectionResult :=
  let configDir := join (os_homedir env) dir in
  if pathExists fs configDir
  then MkDetection client true (Some (String.append "~/" (String.append dir " exists")))
  else if command_exists env command
  then MkDetection client true (Some (String.append command " command available"))
  else MkDetection client false None.

Definition detectClaude : FS -> DetectionResult :=
  detectByDirOrCommand claude ".claude" "claude".

Definition detectFactory : FS -> DetectionResult :=
  detectByDirOrCommand factory ".factory" "factory".

Definition detectCodex : FS -> DetectionResult :=
  detectByDirOrCommand codex ".codex" "codex".

Definition detectCursor (fs : FS) : DetectionResult :=
  let configDir := join (os_homedir env) ".cursor" in
  let macAppPath := ["Applications"; "Cursor.app"] in
  if pathExists fs configDir
  then MkDetection cursor true (Some "~/.cursor exists")
  else if platform_darwin env && pathExists fs macAppPath
  then MkDetection cursor true (Some "Cursor.app installed")
  else MkDetection cursor false None.

Definition detectOpenCode (fs : FS) : DetectionResult :=
  let configDir := join (os_homedir env) ".opencode" in
  let xdgConfigDir := join (join (os_homedir env) ".config") "opencode" in
  if pathExists fs configDir
  then MkDetection opencode true (Some "~/.opencode exists")
  else if pathExists fs xdgConfigDir
  then MkDetection opencode true (Some "~/.config/opencode exists")
  else if command_exists env "opencode"
  then MkDetection opencode true (Some "opencode command available")
  else MkDetection opencode false None.

Definition detectClient (client : Client) : FS -> DetectionResult :=
  match client with
  | claude => detectClaude
  | factory => detectFactory
  | codex => detectCodex
  | cursor => detectCursor
  | opencode => detectOpenCode
  end.

Definition detectAllClients (fs : FS) : list (Client * DetectionResult) :=
  map (fun client => (client, detectClient client fs)) all_clients.

(** [getClients] of [repair.ts], on a given disk. *)
Definition clients_on (fs : FS) : list Client :=
  let detected :=
    map fst (filter (fun entry => dr_detected (snd entry)) (detectAllClients fs)) in
  if is_nil detected then all_clients else detected.

Definition getClients : M (list Client) := reads clients_on.

Definition ensureSymlink (source target : path) (kind : SourceKind)
  : M EnsureResult :=
  try_catch
    (sourceExists <- pathExistsM source ;;
     if negb sourceExists then ret r_skipped
     else
       targetExists <- pathExistsM target ;;
       if targetExists then
         st <- lstat target ;;
         if isSymbolicLink st then
           currentTarget <- readlink target ;;
           let resolvedCurrent :=
             if link_absolute currentTarget then link_segs currentTarget
             else resolve (dirname target ++ link_segs currentTarget) in
           if path_eqb (resolve resolvedCurrent) (resolve source)
           then ret r_skipped
           else
             unlink target ;;
             ensureDir (dirname target) ;;
             symlink source target ;;
             ret r_updated
         else ret r_skipped
       else
         ensureDir (dirname target) ;;
         symlink source target ;;
         ret r_created)
    (fun _ => ret r_error).

(** The string of an absolute path: the segments, each after a
    separator; the root is the separator alone. *)
Definition path_string (p : path) : string :=
  match p with
  | [] => "/"
  | _ => String.concat "" (map (fun s => String.append "/" s) p)
  end.

(** The [switch] on the result of [ensureSymlink] in [repair]. *)
Definition tally (result : EnsureResult) (target : path) (acc : RepairResult)
  : RepairResult :=
  match result with
  | r_created => MkRepair (rr_scope acc) (S (created acc)) (updated acc) (skipped acc) (errors acc)
  | r_updated => MkRepair (rr_scope acc) (created acc) (S (updated acc)) (skipped acc) (errors acc)
  | r_skipped => MkRepair (rr_scope acc) (created acc) (updated acc) (S (skipped acc)) (errors acc)
  | r_error =>
      MkRepair (rr_scope acc) (created acc) (updated acc) (skipped acc)
               (errors acc ++ [String.append "Failed to link " (path_string target)])
  end.

(** The inner [for] loop of [repair]. *)
Fixpoint repair_targets (mapping : Mapping) (tgts : list path) (acc : RepairResult)
  : M RepairResult :=
  match tgts with
  | [] => ret acc
  | target :: rest =>
      result <- ensureSymlink (source mapping) target (kind mapping) ;;
      repair_targets mapping rest (tally result target acc)
  end.

(** The outer [for] loop of [repair]. *)
Fixpoint repair_mappings (mappings : list Mapping) (acc : RepairResult)
  : M RepairResult :=
  match mappings with
  | [] => ret acc
  | mapping :: rest =>
      acc' <- repair_targets mapping (targets mapping) acc ;;
      repair_mappings rest acc'
  end.

Definition scope_of (s : RepairScope) : Scope :=
  match s with rs_global => scope_global | _ => scope_project end.

(** The mappings [repair] applies: those of the chain in a monorepo, those
    of the single root otherwise. *)
Definition repair_mappings_for (fuel : nat) (scope : RepairScope)
           (chain : option InheritanceChain) (clients : list Client)
  : M (list Mapping) :=
  match scope, chain with
  | rs_monorepo, Some chain =>
      getMonorepoMappings fuel
        (MkMonorepoMappingOptions chain None None (Some clients))
  | _, _ =>
      getMappings (MkMappingOptions (scope_of scope) None None (Some clients))
  end.

Definition repair (fuel : nat) : M RepairResult :=
  detected <- detectScope ;;
  match detected with
  | None =>
      ret (MkRepair rs_project 0 0 0
             ["No .agents folder found (local or global). Run `agentlinker init` first."])
  | Some (scope, chain) =>
      clients <- getClients ;;
      mappings <- repair_mappings_for fuel scope chain clients ;;
      repair_mappings mappings (MkRepair scope 0 0 0 [])
  end.

End WithProcess.

(* ===================================================================== *)
(** ** Watch daemon ([watch.ts]) *)

Module Watch.

Definition WATCHED_PATTERNS : list string :=
  ["AGENTS.md"; "CLAUDE.md"; "config.yaml"; "commands"; "hooks"; "skills"].

Definition path_sep : string := "/".

Definition shouldWatch (filename : string) : bool :=
  if falsy filename then false
  else existsb (fun pattern =>
                  String.eqb filename pattern
                  || String.prefix (pattern ++ path_sep)%string filename)
               WATCHED_PATTERNS.

Record WatchState := MkWatchState {
  isProcessing : bool;
  pendingRebuild : bool;
  aborted : bool
}.

(** The closure [() => handleChange(agentsPath, filename)] handed to the
    debounce. *)
Record Callback := MkCallback {
  cb_agentsPath : path;
  cb_filename : option string
}.

Record Timer := MkTimer { timer_id : nat; due : nat; callback : Callback }.

(** Which [await] of [handleChange] a running rebuild belongs to: the one
    in the [try] block or the queued one in the [finally] block. *)
Inductive Await := in_try | in_finally.

(** The event loop around the daemon: the clock (milliseconds), the
    pending [setTimeout] timers, the [timer] variable of [createDebounce],
    the flags of [startWatch], the rebuilds in flight and the number of
    calls of [regenerateMergedContent] so far. *)
Record Loop := MkLoop {
  now : nat;
  timers : list Timer;
  next_id : nat;
  debounce_timer : option nat;
  state : WatchState;
  in_flight : list (nat * Await);
  rebuilds : nat
}.

Definition DEBOUNCE_DELAY : nat := 100.

Definition initial : Loop :=
  MkLoop 0 [] 0 None (MkWatchState false false false) [] 0.

Definition clearTimeout (id : nat) (l : Loop) : Loop :=
  MkLoop (now l) (filter (fun tm => negb (Nat.eqb (timer_id tm) id)) (timers l))
         (next_id l) (debounce_timer l) (state l) (in_flight l) (rebuilds l).

Definition setTimeout (cb : Callback) (delay : nat) (l : Loop) : nat * Loop :=
  (next_id l,
   MkLoop (now l) (timers l ++ [MkTimer (next_id l) (now l + delay) cb])
          (S (next_id l)) (debounce_timer l) (state l) (in_flight l) (rebuilds l)).

(** The function returned by [createDebounce(delay)]. *)
Definition debounce (delay : nat) (fn : Callback) (l : Loop) : Loop :=
  let l1 := match debounce_timer l with
            | Some id => clearTimeout id l
            | None => l
            end in
  let (id, l2) := setTimeout fn delay l1 in
  MkLoop (now l2) (timers l2) (next_id l2) (Some id) (state l2)
         (in_flight l2) (rebuilds l2).

Definition set_state (st : WatchState) (l : Loop) : Loop :=
  MkLoop (now l) (timers l) (next_id l) (debounce_timer l) st
         (in_flight l) (rebuilds l).

(** A call of [regenerateMergedContent]: one rebuild cycle starts and stays
    in flight until the environment reports it settled. *)
Definition regenerateMergedContent (a : Await) (l : Loop) : Loop :=
  MkLoop (now l) (timers l) (next_id l) (debounce_timer l) (state l)
         (in_flight l ++ [(S (rebuilds l), a)]) (S (rebuilds l)).

(** [handleChange] up to its first [await]. *)
Definition handleChange (cb : Callback) (l : Loop) : Loop :=
  let st := state l in
  if aborted st then l
  else
    match cb_filename cb with
    | None => l
    | Some filename =>
        if negb (shouldWatch filename) then l
        else if isProcessing st
        then set_state (MkWatchState (isProcessing st) true (aborted st)) l
        else regenerateMergedContent in_try
               (set_state (MkWatchState true (pendingRebuild st) (aborted st)) l)
    end.

(** [handleChange] after the [await] of rebuild [k] settles. *)
Definition settle (k : nat) (l : Loop) : Loop :=
  match find (fun r => Nat.eqb (fst r) k) (in_flight l) with
  | None => l
  | Some (_, a) =>
      let l1 := MkLoop (now l) (timers l) (next_id l) (debounce_timer l) (state l)
                       (filter (fun r => negb (Nat.eqb (fst r) k)) (in_flight l))
                       (rebuilds l) in
      match a with
      | in_finally => l1
      | in_try =>
          let st := state l1 in
          let l2 := set_state (MkWatchState false (pendingRebuild st) (aborted st)) l1 in
          if pendingRebuild st && negb (aborted st)
          then regenerateMergedContent in_finally
                 (set_state (MkWatchState false false (aborted st)) l2)
          else l2
      end
  end.

(** The first timer, in the order they were set, that is due at [t]. *)
Definition next_due (t : nat) (l : Loop) : option Timer :=
  find (fun tm => Nat.leb (due tm) t) (timers l).

(** Let the clock reach [t]: every timer due by then fires, at most [n] of
    them (a firing sets no timer, so the number of pending timers is
    enough). *)
Fixpoint fire_due (n : nat) (t : nat) (l : Loop) : Loop :=
  match n with
  | 0 => l
  | S n' =>
      match next_due t l with
      | None => l
      | Some tm => fire_due n' t (handleChange (callback tm) (clearTimeout (timer_id tm) l))
      end
  end.

Definition advance (t : nat) (l : Loop) : Loop :=
  let l1 := fire_due (List.length (timers l)) t l in
  MkLoop (Nat.max (now l1) t) (timers l1) (next_id l1) (debounce_timer l1)
         (state l1) (in_flight l1) (rebuilds l1).

(** What the environment delivers: a change reported by [fs.watch] for one
    of the watched roots, the end of a rebuild, or the [cleanup] call.
    [cleanup] sets [aborted] and closes the watchers, after which no change
    is reported; a timer already set still fires, and [handleChange] then
    returns at its first test. *)
Inductive Input :=
| FsChange (agentsPath : path) (filename : option string)
| Settles (k : nat)
| Cleanup.

Definition deliver (i : Input) (l : Loop) : Loop :=
  match i with
  | FsChange agentsPath filename =>
      if aborted (state l) then l
      else debounce DEBOUNCE_DELAY (MkCallback agentsPath filename) l
  | Settles k => settle k l
  | Cleanup =>
      let st := state l in
      set_state (MkWatchState (isProcessing st) (pendingRebuild st) true) l
  end.

(** Run a schedule of timed inputs, in order. *)
Fixpoint run (schedule : list (nat * Input)) (l : Loop) : Loop :=
  match schedule with
  | [] => l
  | (t, i) :: rest => run rest (deliver i (advance t l))
  end.

(** Let every pending timer fire. *)
Definition drain (l : Loop) : Loop :=
  match timers l with
  | [] => l
  | tm :: rest => advance (fold_right Nat.max (due tm) (map due rest)) l
  end.

End Watch.

(* ===================================================================== *)
(** ** Vocabulary of the statements *)

(** The markers a chain holds as [current] or as an ancestor. *)
Definition chain_markers (chain : InheritanceChain) : list path :=
  (match current chain with Some c => [c] | None => [] end) ++ ancestors chain.

(** [d] is a proper ancestor directory of [home]. *)
Definition strictly_above (d home : path) : Prop :=
  is_prefix d home = true /\ d <> home.

(** No marker of the chain sits in a directory strictly above [home]. *)
Definition no_marker_above (home : path) (chain : InheritanceChain) : Prop :=
  forall m, In m (chain_markers chain) -> ~ strictly_above (dirname m) home.

(** The absolute destination of a link found at [target]: a relative link
    text is resolved against the directory of the link. *)
Definition link_destination (target : path) (l : linktext) : list string :=
  if link_absolute l then link_segs l
  else resolve (dirname target ++ link_segs l).

(** [target] exists and is a real file or directory, not a link. *)
Definition real_target (fs : FS) (target : path) : Prop :=
  exists n, lookup target (Some fs) = Some n /\ is_link n = false.

(** [target] is a symbolic link whose resolved absolute destination is
    [source]. *)
Definition linked_to (fs : FS) (target source : path) : Prop :=
  exists l, lookup target (Some fs) = Some (Link l)
            /\ resolve (link_destination target l) = resolve source.

(** The directories on the way to [target]: its proper prefixes, the
    root first. *)
Definition way_to (target : path) : list path :=
  map (fun k => firstn k target) (seq 0 (List.length target)).

(** No directory on the way to [target] is a symbolic link.  The tree
    never follows a link, while the system calls resolve every component
    of a path but the last; on such a path the two find the same. *)
Definition plain_way (fs : FS) (target : path) : bool :=
  forallb (fun q => match lookup q (Some fs) with
                    | Some (Link _) => false
                    | _ => true
                    end) (way_to target).

(** [s] is the status entry of the mapping [m] on the disk [fs]: it has
    the name and the source of [m] and one status for each target of [m],
    in the order of the targets; a target that is a real file or
    directory is a conflict, and a target reached through real
    directories is linked only when it is a symbolic link whose resolved
    destination is the source. *)
Definition status_of_mapping (fs : FS) (m : Mapping) (s : LinkStatus) : Prop :=
  ls_name s = name m
  /\ ls_source s = source m
  /\ map fst (ls_targets s) = targets m
  /\ forall t st, In (t, st) (ls_targets s) ->
       (real_target fs t -> st = conflict)
       /\ (plain_way fs t = true -> st = linked -> linked_to fs t (source m)).

(** What the status loop records for one target, read off the disk. *)
Definition status_on_disk (fs : FS) (source target : path) : TargetStatus :=
  match lookup target (Some fs) with
  | None => missing
  | Some (Link l) =>
      if path_eqb (resolve (link_destination target l)) (resolve source)
      then linked else conflict
  | Some _ => conflict
  end.

(** *** The directory copy, seen on the tree *)

(** What a path holds, as far as the merge is concerned. *)
Inductive entry_kind := KFile (content : string) | KLink | KDir.

Definition shape (n : option node) : option entry_kind :=
  match n with
  | Some (File c) => Some (KFile c)
  | Some (Link _) => Some KLink
  | Some (Dir _) => Some KDir
  | None => None
  end.

(** What [listFiles] and [listDirs] let the copy see: links are skipped. *)
Definition visible (n : option node) : option entry_kind :=
  match n with
  | Some (File c) => Some (KFile c)
  | Some (Dir _) => Some KDir
  | _ => None
  end.

Definition shape_at (fs : FS) (p : path) : option entry_kind := shape (lookup p (Some fs)).
Definition visible_at (fs : FS) (p : path) : option entry_kind := visible (lookup p (Some fs)).

Fixpoint first_some {A} (l : list (option A)) : option A :=
  match l with
  | [] => None
  | Some a :: _ => Some a
  | None :: rest => first_some rest
  end.

Fixpoint height (n : node) : nat :=
  match n with
  | Dir es => S (list_max (map (fun e => height (snd e)) es))
  | _ => 0
  end.

Fixpoint distinct (names : list string) : bool :=
  match names with
  | [] => true
  | a :: rest => negb (existsb (String.eqb a) rest) && distinct rest
  end.

(** No directory lists a name twice. *)
Fixpoint well_formed (n : node) : bool :=
  match n with
  | Dir es => distinct (map fst es) && forallb (fun e => well_formed (snd e)) es
  | _ => true
  end.

(** Two trees never hold a file on one side and a directory on the other
    at the same path. *)
Fixpoint agree (a b : node) : bool :=
  match a, b with
  | Dir es, Dir fs' =>
      forallb (fun e => match assoc (fst e) fs' with
                        | Some c => agree (snd e) c
                        | None => true
                        end) es
  | File _, Dir _ | Dir _, File _ => false
  | _, _ => true
  end.

Section Overlay.

(** The copy of a subdirectory, to be tied by [overlay] below. *)
Variable overlay_sub : node -> option node -> res (option node).

(** The first loop of [copyDirectoryContents], on the destination slot. *)
Fixpoint overlay_files (es : list (string * node)) (slot : option node)
  : res (option node) :=
  match es with
  | [] => OK slot
  | (s, File c) :: rest =>
      res_bind (alter false (writeFile_slot c) [s] slot) (overlay_files rest)
  | _ :: rest => overlay_files rest slot
  end.

(** The second loop of [copyDirectoryContents], on the destination slot. *)
Fixpoint overlay_dirs (es : list (string * node)) (slot : option node)
  : res (option node) :=
  match es with
  | [] => OK slot
  | (s, c) :: rest =>
      if is_dir c
      then res_bind (alter true (overlay_sub c) [s] slot) (overlay_dirs rest)
      else overlay_dirs rest slot
  end.

End Overlay.

(** [copyDirectoryContents] of the tree [n] onto a destination slot. *)
Fixpoint overlay (n : node) (slot : option node) : res (option node) :=
  match n with
  | Dir es =>
      res_bind (ensureDir_slot slot) (fun slot0 =>
      res_bind (overlay_files es slot0) (fun slot1 =>
      overlay_dirs overlay es slot1))
  | _ => Fail ENOTDIR
  end.

(** Copies of several trees, one after the other. *)
Fixpoint overlay_all (layers : list node) (slot : option node) : res (option node) :=
  match layers with
  | [] => OK slot
  | n :: rest => res_bind (overlay n slot) (overlay_all rest)
  end.

(** A slot function that never deletes. *)
Definition keeps (f : option node -> res (option node)) : Prop :=
  forall n x, f n = OK x -> x <> None.

(** A visible source entry can be copied onto a destination of this shape:
    a file onto nothing or a file, a directory onto nothing or a
    directory. *)
Definition fits_kind (v s : option entry_kind) : Prop :=
  match v, s with
  | None, _ => True
  | Some _, None => True
  | Some (KFile _), Some (KFile _) => True
  | Some KDir, Some KDir => True
  | _, _ => False
  end.

(** C1 as the specification words it: every entry of the merge directory
    is the entry of the nearest contributing directory that has the name,
    and there is no other entry. *)
Definition extend_as_claimed (fs fs' : FS) (dirs : list path) (mergedDir : path)
  : Prop :=
  forall s, lookup (join mergedDir s) (Some fs')
            = first_some (map (fun d => lookup (join d s) (Some fs)) dirs).

(** C3 as the specification words it: the merge directory holds
    [build.md] and [local.md] and nothing else. *)
Definition compose_as_claimed (fs' : FS) (mergedDir : path) : Prop :=
  forall s, pathExists fs' (join mergedDir s) = true
            <-> s = "build.md" \/ s = "local.md".

(** C2 as the specification words it: whatever the merge directory holds
    after a resolution comes from a contributing directory. *)
Definition no_leftovers (fs fs' : FS) (dirs : list path) (mergedDir : path)
  : Prop :=
  forall s, pathExists fs' (join mergedDir s) = true ->
            exists d, In d dirs /\ pathExists fs (join d s) = true.

(** Every path of [fs] is still a path of [fs']. *)
Definition grows (fs fs' : FS) : Prop :=
  forall p, pathExists fs p = true -> pathExists fs' p = true.

(** A computation that deletes nothing, whether it returns or throws. *)
Definition monotone {A} (m : M A) : Prop :=
  forall fs,
    match m fs with
    | Done _ fs' | Thrown _ fs' => grows fs fs'
    | OutOfFuel => True
    end.

(** A slot function that deletes nothing below the slot. *)
Definition slot_grows (f : option node -> res (option node)) : Prop :=
  forall slot y q, f slot = OK y -> lookup q slot <> None -> lookup q y <> None.

(** The mappings of the instruction file, among those a builder returns. *)
Definition is_instructions_mapping (m : Mapping) : bool :=
  String.eqb (name m) "claude-md" || String.eqb (name m) "agents-md".

(** C4 as the specification words it, for the mappings [ms] a builder
    returns for the canonical root [root]: with [CLAUDE.md] there, the
    instruction file is mapped for claude from [CLAUDE.md], and for the
    clients that read [AGENTS.md] from [AGENTS.md] when that file is
    there, and not at all when it is not. *)
Definition instructions_as_claimed (fs : FS) (root : path)
           (clients : option (list Client)) (roots : ResolvedRoots)
           (ms : list Mapping) : Prop :=
  pathExists fs (join root "CLAUDE.md") = true ->
  filter is_instructions_mapping ms
  = (if has clients claude
     then [MkMapping "claude-md" (join root "CLAUDE.md")
                     [join (claudeRoot roots) "CLAUDE.md"] kind_file]
     else [])
    ++ (if pathExists fs (join root "AGENTS.md")
           && negb (is_nil (agentTargets clients roots))
        then [MkMapping "agents-md" (join root "AGENTS.md")
                        (agentTargets clients roots) kind_file]
        else []).

(** [n] more targets skipped. *)
Definition skip_more (n : nat) (acc : RepairResult) : RepairResult :=
  MkRepair (rr_scope acc) (created acc) (updated acc) (n + skipped acc) (errors acc).

(* ===================================================================== *)
(** ** Example trees *)

Module Examples.

(** A home directory with its own marker, a project below it, and a marker
    at the file-system root, above the home directory. *)
Definition home : path := ["home"; "u"].
Definition outside : path := ["tmp"; "w"].

(** The home directory given as [/home/u], and given as [/home/u/]. *)
Definition homeDir : HomeDir := MkHome home true.
Definition homeDirSlash : HomeDir := MkHome home false.

Definition disk : FS :=
  Dir [("home", Dir [("u", Dir [(".agents", Dir []);
                                ("proj", Dir [(".agents", Dir [])])])]);
       (".agents", Dir []);
       ("tmp", Dir [("w", Dir [])])].

Definition no_command (command : string) : bool := false.

Definition env : Env := MkEnv homeDir (home ++ ["proj"]) false no_command.

(** A home directory whose client directory [.claude] is already
    projected: three links to the canonical tree (one of them relative) and
    one real directory, [commands], holding a copy of the canonical
    commands. *)
Definition agentsRoot : path := home ++ [".agents"].
Definition claudeDir : path := home ++ [".claude"].

Definition canonicalTree : node :=
  Dir [("AGENTS.md", File "# Rules");
       ("commands", Dir [("build.md", File "make")]);
       ("hooks", Dir []);
       ("skills", Dir [])].

Definition copiedDisk : FS :=
  Dir [("home", Dir [("u", Dir [
    (".agents", canonicalTree);
    (".claude", Dir [
       ("CLAUDE.md", Link (MkLink true (agentsRoot ++ ["AGENTS.md"])));
       ("commands", Dir [("build.md", File "make")]);
       ("hooks", Link (MkLink false [".."; ".agents"; "hooks"]));
       ("skills", Link (MkLink true (agentsRoot ++ ["skills"])))])])])].

Definition linkedDisk : FS :=
  Dir [("home", Dir [("u", Dir [
    (".agents", canonicalTree);
    (".claude", Dir [
       ("CLAUDE.md", Link (MkLink true (agentsRoot ++ ["AGENTS.md"])));
       ("commands", Link (MkLink true (agentsRoot ++ ["commands"])));
       ("hooks", Link (MkLink false [".."; ".agents"; "hooks"]));
       ("skills", Link (MkLink true (agentsRoot ++ ["skills"])))])])])].

Definition homeEnv : Env := MkEnv homeDir ["srv"] false no_command.

Definition globalClaude : MappingOptions :=
  MkMappingOptions scope_global None None (Some [claude]).

Definition no_yaml (text : string) : option MonorepoConfig := None.

(** The compose scenario: a package inside a monorepo.  The root of the
    monorepo offers two commands; the package has one command of its own, a
    [config.yaml] and a [CLAUDE.md]. *)
Definition monoRoot : path := ["w"; "mono"; ".agents"].
Definition pkgRoot : path := ["w"; "mono"; "pkg"; ".agents"].

Definition composeDisk (build deploy local config : string) : FS :=
  Dir [("w", Dir [("mono", Dir [
    (".agents", Dir [("commands", Dir [("build.md", File build);
                                       ("deploy.md", File deploy)])]);
    ("pkg", Dir [(".agents", Dir [("config.yaml", File config);
                                   ("CLAUDE.md", File "# Package rules");
                                   ("commands", Dir [("local.md", File local)])])])])]);
       ("home", Dir [("u", Dir [])])].

(** The compose scenario with a merge directory left by an earlier
    resolution, when [deploy.md] was still included. *)
Definition staleComposeDisk : FS :=
  Dir [("w", Dir [("mono", Dir [
    (".agents", Dir [("commands", Dir [("build.md", File "make");
                                       ("deploy.md", File "ship")])]);
    ("pkg", Dir [(".agents",
                  Dir [("config.yaml", File "compose");
                       ("CLAUDE.md", File "# Package rules");
                       ("commands", Dir [("local.md", File "lint")]);
                       ("merged", Dir [("commands",
                                        Dir [("deploy.md", File "ship")])])])])])]);
       ("home", Dir [("u", Dir [])])].

(** [extends: { commands: compose, default: inherit }] and
    [include: { commands: [build.md] }]. *)
Definition composeConfig : MonorepoConfig :=
  MkConfig (Some (ExtendsPer (MkExtendsMap None (Some compose) None None (Some inherit))))
           (Some (MkInclude (Some ["build.md"]) None None))
           None.

Definition composeChain : InheritanceChain := MkChain None [monoRoot] (Some pkgRoot).

Definition pkgEnv : Env := MkEnv homeDir ["w"; "mono"; "pkg"] false no_command.

Definition yaml_of_compose (text : string) : option MonorepoConfig :=
  if String.eqb text "compose" then Some composeConfig else None.

(** Two layers of skills: both roots hold the file [notes.md] and the
    skill directory [review]; the monorepo root alone holds [shared.md]. *)
Definition layeredTree (leftover : list (string * node)) : FS :=
  Dir [("w", Dir [("mono", Dir [
    (".agents", Dir [("skills", Dir [("review", Dir [("far.md", File "F")]);
                                     ("notes.md", File "far notes");
                                     ("shared.md", File "shared")])]);
    ("pkg", Dir [(".agents",
                  Dir (("skills", Dir [("review", Dir [("near.md", File "N")]);
                                       ("notes.md", File "near notes")])
                       :: leftover))])])])].

Definition layeredDisk : FS := layeredTree [].

(** The same, with a merge directory that holds the merged instruction
    file and no skills yet. *)
Definition instructedDisk : FS :=
  layeredTree [("merged", Dir [("AGENTS.md", File "# Merged")])].

(** The same, with a merge directory left by an earlier resolution. *)
Definition staleDisk : FS :=
  layeredTree [("merged", Dir [("skills", Dir [("old.md", File "gone upstream")])])].

Definition skillsExtend : MergeChainOptions :=
  MkMergeChain [pkgRoot; monoRoot] pkgRoot "skills" extend None.

Definition mergedSkills : path := pkgRoot ++ ["merged"; "skills"].

Definition skillsDirs : list path := [pkgRoot ++ ["skills"]; monoRoot ++ ["skills"]].

Definition layeredResult : FS :=
  Eval vm_compute in
    match mergeDirectoryChain 4 skillsExtend layeredDisk with
    | Done _ fs' => fs'
    | _ => layeredDisk
    end.

Definition staleResult : FS :=
  Eval vm_compute in
    match mergeDirectoryChain 4 skillsExtend staleDisk with
    | Done _ fs' => fs'
    | _ => staleDisk
    end.

Definition pkgOptions : MonorepoMappingOptions :=
  MkMonorepoMappingOptions composeChain None None (Some [claude; codex]).

(** A home directory whose canonical tree holds both instruction files. *)
Definition overrideDisk : FS :=
  Dir [("home", Dir [("u", Dir [
    (".agents", Dir [("CLAUDE.md", File "# For Claude");
                     ("AGENTS.md", File "# For all")])])])].

Definition globalTwo : MappingOptions :=
  MkMappingOptions scope_global None None (Some [claude; codex]).

(** A home directory whose canonical tree holds [CLAUDE.md] alone, and a
    project in [/srv] whose canonical tree holds both instruction
    files. *)
Definition srvRoot : path := ["srv"; ".agents"].

Definition claudeOnlyDisk : FS :=
  Dir [("home", Dir [("u", Dir [
         (".agents", Dir [("CLAUDE.md", File "# For Claude")])])]);
       ("srv", Dir [(".agents", Dir [("CLAUDE.md", File "# For Claude");
                                     ("AGENTS.md", File "# For all")])])].

Definition projectTwo : MappingOptions :=
  MkMappingOptions scope_project None None (Some [claude; codex]).

Definition srvTwo : MonorepoMappingOptions :=
  MkMonorepoMappingOptions (MkChain None [] (Some srvRoot)) None None
                           (Some [claude; codex]).

End Examples.

(* ===================================================================== *)
(** ** The other functions of the sources *)

(** *** [merge.ts]: the two-file and two-directory merges *)

(** [mergeMarkdownFiles]: a missing file counts as the empty string; the
    tests are on the empty string, not on blank content. *)
Definition mergeMarkdownFiles (parentPath childPath : path) : M string :=
  hasParent <- pathExistsM parentPath ;;
  parentContent <- (if hasParent then readText parentPath else ret "") ;;
  hasChild <- pathExistsM childPath ;;
  childContent <- (if hasChild then readText childPath else ret "") ;;
  if falsy parentContent && falsy childContent then ret ""
  else if falsy parentContent then ret childContent
  else if falsy childContent then ret parentContent
  else ret (trimEnd parentContent ++ SEPARATOR ++ trimStart childContent)%string.

Record MergeDirectoryOptions := MkMergeDirectory {
  parentDir : path;
  childDir : path;
  outputDir : path;
  md_behavior : ExtendBehavior
}.

Definition mergeDirectory (fuel : nat) (opts : MergeDirectoryOptions) : M unit :=
  match md_behavior opts with
  | override =>
      present <- pathExistsM (childDir opts) ;;
      if present then copyDirectoryContents fuel (childDir opts) (outputDir opts)
      else ret tt
  | inherit =>
      present <- pathExistsM (parentDir opts) ;;
      if present then copyDirectoryContents fuel (parentDir opts) (outputDir opts)
      else ret tt
  | _ =>
      ensureDir (outputDir opts) ;;
      hasParent <- pathExistsM (parentDir opts) ;;
      (if hasParent then copyDirectoryContents fuel (parentDir opts) (outputDir opts)
       else ret tt) ;;
      hasChild <- pathExistsM (childDir opts) ;;
      if hasChild then copyDirectoryContents fuel (childDir opts) (outputDir opts)
      else ret tt
  end.

(** *** [config.ts]: building and saving a configuration *)

Definition configExists (agentsRoot : path) : M bool :=
  pathExistsM (getConfigPath agentsRoot).

Definition createDefaultConfig (extendsAll : bool) : MonorepoConfig :=
  MkConfig (Some (ExtendsAll extendsAll)) None None.

(** [behaviors] is a [Record<ResourceName, ExtendBehavior>]: a behaviour
    for each of the four resources. *)
Definition createDetailedConfig (behaviors : ResourceName -> ExtendBehavior)
  : MonorepoConfig :=
  MkConfig
    (Some (ExtendsPer
             (MkExtendsMap (Some (behaviors R_AGENTS_md))
                           (Some (behaviors R_commands))
                           (Some (behaviors R_skills))
                           (Some (behaviors R_hooks))
                           (Some inherit))))
    None None.

Definition createComposeConfig (behaviors : ResourceName -> ExtendBehavior)
           (include : option IncludeConfig) : MonorepoConfig :=
  MkConfig
    (Some (ExtendsPer
             (MkExtendsMap (Some (behaviors R_AGENTS_md))
                           (Some (behaviors R_commands))
                           (Some (behaviors R_skills))
                           (Some (behaviors R_hooks))
                           (Some inherit))))
    include None.

Section WithYaml.

(** [yaml.dump] of [js-yaml], with the options the source passes. *)
Variable yaml_dump : MonorepoConfig -> string.

Definition saveMonorepoConfig (agentsRoot : path) (config : MonorepoConfig)
  : M unit :=
  let configPath := getConfigPath agentsRoot in
  let content := yaml_dump config in
  writeText configPath content.

End WithYaml.

(** *** [detect.ts] and [watch.ts]: what is detected and what is watched *)

Section WithEnvironment.

Variable env : Env.

Definition getDetectedClients : M (list Client) :=
  reads (fun fs =>
    map fst (filter (fun entry => dr_detected (snd entry))
                    (detectAllClients env fs))).

End WithEnvironment.

(** [getWatchablePaths]: the roots of the effective chain that exist. *)
Definition getWatchablePaths (chain : InheritanceChain) : M (list path) :=
  existing (getEffectiveChain chain).

(** *** [discover.ts] *)

Inductive DiscoveredType := dt_command | dt_skill | dt_hook.

Record DiscoveredItem := MkDiscovered {
  di_name : string;
  di_path : path;
  di_source : path;
  di_type : DiscoveredType
}.

Record DiscoveryOptions := MkDiscovery {
  dc_chain : InheritanceChain;
  excludeCurrent : bool
}.

Definition discoverFromDirectory (agentsPath : path) (resourceDir : string)
           (type : DiscoveredType) (isDirectory : bool)
  : M (list DiscoveredItem) :=
  let fullPath := join agentsPath resourceDir in
  present <- pathExistsM fullPath ;;
  if negb present then ret []
  else if isDirectory then
    dirs <- listDirs fullPath ;;
    ret (map (fun dir =>
                MkDiscovered (basename dir ++ "/")%string dir agentsPath type)
             dirs)
  else
    files <- listFiles fullPath ;;
    ret (map (fun file => MkDiscovered (basename file) file agentsPath type)
             files).

(** The inner loop of the three discovery functions, on the pair of
    [allItems] and [seen]: an item is added when its name is new. *)
Fixpoint add_unseen (items : list DiscoveredItem)
         (acc : list DiscoveredItem * list string)
  : list DiscoveredItem * list string :=
  match items with
  | [] => acc
  | item :: rest =>
      if existsb (String.eqb (di_name item)) (snd acc)
      then add_unseen rest acc
      else add_unseen rest (fst acc ++ [item], di_name item :: snd acc)
  end.

(** The outer loop, over the roots. *)
Fixpoint discover_from (resourceDir : string) (type : DiscoveredType)
         (isDirectory : bool) (sources : list path)
         (acc : list DiscoveredItem * list string)
  : M (list DiscoveredItem * list string) :=
  match sources with
  | [] => ret acc
  | agentsPath :: rest =>
      items <- discoverFromDirectory agentsPath resourceDir type isDirectory ;;
      discover_from resourceDir type isDirectory rest (add_unseen items acc)
  end.

(** [excludeCurrent && chain.current
       ? effectiveChain.filter((p) => p !== chain.current)
       : effectiveChain]. *)
Definition discovery_sources (opts : DiscoveryOptions) : list path :=
  let effectiveChain := getEffectiveChain (dc_chain opts) in
  match excludeCurrent opts, current (dc_chain opts) with
  | true, Some c => filter (fun p => negb (path_eqb p c)) effectiveChain
  | _, _ => effectiveChain
  end.

(** The body the three discovery functions share, which is the same text
    in each but for the directory, the type and what is listed. *)
Definition discoverResource (resourceDir : string) (type : DiscoveredType)
           (isDirectory : bool) (opts : DiscoveryOptions)
  : M (list DiscoveredItem) :=
  found <- discover_from resourceDir type isDirectory (discovery_sources opts)
             ([], []) ;;
  ret (fst found).

Definition discoverCommands : DiscoveryOptions -> M (list DiscoveredItem) :=
  discoverResource "commands" dt_command false.

Definition discoverSkills : DiscoveryOptions -> M (list DiscoveredItem) :=
  discoverResource "skills" dt_skill true.

Definition discoverHooks : DiscoveryOptions -> M (list DiscoveredItem) :=
  discoverResource "hooks" dt_hook true.

(** *** [init.ts] *)

Definition DQ : string := String (ascii_of_nat 34) EmptyString.

Definition AGENTS_MD_TEMPLATE : string :=
  "# AGENTS.md

This file provides instructions and context for AI coding assistants.

## Project Overview

<!-- Describe your project here -->

## Code Style

<!-- Document your coding conventions -->

## Architecture

<!-- Explain the project structure and key patterns -->

## Common Tasks

<!-- List frequent development tasks and how to accomplish them -->

## Testing

<!-- Describe testing approach and how to run tests -->

## Notes

<!-- Any additional context for AI assistants -->
".

Definition CONFIG_YAML_TEMPLATE : string :=
  ("# Monorepo configuration for .agents
# This file controls how this package inherits from parent .agents folders

# Set to true to inherit all resources from parent
# Set to false to use only local resources
# Or configure per-resource below
extends: true

# Per-resource configuration (optional)
# extends:
#   AGENTS.md: inherit   # inherit | extend | override
#   commands: inherit
#   skills: inherit
#   hooks: inherit
#   default: inherit

# Exclude patterns (optional)
# exclude:
#   - " ++ DQ ++ "**/*.test.md" ++ DQ ++ "
")%string.

Record InitOptions := MkInit {
  init_scope : Scope;
  init_projectRoot : option path;
  init_homeDir : option HomeDir;
  createConfig : bool
}.

Record InitResult := MkInitResult {
  ir_agentsRoot : path;
  ir_created : list string;
  ir_skipped : list string;
  isMonorepo : bool
}.

Record ExistingFiles := MkExisting {
  agentsMd : bool;
  commandsDir : bool;
  hooksDir : bool;
  skillsDir : bool;
  configYaml : bool
}.

Definition checkExistingFiles (agentsRoot : path) : M ExistingFiles :=
  reads (fun fs =>
    MkExisting (pathExists fs (join agentsRoot "AGENTS.md"))
               (pathExists fs (join agentsRoot "commands"))
               (pathExists fs (join agentsRoot "hooks"))
               (pathExists fs (join agentsRoot "skills"))
               (pathExists fs (join agentsRoot "config.yaml"))).

(** One step of [initAgentsFolder], on the pair of [created] and
    [skipped]: what is there is skipped, what is not is created. *)
Definition init_step (present : bool) (label : string) (create : M unit)
           (lists : list string * list string)
  : M (list string * list string) :=
  if present then ret (fst lists, snd lists ++ [label])
  else create ;; ret (fst lists ++ [label], snd lists).

Section WithHome.

Variable env : Env.

Definition resolveAgentsRoot (opts : InitOptions) : path :=
  let homeDir := or_else (init_homeDir opts) (os_homedir env) in
  let projectRoot := or_else (init_projectRoot opts) (process_cwd env) in
  match init_scope opts with
  | scope_global => join homeDir ".agents"
  | scope_project => join projectRoot ".agents"
  end.

Definition initAgentsFolder (opts : InitOptions) : M InitResult :=
  let agentsRoot := resolveAgentsRoot opts in
  found <- checkExistingFiles agentsRoot ;;
  ensureDir agentsRoot ;;
  l1 <- init_step (agentsMd found) "AGENTS.md"
          (writeText (join agentsRoot "AGENTS.md") AGENTS_MD_TEMPLATE) ([], []) ;;
  l2 <- init_step (commandsDir found) "commands/"
          (ensureDir (join agentsRoot "commands")) l1 ;;
  l3 <- init_step (hooksDir found) "hooks/"
          (ensureDir (join agentsRoot "hooks")) l2 ;;
  l4 <- init_step (skillsDir found) "skills/"
          (ensureDir (join agentsRoot "skills")) l3 ;;
  l5 <- (if createConfig opts
         then init_step (configYaml found) "config.yaml"
                (writeText (join agentsRoot "config.yaml") CONFIG_YAML_TEMPLATE) l4
         else ret l4) ;;
  chain <- reads (detectMonorepoChain env
                    (MkDetect (match init_scope opts with
                               | scope_project => init_projectRoot opts
                               | scope_global => None
                               end)
                              (init_homeDir opts))) ;;
  let isMonorepo :=
    match init_scope opts with
    | scope_project => hasMonorepoParent chain
    | scope_global => false
    end in
  ret (MkInitResult agentsRoot (fst l5) (snd l5) isMonorepo).

Definition detectMonorepoContext (projectRoot : option path)
           (homeDir : option HomeDir) : M bool :=
  chain <- reads (detectMonorepoChain env (MkDetect projectRoot homeDir)) ;;
  ret (hasMonorepoParent chain).

End WithHome.

(* ===================================================================== *)
(** ** Vocabulary of the further statements *)

(** Content that [mergeMarkdownChain] passes over: nothing but white
    space. *)
Definition blank (content : string) : bool := falsy (trim content).

(** Every byte is below 128. *)
Fixpoint ascii_text (s : string) : bool :=
  match s with
  | EmptyString => true
  | String c rest => Nat.ltb (nat_of_ascii c) 128 && ascii_text rest
  end.

(** The contents of the regular files among the paths, in order. *)
Definition contents (fs : FS) (filePaths : list path) : list string :=
  flat_map (fun p => match lookup p (Some fs) with
                     | Some (File c) => [c]
                     | _ => []
                     end) filePaths.

(** One round of the loop of [mergeMarkdownChain], on the text so far. *)
Definition add_section (result content : string) : string :=
  if falsy result then content
  else (trimEnd result ++ SEPARATOR ++ trimStart content)%string.

(** Sections joined by the separator: the sections in the middle trimmed
    on both sides, the last one at its start only. *)
Fixpoint joined_rest (sections : list string) : string :=
  match sections with
  | [] => ""
  | [c] => SEPARATOR ++ trimStart c
  | c :: rest => SEPARATOR ++ trim c ++ joined_rest rest
  end.

(** A single section as it is; several with the first one trimmed at its
    end only. *)
Definition joined (sections : list string) : string :=
  match sections with
  | [] => ""
  | [c] => c
  | c :: rest => trimEnd c ++ joined_rest rest
  end.

(** The name [mergeCompose] looks an item of the include list up by: a
    trailing slash is dropped. *)
Definition clean_name (itemName : string) : string :=
  if endsWith_slash itemName then slice_but_last itemName else itemName.

Fixpoint has_slash (s : string) : bool :=
  match s with
  | EmptyString => false
  | String c rest => Ascii.eqb c "/"%char || has_slash rest
  end.

(** A name that [path.join] appends as one segment: not empty, not [.]
    or [..], and without a separator. *)
Definition plain_name (s : string) : bool :=
  negb (falsy s) && negb (String.eqb s ".") && negb (String.eqb s "..")
  && negb (has_slash s).

(** The instruction file of each root that has one, [CLAUDE.md] before
    [AGENTS.md], in the order of the roots. *)
Definition instruction_files (fs : FS) (roots : list path) : list path :=
  flat_map (fun root =>
              if pathExists fs (join root "CLAUDE.md") then [join root "CLAUDE.md"]
              else if pathExists fs (join root "AGENTS.md") then [join root "AGENTS.md"]
              else []) roots.

(** A slot function that works on the slot itself: what lies strictly
    below the slot is as before. *)
Definition leaf_level (f : option node -> res (option node)) : Prop :=
  forall slot y, f slot = OK y ->
    forall q, q <> [] -> lookup q y = lookup q slot.

(** A computation that changes the disk at [target] and on the way to it
    only, whether it returns or throws. *)
Definition confined {A} (target : path) (m : M A) : Prop :=
  forall fs,
    match m fs with
    | Done _ fs' | Thrown _ fs' =>
        forall q, is_prefix q target = false ->
                  lookup q (Some fs') = lookup q (Some fs)
    | OutOfFuel => True
    end.

(** A computation after which every path but [target] that was on the
    disk is still there, whether it returns or throws. *)
Definition sparing {A} (target : path) (m : M A) : Prop :=
  forall fs,
    match m fs with
    | Done _ fs' | Thrown _ fs' =>
        forall q, q <> target -> pathExists fs q = true -> pathExists fs' q = true
    | OutOfFuel => True
    end.

(** A computation that needs no fuel. *)
Definition fuel_free {A} (m : M A) : Prop :=
  forall fs, m fs <> OutOfFuel.

(** No path of the list lies below another one. *)
Definition prefix_free (paths : list path) : Prop :=
  forall t t', In t paths -> In t' paths -> is_prefix t t' = true -> t = t'.

(** The number of targets a repair has accounted for. *)
Definition accounted (r : RepairResult) : nat :=
  created r + updated r + skipped r + List.length (errors r).

(** Every target a mapping builder can name, each with whether it is
    named: [claudeMd] and [agentsMd] tell whether the instruction file is
    mapped for claude and for the clients that read [AGENTS.md],
    [withCommands], [withHooks] and [withSkills] whether the resource has
    a mapping. *)
Definition target_slots (claudeMd agentsMd withCommands withHooks withSkills : bool)
           (clients : option (list Client)) (roots : ResolvedRoots)
  : list (bool * path) :=
  [(claudeMd && has clients claude, join (claudeRoot roots) "CLAUDE.md");
   (agentsMd && has clients factory, join (factoryRoot roots) "AGENTS.md");
   (agentsMd && has clients codex, join (codexRoot roots) "AGENTS.md");
   (agentsMd && has clients opencode, join (opencodeConfigRoot roots) "AGENTS.md");
   (withCommands && has clients claude, join (claudeRoot roots) "commands");
   (withCommands && has clients factory, join (factoryRoot roots) "commands");
   (withCommands && has clients codex, join (codexRoot roots) "prompts");
   (withCommands && has clients opencode, join (opencodeRoot roots) "commands");
   (withCommands && has clients cursor, join (cursorRoot roots) "commands");
   (withHooks && has clients claude, join (claudeRoot roots) "hooks");
   (withHooks && has clients factory, join (factoryRoot roots) "hooks");
   (withSkills && has clients claude, join (claudeRoot roots) "skills");
   (withSkills && has clients factory, join (factoryRoot roots) "skills");
   (withSkills && has clients codex, join (codexRoot roots) "skills");
   (withSkills && has clients opencode, join (opencodeRoot roots) "skills");
   (withSkills && has clients cursor, join (cursorRoot roots) "skills")].

(** The last two segments of a path, as one name. *)
Definition target_key (p : path) : string :=
  (basename (dirname p) ++ "/" ++ basename p)%string.

(** The roots of the clients carry the names of the clients. *)
Definition client_roots (roots : ResolvedRoots) : Prop :=
  basename (claudeRoot roots) = ".claude"
  /\ basename (factoryRoot roots) = ".factory"
  /\ basename (codexRoot roots) = ".codex"
  /\ basename (cursorRoot roots) = ".cursor"
  /\ basename (opencodeRoot roots) = ".opencode"
  /\ basename (opencodeConfigRoot roots) = "opencode".

(** [kept] holds, for every name among [found], the first item of
    [found] with that name, and nothing else. *)
Definition kept_first (found kept : list DiscoveredItem) : Prop :=
  NoDup (map di_name kept)
  /\ (forall x, In x kept ->
        exists before after,
          found = before ++ x :: after
          /\ ~ In (di_name x) (map di_name before))
  /\ (forall y, In y found -> In (di_name y) (map di_name kept)).

(** What [initAgentsFolder] sets up in the root: the label it reports and
    the name of the entry. *)
Definition init_items (withConfig : bool) : list (string * string) :=
  [("AGENTS.md", "AGENTS.md"); ("commands/", "commands");
   ("hooks/", "hooks"); ("skills/", "skills")]
  ++ (if withConfig then [("config.yaml", "config.yaml")] else []).

(** Every file and every link of [fs] is in [fs'], unchanged. *)
Definition keeps_leaves (fs fs' : FS) : Prop :=
  forall q x, lookup q (Some fs) = Some x -> is_dir x = false ->
              lookup q (Some fs') = Some x.

(** How far [initAgentsFolder] has come on a disk that was [fs]: the items
    [done] are dealt with, [lists] are the labels created and skipped so
    far, and [now] is the disk. *)
Definition init_progress (fs : FS) (root : path) (done : list (string * string))
           (lists : list string * list string) (now : FS) : Prop :=
  fst lists
  = map fst (filter (fun i => negb (pathExists fs (join root (snd i)))) done)
  /\ snd lists
     = map fst (filter (fun i => pathExists fs (join root (snd i))) done)
  /\ (forall i, In i done -> pathExists now (join root (snd i)) = true)
  /\ (forall s, ~ In s (map snd done) ->
                lookup (join root s) (Some now) = lookup (join root s) (Some fs))
  /\ (exists es, lookup root (Some now) = Some (Dir es))
  /\ keeps_leaves fs now
  /\ grows fs now.

(** Times that follow one another within the debounce delay. *)
Fixpoint rapid (times : list nat) : Prop :=
  match times with
  | t1 :: ((t2 :: _) as rest) =>
      t1 <= t2 /\ t2 < t1 + Watch.DEBOUNCE_DELAY /\ rapid rest
  | _ => True
  end.

(** The file name a change reports is one the daemon reacts to. *)
Definition watched (filename : option string) : bool :=
  match filename with
  | Some f => Watch.shouldWatch f
  | None => false
  end.

(** A burst of changes, as the schedule of what the daemon receives. *)
Definition burst (events : list (nat * (path * option string)))
  : list (nat * Watch.Input) :=
  map (fun e => (fst e, Watch.FsChange (fst (snd e)) (snd (snd e)))) events.

(* ===================================================================== *)
(** ** Further example trees *)

Module Scenes.

(** A package inside a monorepo, each with instructions: the monorepo
    root has [AGENTS.md], the package has both [CLAUDE.md] and
    [AGENTS.md]. *)
Definition instructionsDisk : FS :=
  Dir [("w", Dir [("mono", Dir [
    (".agents", Dir [("AGENTS.md", File ("# Mono" ++ LF))]);
    ("pkg", Dir [(".agents", Dir [("CLAUDE.md", File "# Pkg");
                                   ("AGENTS.md", File "# Unused")])])])])].

(** Two roots with a command of the same name. *)
Definition commandsDisk : FS :=
  Dir [("w", Dir [("mono", Dir [
    (".agents", Dir [("commands", Dir [("build.md", File "far");
                                       ("deploy.md", File "ship")])]);
    ("pkg", Dir [(".agents", Dir [("commands", Dir [("build.md", File "near")])])])])])].

(** A project with an [AGENTS.md] of its own and nothing else set up. *)
Definition startedDisk : FS :=
  Dir [("home", Dir [("u", Dir [
    ("proj", Dir [(".agents", Dir [("AGENTS.md", File "# Mine")])])])])].

(** A home directory with a canonical tree and an empty client
    directory. *)
Definition unlinkedDisk : FS :=
  Dir [("home", Dir [("u", Dir [(".agents", Examples.canonicalTree);
                                (".claude", Dir [])])])].

End Scenes.

(* ===================================================================== *)
(** * Properties *)

Unset Implicit Arguments.

(** ** Paths *)

Lemma path_eqb_refl (p : path) : path_eqb p p = true.
Proof.
  induction p as [|a p IH]; [reflexivity|].
  simpl. now rewrite String.eqb_refl.
Qed.

Lemma path_eqb_eq (p q : path) : path_eqb p q = true <-> p = q.
Proof.
  split; [|intros ->; apply path_eqb_refl].
  revert q; induction p as [|a p IH]; destruct q as [|b q]; simpl;
    try congruence.
  intros H. apply andb_true_iff in H as [H1 H2].
  apply String.eqb_eq in H1. apply IH in H2. congruence.
Qed.

Lemma path_eqb_neq (p q : path) : path_eqb p q = false <-> p <> q.
Proof.
  rewrite <- path_eqb_eq. destruct (path_eqb p q); split; congruence.
Qed.

Lemma length_dirname (p : path) :
  p <> [] -> List.length (dirname p) < List.length p.
Proof.
  unfold dirname. induction p as [|a p IH]; [congruence|]. intros _.
  destruct p as [|b p]; [simpl; lia|].
  change (removelast (a :: b :: p)) with (a :: removelast (b :: p)).
  cbn [List.length]. assert (b :: p <> []) as Hne by congruence.
  specialize (IH Hne). cbn [List.length] in IH. lia.
Qed.

Lemma stops_false_nonroot (home : HomeDir) (currentDir : path) :
  stops home currentDir = false -> currentDir <> [].
Proof.
  intros H ->. discriminate H.
Qed.


Lemma dirname_join (p : path) (s : string) : dirname (join p s) = p.
Proof. unfold dirname, join. apply removelast_last. Qed.

Lemma basename_join (p : path) (s : string) : basename (join p s) = s.
Proof. unfold basename, join. apply last_last. Qed.

Lemma is_prefix_refl (p : path) : is_prefix p p = true.
Proof.
  induction p as [|a p IH]; [reflexivity|].
  simpl. now rewrite String.eqb_refl.
Qed.

Lemma is_prefix_app (p q : path) : is_prefix p q = true <-> exists r, q = p ++ r.
Proof.
  revert q. induction p as [|a p IH]; intros q.
  - split; [intros _; now exists q | reflexivity].
  - destruct q as [|b q]; simpl.
    + split; [discriminate | intros [r Hr]; discriminate Hr].
    + rewrite andb_true_iff, String.eqb_eq, IH. split.
      * intros [-> [r ->]]. now exists r.
      * intros [r Hr]. injection Hr as -> ->. split; [reflexivity | now exists r].
Qed.

Lemma is_prefix_antisym (p q : path) :
  is_prefix p q = true -> is_prefix q p = true -> p = q.
Proof.
  rewrite !is_prefix_app. intros [r ->] [r' Hr'].
  rewrite <- app_assoc in Hr'.
  rewrite <- (app_nil_r p) in Hr' at 1. apply app_inv_head in Hr'.
  symmetry in Hr'. apply app_eq_nil in Hr' as [-> _]. now rewrite app_nil_r.
Qed.

Lemma is_prefix_dirname (home cur : path) :
  is_prefix home cur = true -> cur <> home -> is_prefix home (dirname cur) = true.
Proof.
  rewrite !is_prefix_app. intros [r ->] Hne.
  destruct (exists_last (l := r)) as [r' [s ->]].
  - intros ->. now rewrite app_nil_r in Hne.
  - exists r'. unfold dirname. now rewrite app_assoc, removelast_last.
Qed.

(** ** Chain resolver *)

Lemma stops_at_home (home : HomeDir) :
  normalised home = true -> stops home home = true.
Proof.
  intros H. unfold stops, is_home. rewrite H, (path_eqb_refl home).
  apply orb_true_r.
Qed.

Lemma walkUp_step (fs : FS) (home : HomeDir) (cur : path) :
  walkUp fs home cur =
  marker_of fs cur ++ (if stops home cur then [] else walkUp fs home (dirname cur)).
Proof.
  rewrite walkUp_equation_1.
  destruct (inspect (stops home cur)) as [b Hb].
  destruct b; simpl; rewrite Hb; unfold marker_of.
  - now rewrite app_nil_r.
  - reflexivity.
Qed.

Lemma walkUp_at_home (fs : FS) (home : HomeDir) :
  normalised home = true -> walkUp fs home home = marker_of fs home.
Proof.
  intros H. rewrite walkUp_step, stops_at_home by exact H. apply app_nil_r.
Qed.

Lemma walkUp_below (fs : FS) (home : HomeDir) :
  normalised home = true ->
  forall (cur : path), is_prefix home cur = true ->
  forall m, In m (walkUp fs home cur) -> is_prefix home (dirname m) = true.
Proof.
  intros Hnormal cur. remember (List.length cur) as n eqn:Hn.
  revert cur Hn. induction n as [n IH] using lt_wf_ind.
  intros cur Hn Hpre m Hm.
  rewrite walkUp_step in Hm. apply in_app_or in Hm as [Hm|Hm].
  - unfold marker_of in Hm.
    destruct (pathExists fs (join cur AGENTS_DIR)); [|contradiction].
    destruct Hm as [<-|[]]. now rewrite dirname_join.
  - destruct (stops home cur) eqn:Hs; [contradiction|].
    assert (cur <> home) as Hne.
    { intros ->. now rewrite stops_at_home in Hs. }
    eapply (IH (List.length (dirname cur))); try reflexivity; eauto.
    + subst n. apply length_dirname. eapply stops_false_nonroot; eauto.
    + now apply is_prefix_dirname.
Qed.

(** C5, as the specification words it, fails in two ways.  When the walk
    does not start inside the home directory it never meets the home
    boundary and climbs to the file-system root: started in [/tmp/w] with
    the home directory [/home/u], the marker [/.agents] becomes [current].
    And when the home directory is not given in normal form the boundary
    is never recognised, since the walk compares strings: started in
    [/home/u/proj] with the home directory given as [/home/u/], the walk
    passes through [/home/u] and records [/.agents] as an ancestor. *)
Lemma C5_marker_above_home_found :
  ~ no_marker_above Examples.home
      (detectMonorepoChain Examples.env
         (MkDetect (Some Examples.outside) (Some Examples.homeDir)) Examples.disk)
  /\ ~ no_marker_above Examples.home
        (detectMonorepoChain Examples.env
           (MkDetect (Some (Examples.home ++ ["proj"])) (Some Examples.homeDirSlash))
           Examples.disk).
Proof.
  split; intros H; apply (H [".agents"]).
  - vm_compute. now left.
  - split; [reflexivity | discriminate].
  - vm_compute. right. right. now left.
  - split; [reflexivity | discriminate].
Qed.

(** C5, amended: when the home directory is given in normal form and the
    walk starts at the home directory or below it, no marker recorded as
    [current] or as an ancestor lies in a directory strictly above the
    home directory, whatever markers the disk holds there. *)
Theorem C5_no_marker_above_home_from_inside
        (env : Env) (fs : FS) (start : path) (home : HomeDir)
        (Hnormal : normalised home = true)
        (Hinside : is_prefix home start = true) :
  no_marker_above home
    (detectMonorepoChain env (MkDetect (Some start) (Some home)) fs).
Proof.
  intros m Hm [Habove Hne]. apply Hne.
  apply is_prefix_antisym; [exact Habove|].
  apply (walkUp_below fs home Hnormal start Hinside).
  unfold chain_markers, detectMonorepoChain in Hm. simpl in Hm.
  destruct (walkUp fs home start) as [|c rest]; simpl in Hm; [contradiction|].
  exact Hm.
Qed.

Lemma C5_no_marker_above_home_witness :
  normalised Examples.homeDir = true
  /\ is_prefix Examples.home (Examples.home ++ ["proj"]) = true
  /\ pathExists Examples.disk [".agents"] = true
  /\ no_marker_above Examples.home
       (detectMonorepoChain Examples.env
          (MkDetect (Some (Examples.home ++ ["proj"])) (Some Examples.homeDir))
          Examples.disk).
Proof.
  split; [reflexivity|]. split; [reflexivity|]. split; [reflexivity|].
  apply (C5_no_marker_above_home_from_inside Examples.env Examples.disk
           (Examples.home ++ ["proj"]) Examples.homeDir); reflexivity.
Defined.

(** ** Instruction files *)

Lemma readText_exists (fs : FS) (p : path) (c : string) :
  readText_fs p fs = OK c -> pathExists fs p = true.
Proof.
  unfold readText_fs, pathExists.
  destruct (lookup p (Some fs)) as [[]|]; congruence.
Qed.

Lemma mergeMarkdownChain_from_cons (fs : FS) (p : path) (rest : list path)
      (result content : string) :
  readText_fs p fs = OK content ->
  mergeMarkdownChain_from result (p :: rest) fs =
  (if falsy (trim content) then mergeMarkdownChain_from result rest
   else if falsy result then mergeMarkdownChain_from content rest
   else mergeMarkdownChain_from
          (trimEnd result ++ SEPARATOR ++ trimStart content)%string rest) fs.
Proof.
  intros H. simpl. unfold bind, pathExistsM, reads.
  rewrite (readText_exists _ _ _ H). simpl.
  unfold readText, reads_res. now rewrite H.
Qed.

(** ** Mapping builder *)

Lemma filter_instructions_resource
      (fuel : nat) (config : MonorepoConfig) (chain : list path) (cur : path)
      (r : ResourceName) (tgts : list path) (fs fs' : FS) (ms : list Mapping) :
  r <> R_AGENTS_md ->
  resource_mapping fuel config chain cur r tgts fs = Done ms fs' ->
  filter is_instructions_mapping ms = [].
Proof.
  intros Hr H. unfold resource_mapping, bind, ret in H.
  destruct (mergeDirectoryChain _ _ fs) as [[src|] fs1| |]; try discriminate;
    injection H as <- _; [|reflexivity].
  destruct r; [congruence| | |]; reflexivity.
Qed.

(** C4, as the specification words it, fails on each builder.  In the
    global scope the single-root builder maps [AGENTS.md] for codex
    without looking whether the file is there: here the canonical root
    holds [CLAUDE.md] alone.  In the project scope it maps no instruction
    file at all, not even [CLAUDE.md] for claude.  And the chain builder
    resolves one file only: with both files in the root, codex gets no
    mapping although [AGENTS.md] is there. *)
Lemma C4_mappings_not_as_claimed :
  (exists ms,
      getMappings Examples.homeEnv Examples.globalTwo Examples.claudeOnlyDisk
      = Done ms Examples.claudeOnlyDisk
      /\ pathExists Examples.claudeOnlyDisk (Examples.agentsRoot ++ ["AGENTS.md"])
         = false
      /\ In (MkMapping "agents-md" (Examples.agentsRoot ++ ["AGENTS.md"])
                       [Examples.home ++ [".codex"; "AGENTS.md"]] kind_file) ms
      /\ ~ instructions_as_claimed Examples.claudeOnlyDisk Examples.agentsRoot
            (Some [claude; codex])
            (resolveRoots Examples.homeEnv Examples.globalTwo) ms)
  /\
  (exists ms,
      getMappings Examples.homeEnv Examples.projectTwo Examples.claudeOnlyDisk
      = Done ms Examples.claudeOnlyDisk
      /\ filter is_instructions_mapping ms = []
      /\ ~ instructions_as_claimed Examples.claudeOnlyDisk Examples.srvRoot
            (Some [claude; codex])
            (resolveRoots Examples.homeEnv Examples.projectTwo) ms)
  /\
  (exists ms,
      getMonorepoMappings Examples.homeEnv Examples.no_yaml 1 Examples.srvTwo
        Examples.claudeOnlyDisk
      = Done ms Examples.claudeOnlyDisk
      /\ pathExists Examples.claudeOnlyDisk (Examples.srvRoot ++ ["AGENTS.md"]) = true
      /\ filter is_instructions_mapping ms
         = [MkMapping "claude-md" (Examples.srvRoot ++ ["CLAUDE.md"])
                      [["srv"; ".claude"; "CLAUDE.md"]] kind_file]
      /\ ~ instructions_as_claimed Examples.claudeOnlyDisk Examples.srvRoot
            (Some [claude; codex])
            (resolveMonorepoRoots Examples.homeEnv Examples.srvTwo) ms).
Proof.
  split; [|split]; eexists; (split; [vm_compute; reflexivity|]).
  - split; [reflexivity|]. split; [simpl; auto|].
    intros H. specialize (H eq_refl). discriminate H.
  - split; [reflexivity|].
    intros H. specialize (H eq_refl). discriminate H.
  - split; [reflexivity|]. split; [reflexivity|].
    intros H. specialize (H eq_refl). discriminate H.
Qed.

(** C4, amended: what each builder does when the instruction file it
    resolves is [CLAUDE.md].  The single-root builder maps the
    instruction file in the global scope only; there the mapping of the
    claude client has [CLAUDE.md] as its source, and the clients that
    read [AGENTS.md] (factory, codex, opencode) get one mapping whose
    source is the [AGENTS.md] of the canonical root, whether or not that
    file is there.  The chain builder gives the claude client the
    resolved [CLAUDE.md] and the clients that read [AGENTS.md] no
    instruction-file mapping, whether or not an [AGENTS.md] is there. *)
Theorem C4_claude_override_mappings
        (env : Env) (yaml_load : string -> option MonorepoConfig) :
  (forall opts fs,
      let roots := resolveRoots env opts in
      pathExists fs (join (canonicalRoot roots) "CLAUDE.md") = true ->
      exists ms,
        getMappings env opts fs = Done ms fs
        /\ filter is_instructions_mapping ms
           = match mo_scope opts with
             | scope_project => []
             | scope_global =>
                 (if has (mo_clients opts) claude
                  then [MkMapping "claude-md" (join (canonicalRoot roots) "CLAUDE.md")
                                  [join (claudeRoot roots) "CLAUDE.md"] kind_file]
                  else [])
                 ++ (if is_nil (agentTargets (mo_clients opts) roots) then []
                     else [MkMapping "agents-md" (join (canonicalRoot roots) "AGENTS.md")
                                     (agentTargets (mo_clients opts) roots) kind_file])
             end)
  /\
  (forall fuel opts fs ms fs' first rest config fs0 src fs1,
      let roots := resolveMonorepoRoots env opts in
      let cur := or_else (current (mm_chain opts)) first in
      getEffectiveChain (mm_chain opts) = first :: rest ->
      loadMonorepoConfig yaml_load cur fs = Done config fs0 ->
      mergeAgentsMd (first :: rest) cur (getExtendBehavior config R_AGENTS_md) fs0
      = Done (Some src) fs1 ->
      basename src = "CLAUDE.md" ->
      getMonorepoMappings env yaml_load fuel opts fs = Done ms fs' ->
      filter is_instructions_mapping ms
      = if has (mm_clients opts) claude
        then [MkMapping "claude-md" src [join (claudeRoot roots) "CLAUDE.md"] kind_file]
        else []).
Proof.
  split.
  - intros opts fs roots Hclaude. eexists. split.
    + unfold getMappings, bind, pathExistsM, reads, ret. fold roots.
      rewrite Hclaude. reflexivity.
    + destruct (mo_scope opts); [|reflexivity].
      cbn [andb]. rewrite !filter_app.
      destruct (has (mo_clients opts) claude);
        destruct (is_nil (agentTargets (mo_clients opts) roots)); reflexivity.
  - intros fuel opts fs ms fs' first rest config fs0 src fs1 roots cur
           Hchain Hconfig Hmerge Hbase Hms.
    unfold getMonorepoMappings in Hms. rewrite Hchain in Hms.
    fold cur in Hms. unfold bind in Hms. rewrite Hconfig, Hmerge in Hms.
    destruct (resource_mapping fuel config (first :: rest) cur R_commands _ fs1)
      as [m1 fs2| |] eqn:H1; try discriminate.
    destruct (resource_mapping fuel config (first :: rest) cur R_hooks _ fs2)
      as [m2 fs3| |] eqn:H2; try discriminate.
    destruct (resource_mapping fuel config (first :: rest) cur R_skills _ fs3)
      as [m3 fs4| |] eqn:H3; try discriminate.
    injection Hms as <- _.
    rewrite !filter_app.
    rewrite (filter_instructions_resource _ _ _ _ R_commands _ _ _ _ ltac:(discriminate) H1).
    rewrite (filter_instructions_resource _ _ _ _ R_hooks _ _ _ _ ltac:(discriminate) H2).
    rewrite (filter_instructions_resource _ _ _ _ R_skills _ _ _ _ ltac:(discriminate) H3).
    rewrite !app_nil_r.
    unfold instructions_mappings. rewrite Hbase. fold roots.
    change (String.eqb "CLAUDE.md" "CLAUDE.md") with true. cbn [negb].
    rewrite app_nil_r.
    destruct (has (mm_clients opts) claude); reflexivity.
Qed.

Lemma C4_claude_override_mappings_witness :
  (exists ms,
      getMappings Examples.homeEnv Examples.globalTwo Examples.overrideDisk
      = Done ms Examples.overrideDisk
      /\ filter is_instructions_mapping ms
         = [MkMapping "claude-md" (Examples.agentsRoot ++ ["CLAUDE.md"])
                      [Examples.claudeDir ++ ["CLAUDE.md"]] kind_file;
            MkMapping "agents-md" (Examples.agentsRoot ++ ["AGENTS.md"])
                      [Examples.home ++ [".codex"; "AGENTS.md"]] kind_file])
  /\
  match getMonorepoMappings Examples.pkgEnv Examples.yaml_of_compose 1
          Examples.pkgOptions (Examples.composeDisk "make" "ship" "lint" "compose")
  with
  | Done ms _ =>
      filter is_instructions_mapping ms
      = [MkMapping "claude-md" (Examples.pkgRoot ++ ["CLAUDE.md"])
                   [["w"; "mono"; "pkg"; ".claude"; "CLAUDE.md"]] kind_file]
  | _ => False
  end.
Proof.
  split.
  - apply (proj1 (C4_claude_override_mappings Examples.homeEnv Examples.no_yaml)
             Examples.globalTwo Examples.overrideDisk).
    reflexivity.
  - destruct (getMonorepoMappings Examples.pkgEnv Examples.yaml_of_compose 1
                Examples.pkgOptions (Examples.composeDisk "make" "ship" "lint" "compose"))
      as [ms fs'| |] eqn:Hms; [|vm_compute in Hms; discriminate Hms ..].
    eapply (proj2 (C4_claude_override_mappings Examples.pkgEnv Examples.yaml_of_compose)
              1 Examples.pkgOptions
              (Examples.composeDisk "make" "ship" "lint" "compose")
              ms fs' Examples.pkgRoot [Examples.monoRoot]
              Examples.composeConfig _ (Examples.pkgRoot ++ ["CLAUDE.md"]) _);
      [reflexivity | reflexivity | reflexivity | reflexivity | exact Hms].
Defined.

(** ** Link status *)

Lemma targetStatus_on_disk (fs : FS) (source target : path) :
  targetStatus source target fs = Done (status_on_disk fs source target) fs.
Proof.
  cbv [targetStatus status_on_disk bind pathExistsM reads pathExists ret
       lstat reads_res lstat_fs resolveLinkTarget try_catch readlink
       readlink_fs link_destination isSymbolicLink stat_of negb].
  destruct (lookup target (Some fs)) as [[c|l|es]|] eqn:E;
    repeat (cbv beta iota; try rewrite E); try reflexivity.
  destruct (link_absolute l); cbv beta iota; destruct (path_eqb _ _); reflexivity.
Qed.

Lemma targetStatuses_on_disk (fs : FS) (source : path) (tgts : list path) :
  targetStatuses source tgts fs
  = Done (map (fun t => (t, status_on_disk fs source t)) tgts) fs.
Proof.
  induction tgts as [|t rest IH]; [reflexivity|].
  simpl. unfold bind. rewrite targetStatus_on_disk, IH. reflexivity.
Qed.

Lemma statusesOf_on_disk (fs : FS) (mappings : list Mapping) :
  statusesOf mappings fs
  = Done (map (fun m => MkLinkStatus (name m) (source m)
                          (map (fun t => (t, status_on_disk fs (source m) t))
                               (targets m)))
              mappings) fs.
Proof.
  induction mappings as [|m rest IH]; [reflexivity|].
  simpl. unfold bind. rewrite targetStatuses_on_disk, IH. reflexivity.
Qed.

Lemma status_on_disk_real (fs : FS) (source target : path) :
  real_target fs target -> status_on_disk fs source target = conflict.
Proof.
  intros [n [Hn Hl]]. unfold status_on_disk. rewrite Hn.
  destruct n; [reflexivity | discriminate | reflexivity].
Qed.

Lemma status_on_disk_linked (fs : FS) (source target : path) :
  status_on_disk fs source target = linked -> linked_to fs target source.
Proof.
  unfold status_on_disk, linked_to.
  destruct (lookup target (Some fs)) as [[c|l|es]|]; try discriminate.
  destruct (path_eqb _ _) eqn:E; [|discriminate].
  intros _. exists l. split; [reflexivity | now apply path_eqb_eq].
Qed.

Lemma statusesOf_classified (mappings : list Mapping) (fs : FS) :
  exists statuses,
    statusesOf mappings fs = Done statuses fs
    /\ Forall2 (status_of_mapping fs) mappings statuses.
Proof.
  eexists. split; [apply statusesOf_on_disk|].
  induction mappings as [|m rest IH]; [constructor|].
  cbn [map]. constructor; [|exact IH].
  repeat split; cbn [ls_name ls_source ls_targets].
  - rewrite map_map. cbn [fst]. apply map_id.
  - apply in_map_iff in H as [t' [Ht _]]. injection Ht as -> <-.
    apply status_on_disk_real.
  - apply in_map_iff in H as [t' [Ht _]]. injection Ht as -> <-.
    intros _. apply status_on_disk_linked.
Qed.

Lemma Forall2_In_right {A B} (R : A -> B -> Prop) (l : list A) (l' : list B) :
  Forall2 R l l' -> forall b, In b l' -> exists a, In a l /\ R a b.
Proof.
  induction 1 as [|a b l l' Hab _ IH]; intros b0 Hb; [contradiction|].
  destruct Hb as [<-|Hb].
  - exists a. split; [now left|exact Hab].
  - destruct (IH b0 Hb) as [a0 [Ha0 Hr]]. exists a0. split; [now right|exact Hr].
Qed.

(** C7: [getLinkStatus] and [getMonorepoLinkStatus] return whenever the
    mapping builder does, with one entry for each mapping and, in it, one
    status for each target of the mapping, in order.  A target that
    exists on the disk and is not a symbolic link is recorded as
    [conflict], whatever it holds, and a target is recorded as [linked]
    only when it is a symbolic link whose resolved absolute destination
    is the source of its mapping (for a target that no symbolic link
    leads to).  The disk the targets are read from is the one the mapping
    builder leaves. *)
Theorem C7_real_target_is_conflict
        (env : Env) (yaml_load : string -> option MonorepoConfig) :
  (forall opts fs ms fs',
      getMappings env opts fs = Done ms fs' ->
      exists statuses,
        getLinkStatus env opts fs = Done statuses fs'
        /\ Forall2 (status_of_mapping fs') ms statuses)
  /\
  (forall fuel opts fs ms fs',
      getMonorepoMappings env yaml_load fuel opts fs = Done ms fs' ->
      exists statuses,
        getMonorepoLinkStatus env yaml_load fuel opts fs = Done statuses fs'
        /\ Forall2 (status_of_mapping fs') ms statuses).
Proof.
  split.
  - intros opts fs ms fs' H.
    destruct (statusesOf_classified ms fs') as [statuses [Hs Hall]].
    exists statuses. split; [|exact Hall].
    unfold getLinkStatus, bind. now rewrite H.
  - intros fuel opts fs ms fs' H.
    destruct (statusesOf_classified ms fs') as [statuses [Hs Hall]].
    exists statuses. split; [|exact Hall].
    unfold getMonorepoLinkStatus, bind. now rewrite H.
Qed.

Lemma C7_real_target_is_conflict_witness :
  real_target Examples.copiedDisk (Examples.claudeDir ++ ["commands"])
  /\ exists statuses,
       getLinkStatus Examples.homeEnv Examples.globalClaude Examples.copiedDisk
       = Done statuses Examples.copiedDisk
       /\ map (fun s => map fst (ls_targets s)) statuses
          = [[Examples.claudeDir ++ ["CLAUDE.md"]];
             [Examples.claudeDir ++ ["commands"]];
             [Examples.claudeDir ++ ["hooks"]];
             [Examples.claudeDir ++ ["skills"]]]
       /\ forall s st, In s statuses ->
            In (Examples.claudeDir ++ ["commands"], st) (ls_targets s) ->
            st = conflict.
Proof.
  assert (real_target Examples.copiedDisk (Examples.claudeDir ++ ["commands"]))
    as Hreal.
  { eexists. split; reflexivity. }
  split; [exact Hreal|].
  destruct (proj1 (C7_real_target_is_conflict Examples.homeEnv Examples.no_yaml)
              Examples.globalClaude Examples.copiedDisk _ Examples.copiedDisk eq_refl)
    as [statuses [Hrun Hall]].
  exists statuses. split; [exact Hrun|]. split.
  - vm_compute in Hrun. injection Hrun as <-. reflexivity.
  - intros s st Hs Ht.
    destruct (Forall2_In_right _ _ _ Hall s Hs) as [m [_ [_ [_ [_ Hst]]]]].
    exact (proj1 (Hst _ _ Ht) Hreal).
Defined.

(** ** Repair *)

Lemma ensureSymlink_linked (fs : FS) (source target : path) (kind : SourceKind) :
  linked_to fs target source ->
  ensureSymlink source target kind fs = Done r_skipped fs.
Proof.
  intros [l [Hl Heq]].
  cbv [ensureSymlink try_catch bind pathExistsM reads ret negb].
  destruct (pathExists fs source); [|reflexivity].
  cbv [pathExists lstat reads_res lstat_fs readlink readlink_fs].
  repeat (cbv beta iota; try rewrite Hl; cbv [stat_of isSymbolicLink]).
  unfold link_destination in Heq. rewrite Heq, path_eqb_refl. reflexivity.
Qed.

Lemma repair_targets_linked (fs : FS) (mapping : Mapping) (tgts : list path) :
  (forall t, In t tgts -> linked_to fs t (source mapping)) ->
  forall acc,
    repair_targets mapping tgts acc fs = Done (skip_more (List.length tgts) acc) fs.
Proof.
  induction tgts as [|t rest IH]; intros Hall acc.
  - destruct acc; reflexivity.
  - simpl repair_targets. unfold bind.
    rewrite ensureSymlink_linked by (apply Hall; now left).
    rewrite IH by (intros t' Ht'; apply Hall; now right).
    destruct acc; unfold skip_more, tally; simpl. f_equal. f_equal. lia.
Qed.

Lemma repair_mappings_linked (fs : FS) (mappings : list Mapping) :
  (forall m t, In m mappings -> In t (targets m) -> linked_to fs t (source m)) ->
  forall acc,
    repair_mappings mappings acc fs
    = Done (skip_more (List.length (flat_map targets mappings)) acc) fs.
Proof.
  induction mappings as [|m rest IH]; intros Hall acc.
  - destruct acc; reflexivity.
  - simpl repair_mappings. unfold bind.
    rewrite repair_targets_linked by (intros t Ht; apply (Hall m t); [now left|exact Ht]).
    rewrite IH by (intros m' t Hm' Ht; apply (Hall m' t); [now right|exact Ht]).
    simpl flat_map. rewrite length_app.
    destruct acc; unfold skip_more; simpl. f_equal. f_equal. lia.
Qed.

(** C6: when every target of every mapping [repair] works on is already a
    symbolic link resolving to the source of its mapping, [repair] reports
    no target created and none updated, every target skipped and no error,
    and the link loop leaves the disk exactly as the mapping builder left
    it. *)
Theorem C6_repair_idempotent_on_linked_targets
        (env : Env) (yaml_load : string -> option MonorepoConfig)
        (fuel : nat) (fs fs' : FS)
        (scope : RepairScope) (chain : option InheritanceChain)
        (mappings : list Mapping)
        (Hscope : detectScope env fs = Done (Some (scope, chain)) fs)
        (Hmappings :
           repair_mappings_for env yaml_load fuel scope chain (clients_on env fs) fs
           = Done mappings fs')
        (Hlinked : forall m t, In m mappings -> In t (targets m) ->
                               linked_to fs' t (source m)) :
  repair env yaml_load fuel fs
  = Done (MkRepair scope 0 0 (List.length (flat_map targets mappings)) []) fs'.
Proof.
  unfold repair, bind. rewrite Hscope. unfold getClients, reads.
  rewrite Hmappings.
  rewrite (repair_mappings_linked _ _ Hlinked).
  unfold skip_more. simpl. now rewrite Nat.add_0_r.
Qed.

Lemma C6_repair_idempotent_witness :
  repair Examples.homeEnv Examples.no_yaml 0 Examples.linkedDisk
  = Done (MkRepair rs_global 0 0 4 []) Examples.linkedDisk.
Proof.
  apply (C6_repair_idempotent_on_linked_targets
           Examples.homeEnv Examples.no_yaml 0
           Examples.linkedDisk Examples.linkedDisk rs_global None
           [MkMapping "claude-md" (Examples.agentsRoot ++ ["AGENTS.md"])
                      [Examples.claudeDir ++ ["CLAUDE.md"]] kind_file;
            MkMapping "commands" (Examples.agentsRoot ++ ["commands"])
                      [Examples.claudeDir ++ ["commands"]] kind_dir;
            MkMapping "hooks" (Examples.agentsRoot ++ ["hooks"])
                      [Examples.claudeDir ++ ["hooks"]] kind_dir;
            MkMapping "skills" (Examples.agentsRoot ++ ["skills"])
                      [Examples.claudeDir ++ ["skills"]] kind_dir]).
  - reflexivity.
  - reflexivity.
  - intros m t Hm Ht. simpl in Hm.
    destruct Hm as [<-|[<-|[<-|[<-|[]]]]]; simpl in Ht;
      destruct Ht as [<-|[]]; eexists; split; reflexivity.
Defined.

(** ** Watch daemon *)

Import Watch.

Lemma change_when_idle (l : Loop) (t : nat) (p : path) (f : option string) :
  timers l = [] -> debounce_timer l = None -> aborted (state l) = false ->
  deliver (FsChange p f) (advance t l)
  = MkLoop (Nat.max (now l) t)
           [MkTimer (next_id l) (Nat.max (now l) t + DEBOUNCE_DELAY) (MkCallback p f)]
           (S (next_id l)) (Some (next_id l)) (state l) (in_flight l) (rebuilds l).
Proof.
  destruct l as [n ts nid dt st fl rb]. simpl. intros -> -> Hab.
  unfold advance, deliver. simpl. rewrite Hab. reflexivity.
Qed.

Lemma change_while_pending (l : Loop) (id due0 : nat) (cb : Callback)
      (t : nat) (p : path) (f : option string) :
  timers l = [MkTimer id due0 cb] -> debounce_timer l = Some id ->
  aborted (state l) = false -> t < due0 ->
  deliver (FsChange p f) (advance t l)
  = MkLoop (Nat.max (now l) t)
           [MkTimer (next_id l) (Nat.max (now l) t + DEBOUNCE_DELAY) (MkCallback p f)]
           (S (next_id l)) (Some (next_id l)) (state l) (in_flight l) (rebuilds l).
Proof.
  destruct l as [n ts nid dt st fl rb]. simpl. intros -> -> Hab Hlt.
  unfold advance, deliver. simpl.
  unfold next_due. simpl.
  assert (Nat.leb due0 t = false) as -> by now apply Nat.leb_gt.
  simpl. rewrite Hab.
  unfold debounce. simpl. unfold clearTimeout. simpl. rewrite Nat.eqb_refl. simpl.
  reflexivity.
Qed.

Lemma drain_pending (l : Loop) (id due0 : nat) (p : path) (filename : string) :
  timers l = [MkTimer id due0 (MkCallback p (Some filename))] ->
  state l = MkWatchState false false false ->
  shouldWatch filename = true ->
  drain l
  = MkLoop (Nat.max (now l) due0) [] (next_id l) (debounce_timer l)
           (MkWatchState true false false)
           (in_flight l ++ [(S (rebuilds l), in_try)]) (S (rebuilds l)).
Proof.
  destruct l as [n ts nid dt st fl rb]. simpl. intros -> -> Hw.
  unfold drain, advance. simpl. unfold next_due. simpl.
  rewrite Nat.leb_refl. simpl.
  unfold handleChange. simpl. rewrite Hw. simpl.
  unfold clearTimeout. simpl. rewrite Nat.eqb_refl. simpl. reflexivity.
Qed.

(** C8: three changes of a watched file, each arriving before the debounce
    delay of the one before has run out, start exactly one rebuild cycle.
    Every new change cancels the pending timer; the only timer that fires
    is the last one, one delay after the third change; its handler starts
    the single rebuild, and when that rebuild ends the daemon is idle with
    nothing queued. *)
Theorem C8_three_rapid_changes_one_rebuild
        (t1 t2 t3 : nat) (agentsPath : path) (filename : string)
        (Hwatched : shouldWatch filename = true)
        (H12 : t1 <= t2) (H23 : t2 <= t3)
        (Hrapid12 : t2 < t1 + DEBOUNCE_DELAY)
        (Hrapid23 : t3 < t2 + DEBOUNCE_DELAY) :
  let change := FsChange agentsPath (Some filename) in
  let fired := drain (run [(t1, change); (t2, change); (t3, change)] initial) in
  rebuilds fired = 1
  /\ in_flight fired = [(1, in_try)]
  /\ timers fired = []
  /\ now fired = t3 + DEBOUNCE_DELAY
  /\ forall t4, t3 + DEBOUNCE_DELAY <= t4 ->
       let settled := run [(t4, Settles 1)] fired in
       rebuilds settled = 1
       /\ in_flight settled = []
       /\ timers settled = []
       /\ state settled = MkWatchState false false false.
Proof.
  intros change fired. subst fired change. cbn [run].
  rewrite (change_when_idle initial t1) by reflexivity.
  erewrite (change_while_pending _ _ _ _ t2); [|reflexivity|reflexivity|reflexivity|].
  2:{ cbn [now initial]. rewrite Nat.max_0_l. exact Hrapid12. }
  erewrite (change_while_pending _ _ _ _ t3); [|reflexivity|reflexivity|reflexivity|].
  2:{ cbn [now initial]. rewrite Nat.max_0_l, (Nat.max_r _ _ H12). exact Hrapid23. }
  erewrite drain_pending; [|reflexivity|reflexivity|exact Hwatched].
  cbn [now initial rebuilds in_flight timers next_id debounce_timer app].
  rewrite Nat.max_0_l, (Nat.max_r _ _ H12), (Nat.max_r _ _ H23).
  assert (Nat.max t3 (t3 + DEBOUNCE_DELAY) = t3 + DEBOUNCE_DELAY) as ->
      by (apply Nat.max_r; lia).
  split; [reflexivity|]. split; [reflexivity|]. split; [reflexivity|].
  split; [reflexivity|]. intros t4 Ht4.
  cbn [run]. unfold advance.
  cbn [timers List.length fire_due now next_id debounce_timer state in_flight rebuilds].
  unfold deliver, settle.
  cbn [in_flight find fst Nat.eqb filter negb state now timers next_id
       debounce_timer rebuilds pendingRebuild aborted andb set_state].
  split; [reflexivity|]. split; [reflexivity|]. split; reflexivity.
Qed.

Lemma C8_three_rapid_changes_one_rebuild_witness :
  rebuilds
    (drain (run [(0, FsChange ["w"; ".agents"] (Some "AGENTS.md"));
                 (40, FsChange ["w"; ".agents"] (Some "AGENTS.md"));
                 (90, FsChange ["w"; ".agents"] (Some "AGENTS.md"))] initial))
  = 1.
Proof.
  assert (0 <= 40) as H12 by lia.
  assert (40 <= 90) as H23 by lia.
  assert (40 < 0 + DEBOUNCE_DELAY) as Hr12 by (unfold DEBOUNCE_DELAY; lia).
  assert (90 < 40 + DEBOUNCE_DELAY) as Hr23 by (unfold DEBOUNCE_DELAY; lia).
  exact (proj1 (C8_three_rapid_changes_one_rebuild 0 40 90 ["w"; ".agents"]
                  "AGENTS.md" eq_refl H12 H23 Hr12 Hr23)).
Defined.

(** ** File-system algebra *)

Lemma assoc_set_entry_same (s : string) (v : node) (es : list (string * node)) :
  assoc s (set_entry s v es) = Some v.
Proof.
  induction es as [|[k w] es IH]; simpl.
  - now rewrite String.eqb_refl.
  - destruct (String.eqb s k) eqn:E; simpl; rewrite E; [reflexivity | exact IH].
Qed.

Lemma assoc_set_entry_other (s t : string) (v : node) (es : list (string * node)) :
  s <> t -> assoc t (set_entry s v es) = assoc t es.
Proof.
  intros Hne. induction es as [|[k w] es IH]; simpl.
  - apply String.eqb_neq in Hne. rewrite String.eqb_sym. now rewrite Hne.
  - destruct (String.eqb s k) eqn:E; simpl.
    + apply String.eqb_eq in E. subst k.
      assert (String.eqb t s = false) as -> by (apply String.eqb_neq; congruence).
      reflexivity.
    + now rewrite IH.
Qed.

Lemma assoc_remove_entry_same (s : string) (es : list (string * node)) :
  assoc s (remove_entry s es) = None.
Proof.
  induction es as [|[k w] es IH]; simpl; [reflexivity|].
  destruct (String.eqb s k) eqn:E; simpl; [exact IH | now rewrite E].
Qed.

Lemma assoc_remove_entry_other (s t : string) (es : list (string * node)) :
  s <> t -> assoc t (remove_entry s es) = assoc t es.
Proof.
  intros Hne. induction es as [|[k w] es IH]; simpl; [reflexivity|].
  destruct (String.eqb s k) eqn:E; simpl.
  - apply String.eqb_eq in E. subst k.
    assert (String.eqb t s = false) as -> by (apply String.eqb_neq; congruence).
    exact IH.
  - now rewrite IH.
Qed.

Lemma assoc_put_same (s : string) (c : option node) (es : list (string * node)) :
  assoc s (put s c es) = c.
Proof.
  destruct c; simpl; [apply assoc_set_entry_same | apply assoc_remove_entry_same].
Qed.

Lemma assoc_put_other (s t : string) (c : option node) (es : list (string * node)) :
  s <> t -> assoc t (put s c es) = assoc t es.
Proof.
  destruct c; simpl; [apply assoc_set_entry_other | apply assoc_remove_entry_other].
Qed.

Lemma set_entry_twice (s : string) (v w : node) (es : list (string * node)) :
  set_entry s w (set_entry s v es) = set_entry s w es.
Proof.
  induction es as [|[k u] es IH]; simpl.
  - now rewrite String.eqb_refl.
  - destruct (String.eqb s k) eqn:E; simpl; rewrite E; [reflexivity | now rewrite IH].
Qed.

Lemma remove_set_entry (s : string) (v : node) (es : list (string * node)) :
  remove_entry s (set_entry s v es) = remove_entry s es.
Proof.
  induction es as [|[k u] es IH]; simpl.
  - now rewrite String.eqb_refl.
  - destruct (String.eqb s k) eqn:E; simpl; rewrite E; [reflexivity | now rewrite IH].
Qed.

Lemma put_put (s : string) (v : node) (c : option node) (es : list (string * node)) :
  put s c (set_entry s v es) = put s c es.
Proof.
  destruct c; simpl; [apply set_entry_twice | apply remove_set_entry].
Qed.

Lemma assoc_In (s : string) (c : node) (es : list (string * node)) :
  assoc s es = Some c -> In (s, c) es.
Proof.
  induction es as [|[k w] es IH]; simpl; [discriminate|].
  destruct (String.eqb s k) eqn:E.
  - apply String.eqb_eq in E. intros H. injection H as ->. subst. now left.
  - intros H. right. now apply IH.
Qed.

Lemma In_assoc (s : string) (c : node) (es : list (string * node)) :
  distinct (map fst es) = true -> In (s, c) es -> assoc s es = Some c.
Proof.
  induction es as [|[k w] es IH]; simpl; [contradiction|].
  intros Hd [Heq|Hin].
  - injection Heq as -> ->. now rewrite String.eqb_refl.
  - apply andb_true_iff in Hd as [Hk Hd].
    destruct (String.eqb s k) eqn:E; [|now apply IH].
    apply String.eqb_eq in E. subst k. exfalso.
    apply negb_true_iff in Hk.
    assert (existsb (String.eqb s) (map fst es) = true) as Hex.
    { apply existsb_exists. exists s. split; [|apply String.eqb_refl].
      apply in_map_iff. now exists (s, c). }
    congruence.
Qed.

Lemma lookup_None (p : path) : lookup p None = None.
Proof. destruct p; reflexivity. Qed.

Lemma lookup_app (p q : path) (n : option node) :
  lookup (p ++ q) n = lookup q (lookup p n).
Proof.
  revert n. induction p as [|s p IH]; intros n; [reflexivity|].
  simpl. destruct n as [[c|l|es]|]; try (now rewrite lookup_None).
  apply IH.
Qed.

Lemma alter_app (mk : bool) (f : option node -> res (option node))
      (p q : path) (n : option node) :
  alter mk f (p ++ q) n = alter mk (alter mk f q) p n.
Proof.
  revert n. induction p as [|s p IH]; intros n; [reflexivity|].
  simpl. destruct n as [[c|l|es]|]; try reflexivity.
  - now rewrite IH.
  - destruct mk; [|reflexivity]. now rewrite IH.
Qed.

Lemma alter_keeps (mk : bool) (f : option node -> res (option node)) (p : path) :
  keeps f -> keeps (alter mk f p).
Proof.
  intros Hf. destruct p as [|s p]; [exact Hf|].
  intros n x H. simpl in H.
  destruct n as [[c|l|es]|]; try discriminate.
  - destruct (alter mk f p (assoc s es)); [|discriminate]. injection H as <-. discriminate.
  - destruct mk; [|discriminate].
    destruct (alter true f p None); [|discriminate]. injection H as <-. discriminate.
Qed.

Lemma alter_mk (mk mk' : bool) (f : option node -> res (option node))
      (p : path) (n : option node) (x : node) :
  lookup p n = Some x -> alter mk f p n = alter mk' f p n.
Proof.
  revert n. induction p as [|s p IH]; intros n H; [reflexivity|].
  simpl in *. destruct n as [[c|l|es]|]; try discriminate.
  now rewrite (IH _ H).
Qed.

Lemma alter_result_some (mk : bool) (f : option node -> res (option node))
      (p : path) (n c : option node) :
  (forall x, f (lookup p n) = OK x -> x <> None) ->
  alter mk f p n = OK c -> c <> None.
Proof.
  intros Hf H. destruct p as [|s p].
  - exact (Hf _ H).
  - simpl in H. destruct n as [[x|l|es]|]; try discriminate.
    + destruct (alter mk f p (assoc s es)); [|discriminate]. injection H as <-. discriminate.
    + destruct mk; [|discriminate].
      destruct (alter true f p None); [|discriminate]. injection H as <-. discriminate.
Qed.

Lemma alter_bind (mk : bool) (f g : option node -> res (option node))
      (p : path) (n : option node) :
  (forall x, f (lookup p n) = OK x -> x <> None) ->
  alter mk (fun x => res_bind (f x) g) p n = res_bind (alter mk f p n) (alter mk g p).
Proof.
  revert n. induction p as [|s p IH]; intros n Hf; [reflexivity|].
  simpl. destruct n as [[c|l|es]|]; try reflexivity.
  - simpl in Hf. rewrite (IH _ Hf).
    destruct (alter mk f p (assoc s es)) as [c|e] eqn:E; [|reflexivity].
    simpl. rewrite assoc_put_same.
    destruct c as [v|]; [|exfalso; eapply (alter_result_some mk f p _ _ Hf); eauto].
    destruct (alter mk g p (Some v)); [|reflexivity]. simpl. now rewrite put_put.
  - destruct mk; [|reflexivity].
    simpl in Hf.
    assert (forall x, f (lookup p None) = OK x -> x <> None) as Hf'
        by (rewrite lookup_None; exact Hf).
    rewrite (IH _ Hf').
    destruct (alter true f p None) as [c|e] eqn:E; [|reflexivity].
    simpl. rewrite assoc_put_same.
    destruct c as [v|]; [|exfalso; eapply (alter_result_some true f p _ _ Hf'); eauto].
    destruct (alter true g p (Some v)); [|reflexivity]. simpl.
    change [(s, v)] with (set_entry s v []). now rewrite put_put.
Qed.

Lemma lookup_alter (mk : bool) (f : option node -> res (option node))
      (p : path) (n n' : option node) :
  alter mk f p n = OK n' -> f (lookup p n) = OK (lookup p n').
Proof.
  revert n n'. induction p as [|s p IH]; intros n n' H; [exact H|].
  simpl in H. destruct n as [[c|l|es]|]; try discriminate.
  - destruct (alter mk f p (assoc s es)) as [c|] eqn:E; [|discriminate].
    injection H as <-. simpl. rewrite assoc_put_same. now apply IH.
  - destruct mk; [|discriminate].
    destruct (alter true f p None) as [c|] eqn:E; [|discriminate].
    injection H as <-. simpl. rewrite assoc_put_same.
    apply IH in E. now rewrite lookup_None in E.
Qed.

Lemma lookup_alter_apart (mk : bool) (f : option node -> res (option node))
      (p q : path) (n n' : option node) :
  alter mk f p n = OK n' -> apart p q = true -> lookup q n' = lookup q n.
Proof.
  revert q n n'. induction p as [|s p IH]; intros q n n' H Hap.
  - discriminate Hap.
  - destruct q as [|t q]; [discriminate Hap|].
    unfold apart in Hap. simpl in Hap, H.
    destruct (String.eqb s t) eqn:Est.
    + apply String.eqb_eq in Est. subst t. rewrite String.eqb_refl in Hap.
      simpl in Hap. fold (apart p q) in Hap.
      destruct n as [[c|l|es]|]; try discriminate.
      * destruct (alter mk f p (assoc s es)) as [c|] eqn:E; [|discriminate].
        injection H as <-. simpl. rewrite assoc_put_same. eapply IH; eauto.
      * destruct mk; [|discriminate].
        destruct (alter true f p None) as [c|] eqn:E; [|discriminate].
        injection H as <-. simpl. rewrite assoc_put_same.
        rewrite (IH _ _ _ E Hap). apply lookup_None.
    + assert (s <> t) as Hne by now apply String.eqb_neq.
      destruct n as [[c|l|es]|]; try discriminate.
      * destruct (alter mk f p (assoc s es)) as [c|] eqn:E; [|discriminate].
        injection H as <-. simpl. now rewrite assoc_put_other.
      * destruct mk; [|discriminate].
        destruct (alter true f p None) as [c|] eqn:E; [|discriminate].
        injection H as <-. simpl. rewrite assoc_put_other by exact Hne.
        simpl. now rewrite lookup_None.
Qed.

Lemma is_prefix_trans_app (p q r : path) :
  is_prefix (p ++ r) q = true -> is_prefix p q = true.
Proof.
  rewrite !is_prefix_app. intros [x ->]. exists (r ++ x). now rewrite app_assoc.
Qed.

Lemma apart_sym (p q : path) : apart p q = apart q p.
Proof. unfold apart. apply andb_comm. Qed.

Lemma is_prefix_split (p q a b : path) :
  is_prefix (p ++ a) (q ++ b) = true ->
  is_prefix p q = true \/ is_prefix q p = true.
Proof.
  revert q. induction p as [|x p IH]; intros q H; [now left|].
  destruct q as [|y q]; [now right|].
  simpl in *. apply andb_true_iff in H as [Hxy H].
  rewrite Hxy. rewrite String.eqb_sym in Hxy. rewrite Hxy. simpl.
  now apply IH.
Qed.

Lemma apart_app (p q a b : path) :
  apart p q = true -> apart (p ++ a) (q ++ b) = true.
Proof.
  unfold apart. intros H. apply andb_true_iff in H as [H1 H2].
  apply negb_true_iff in H1, H2. apply andb_true_iff. split; apply negb_true_iff.
  - destruct (is_prefix (p ++ a) (q ++ b)) eqn:E; [|reflexivity].
    apply is_prefix_split in E as [E|E]; congruence.
  - destruct (is_prefix (q ++ b) (p ++ a)) eqn:E; [|reflexivity].
    apply is_prefix_split in E as [E|E]; congruence.
Qed.

Lemma set_entry_assoc (s : string) (v : node) (es : list (string * node)) :
  assoc s es = Some v -> set_entry s v es = es.
Proof.
  induction es as [|[k w] es IH]; simpl; [discriminate|].
  destruct (String.eqb s k) eqn:E.
  - intros H. injection H as ->. reflexivity.
  - intros H. now rewrite IH.
Qed.

Lemma remove_entry_absent (s : string) (es : list (string * node)) :
  assoc s es = None -> remove_entry s es = es.
Proof.
  induction es as [|[k w] es IH]; simpl; [reflexivity|].
  destruct (String.eqb s k) eqn:E; [discriminate|].
  intros H. now rewrite IH.
Qed.

Lemma put_assoc (s : string) (es : list (string * node)) :
  put s (assoc s es) es = es.
Proof.
  destruct (assoc s es) eqn:E; simpl;
    [now apply set_entry_assoc | now apply remove_entry_absent].
Qed.

Lemma alter_id (mk : bool) (p : path) (n : option node) (x : node) :
  lookup p n = Some x -> alter mk (fun slot => OK slot) p n = OK n.
Proof.
  revert n. induction p as [|s p IH]; intros n H; [reflexivity|].
  simpl in *. destruct n as [[c|l|es]|]; try discriminate.
  rewrite (IH _ H). simpl. now rewrite put_assoc.
Qed.

(** ** The directory copy is its tree-level overlay *)

Lemma keeps_ensureDir_slot : keeps ensureDir_slot.
Proof. intros [[c|l|es]|] x H; simpl in H; try discriminate; injection H as <-; discriminate. Qed.

Lemma keeps_writeFile_slot (c : string) : keeps (writeFile_slot c).
Proof. intros [[c'|l|es]|] x H; simpl in H; try discriminate; injection H as <-; discriminate. Qed.

Lemma alter_single_some (mk : bool) (f : option node -> res (option node))
      (s : string) (slot x : option node) :
  alter mk f [s] slot = OK x -> x <> None.
Proof.
  simpl. destruct slot as [[c|l|es]|]; try discriminate.
  - destruct (f (assoc s es)); [|discriminate]. intros H. injection H as <-. discriminate.
  - destruct mk; [|discriminate].
    destruct (f None); [|discriminate]. intros H. injection H as <-. discriminate.
Qed.

Lemma overlay_files_some (es : list (string * node)) (slot x : option node) :
  overlay_files es slot = OK x -> slot <> None -> x <> None.
Proof.
  revert slot. induction es as [|[s c] es IH]; intros slot H Hs.
  - simpl in H. now injection H as <-.
  - cbn [overlay_files] in H.
    destruct c as [content|l|sub]; try (now apply (IH slot)).
    destruct (alter false (writeFile_slot content) [s] slot) as [y|] eqn:E;
      [|discriminate].
    cbn [res_bind] in H. apply (IH y H). eapply alter_single_some; eauto.
Qed.

Lemma overlay_dirs_some (rec : node -> option node -> res (option node))
      (es : list (string * node)) (slot x : option node) :
  overlay_dirs rec es slot = OK x -> slot <> None -> x <> None.
Proof.
  revert slot. induction es as [|[s c] es IH]; intros slot H Hs.
  - simpl in H. now injection H as <-.
  - cbn [overlay_dirs] in H. destruct (is_dir c); [|now apply (IH slot)].
    destruct (alter true (rec c) [s] slot) as [y|] eqn:E; [|discriminate].
    cbn [res_bind] in H. apply (IH y H). eapply alter_single_some; eauto.
Qed.

Lemma overlay_unfold (es : list (string * node)) (slot : option node) :
  overlay (Dir es) slot =
  res_bind (ensureDir_slot slot) (fun slot0 =>
  res_bind (overlay_files es slot0) (fun slot1 =>
  overlay_dirs overlay es slot1)).
Proof. reflexivity. Qed.

Lemma keeps_overlay (n : node) : keeps (overlay n).
Proof.
  intros slot x H. destruct n as [c|l|es]; try discriminate.
  rewrite overlay_unfold in H.
  destruct (ensureDir_slot slot) as [s0|] eqn:E0; [|discriminate]. simpl in H.
  destruct (overlay_files es s0) as [s1|] eqn:E1; [|discriminate]. simpl in H.
  eapply overlay_dirs_some; eauto. eapply overlay_files_some; eauto.
  eapply keeps_ensureDir_slot; eauto.
Qed.

Lemma ensureDir_Done (p : path) (fs fs' : FS) :
  alter true ensureDir_slot p (Some fs) = OK (Some fs') ->
  ensureDir p fs = Done tt fs'.
Proof.
  intros H. unfold ensureDir, writes, ensureDir_fs, alterFS. now rewrite H.
Qed.

Lemma copyFile_Done (src dst : path) (fs fs' : FS) (c : string) :
  lookup src (Some fs) = Some (File c) ->
  alter false (writeFile_slot c) dst (Some fs) = OK (Some fs') ->
  copyFile src dst fs = Done tt fs'.
Proof.
  intros Hsrc H.
  unfold copyFile, writes, copyFile_fs, readText_fs, writeText_fs, alterFS.
  rewrite Hsrc. simpl. now rewrite H.
Qed.

Lemma list_entries_Done (keep : node -> bool) (d : path) (fs : FS)
      (es : list (string * node)) :
  lookup d (Some fs) = Some (Dir es) ->
  reads_res (list_entries keep d) fs
  = Done (map (fun e => join d (fst e)) (filter (fun e => keep (snd e)) es)) fs.
Proof.
  intros H. unfold reads_res, list_entries. now rewrite H.
Qed.

Lemma lookup_join (p : path) (s : string) (fs : FS) (es : list (string * node)) :
  lookup p (Some fs) = Some (Dir es) ->
  lookup (join p s) (Some fs) = assoc s es.
Proof. intros H. unfold join. rewrite lookup_app, H. reflexivity. Qed.

Lemma alter_some (mk : bool) (f : option node -> res (option node))
      (p : path) (n : option node) (x : node) (y : option node) :
  alter mk f p n = OK y -> lookup p n = Some x ->
  (forall z, f (Some x) = OK z -> z <> None) ->
  exists fs', y = Some fs' /\ lookup p (Some fs') <> None.
Proof.
  intros H Hx Hf.
  assert (y <> None) as Hy.
  { eapply alter_result_some; eauto. rewrite Hx. exact Hf. }
  destruct y as [fs'|]; [|congruence]. exists fs'. split; [reflexivity|].
  apply lookup_alter in H. rewrite Hx in H. apply Hf in H. exact H.
Qed.

Section CopyRefines.

Variables (src dst : path) (es : list (string * node)).
Hypothesis Hapart : apart src dst = true.

Lemma copy_files_refines (es' : list (string * node)) :
  forall fs fs' x,
    (forall s c, In (s, c) es' -> assoc s es = Some c) ->
    lookup src (Some fs) = Some (Dir es) ->
    lookup dst (Some fs) = Some x ->
    alter true (overlay_files es') dst (Some fs) = OK (Some fs') ->
    for_each (map (fun e => join src (fst e))
                  (filter (fun e => is_file (snd e)) es'))
             (fun file => copyFile file (join dst (basename file))) fs
    = Done tt fs'.
Proof.
  induction es' as [|[s c] es' IH]; intros fs fs' x Hin Hsrc Hdst H.
  - change (overlay_files []) with (fun slot : option node => OK slot) in H.
    rewrite (alter_id _ _ _ _ Hdst) in H. now injection H as <-.
  - assert (forall s0 c0, In (s0, c0) es' -> assoc s0 es = Some c0) as Hin'
        by (intros s0 c0 H0; apply Hin; now right).
    destruct c as [content|l|sub]; try (exact (IH fs fs' x Hin' Hsrc Hdst H)).
    change (overlay_files ((s, File content) :: es'))
      with (fun slot => res_bind (alter false (writeFile_slot content) [s] slot)
                                 (overlay_files es')) in H.
    rewrite alter_bind in H by (intros z Hz; eapply alter_single_some; eauto).
    destruct (alter true (alter false (writeFile_slot content) [s]) dst (Some fs))
      as [y|] eqn:E; [|discriminate].
    cbn [res_bind] in H.
    destruct (alter_some _ _ _ _ _ _ E Hdst) as [fs1 [-> Hdst1]].
    { intros z Hz. eapply alter_single_some; eauto. }
    rewrite (alter_mk true false _ _ _ _ Hdst), <- alter_app in E.
    cbn [filter snd is_file map fst for_each]. unfold bind.
    rewrite basename_join.
    rewrite (copyFile_Done (join src s) (join dst s) fs fs1 content).
    + destruct (lookup dst (Some fs1)) as [x1|] eqn:Ex1; [|congruence].
      apply (IH fs1 fs' x1 Hin'); [|exact Ex1|exact H].
      rewrite (lookup_alter_apart _ _ _ src _ _ E); [exact Hsrc|].
      rewrite apart_sym. rewrite <- (app_nil_r src). now apply apart_app.
    + rewrite (lookup_join _ _ _ _ Hsrc). apply Hin. now left.
    + exact E.
Qed.

Variable fuel : nat.
Hypothesis IHfuel :
  forall src' dst' fs n fs',
    lookup src' (Some fs) = Some n -> well_formed n = true -> height n < fuel ->
    apart src' dst' = true ->
    alter true (overlay n) dst' (Some fs) = OK (Some fs') ->
    copyDirectoryContents fuel src' dst' fs = Done tt fs'.

Lemma copy_dirs_refines (es' : list (string * node)) :
  forall fs fs' x,
    (forall s c, In (s, c) es' ->
                 assoc s es = Some c /\ well_formed c = true /\ height c < fuel) ->
    lookup src (Some fs) = Some (Dir es) ->
    lookup dst (Some fs) = Some x ->
    alter true (overlay_dirs overlay es') dst (Some fs) = OK (Some fs') ->
    for_each (map (fun e => join src (fst e))
                  (filter (fun e => is_dir (snd e)) es'))
             (fun dir => copyDirectoryContents fuel dir (join dst (basename dir))) fs
    = Done tt fs'.
Proof.
  induction es' as [|[s c] es' IH]; intros fs fs' x Hin Hsrc Hdst H.
  - change (overlay_dirs overlay []) with (fun slot : option node => OK slot) in H.
    rewrite (alter_id _ _ _ _ Hdst) in H. now injection H as <-.
  - assert (forall s0 c0, In (s0, c0) es' ->
              assoc s0 es = Some c0 /\ well_formed c0 = true /\ height c0 < fuel)
      as Hin' by (intros s0 c0 H0; apply Hin; now right).
    destruct (is_dir c) eqn:Hc.
    2:{ cbn [filter snd]. rewrite Hc. apply (IH fs fs' x Hin' Hsrc Hdst).
        cbn [overlay_dirs] in H. rewrite Hc in H. exact H. }
    assert (overlay_dirs overlay ((s, c) :: es')
            = fun slot => res_bind (alter true (overlay c) [s] slot)
                                   (overlay_dirs overlay es')) as Heq
        by (cbn [overlay_dirs]; now rewrite Hc).
    rewrite Heq in H. clear Heq.
    rewrite alter_bind in H by (intros z Hz; eapply alter_single_some; eauto).
    destruct (alter true (alter true (overlay c) [s]) dst (Some fs))
      as [y|] eqn:E; [|discriminate].
    cbn [res_bind] in H.
    destruct (alter_some _ _ _ _ _ _ E Hdst) as [fs1 [-> Hdst1]].
    { intros z Hz. eapply alter_single_some; eauto. }
    rewrite <- alter_app in E.
    cbn [filter snd]. rewrite Hc. cbn [map fst for_each]. unfold bind.
    rewrite basename_join.
    destruct (Hin s c (or_introl eq_refl)) as [Hs [Hwf Hh]].
    rewrite (IHfuel (join src s) (join dst s) fs c fs1).
    + destruct (lookup dst (Some fs1)) as [x1|] eqn:Ex1; [|congruence].
      apply (IH fs1 fs' x1 Hin'); [|exact Ex1|exact H].
      rewrite (lookup_alter_apart _ _ _ src _ _ E); [exact Hsrc|].
      rewrite apart_sym. rewrite <- (app_nil_r src). now apply apart_app.
    + now rewrite (lookup_join _ _ _ _ Hsrc).
    + exact Hwf.
    + exact Hh.
    + now apply apart_app.
    + exact E.
Qed.

End CopyRefines.

Lemma height_child (s : string) (c : node) (es : list (string * node)) :
  In (s, c) es -> height c < height (Dir es).
Proof.
  intros Hin. cbn [height]. apply Nat.lt_succ_r.
  induction es as [|[k w] es IH]; [contradiction|].
  cbn [map list_max fold_right snd]. destruct Hin as [Heq|Hin].
  - injection Heq as -> ->. apply Nat.le_max_l.
  - etransitivity; [now apply IH | apply Nat.le_max_r].
Qed.

Lemma well_formed_child (s : string) (c : node) (es : list (string * node)) :
  well_formed (Dir es) = true -> In (s, c) es -> well_formed c = true.
Proof.
  cbn [well_formed]. intros H Hin. apply andb_true_iff in H as [_ H].
  rewrite forallb_forall in H. exact (H (s, c) Hin).
Qed.

Lemma well_formed_distinct (es : list (string * node)) :
  well_formed (Dir es) = true -> distinct (map fst es) = true.
Proof. cbn [well_formed]. intros H. now apply andb_true_iff in H as [H _]. Qed.

Lemma copy_refines (fuel : nat) :
  forall src dst fs n fs',
    lookup src (Some fs) = Some n -> well_formed n = true -> height n < fuel ->
    apart src dst = true ->
    alter true (overlay n) dst (Some fs) = OK (Some fs') ->
    copyDirectoryContents fuel src dst fs = Done tt fs'.
Proof.
  induction fuel as [|fuel IH]; intros src dst fs n fs' Hsrc Hwf Hh Hap H; [lia|].
  destruct n as [c|l|es];
    try (apply lookup_alter in H; discriminate H).
  change (overlay (Dir es))
    with (fun slot => res_bind (ensureDir_slot slot)
            (fun slot0 => res_bind (overlay_files es slot0)
               (overlay_dirs overlay es))) in H.
  rewrite alter_bind in H by (intros z Hz; eapply keeps_ensureDir_slot; eauto).
  destruct (alter true ensureDir_slot dst (Some fs)) as [y0|] eqn:E0; [|discriminate].
  cbn [res_bind] in H.
  assert (exists fs0 es0, y0 = Some fs0 /\ lookup dst (Some fs0) = Some (Dir es0))
    as [fs0 [es0 [-> Hdst0]]].
  { pose proof (lookup_alter _ _ _ _ _ E0) as Hl.
    destruct y0 as [fs0|].
    - exists fs0. destruct (lookup dst (Some fs)) as [[c|l|ds]|]; simpl in Hl;
        try discriminate; injection Hl as Hl; eauto.
    - exfalso. eapply (alter_result_some true ensureDir_slot dst); eauto.
      intros z Hz. eapply keeps_ensureDir_slot; eauto. }
  assert (lookup src (Some fs0) = Some (Dir es)) as Hsrc0.
  { rewrite (lookup_alter_apart _ _ _ src _ _ E0); [exact Hsrc|]. now rewrite apart_sym. }
  rewrite alter_bind in H.
  2:{ intros z Hz. rewrite Hdst0 in Hz. eapply overlay_files_some; eauto. discriminate. }
  destruct (alter true (overlay_files es) dst (Some fs0)) as [y1|] eqn:E1; [|discriminate].
  cbn [res_bind] in H.
  destruct (alter_some _ _ _ _ _ _ E1 Hdst0) as [fs1 [-> Hdst1]].
  { intros z Hz. eapply overlay_files_some; eauto. discriminate. }
  assert (lookup src (Some fs1) = Some (Dir es)) as Hsrc1.
  { rewrite (lookup_alter_apart _ _ _ src _ _ E1); [exact Hsrc0|]. now rewrite apart_sym. }
  cbn [copyDirectoryContents]. unfold bind.
  rewrite (ensureDir_Done _ _ _ E0).
  unfold listFiles, listFiles_fs. rewrite (list_entries_Done _ _ _ _ Hsrc0).
  rewrite (copy_files_refines src dst es Hap es fs0 fs1 (Dir es0)); try assumption.
  2:{ intros s c Hin. apply In_assoc; [now apply well_formed_distinct | exact Hin]. }
  unfold listDirs, listDirs_fs. rewrite (list_entries_Done _ _ _ _ Hsrc1).
  destruct (lookup dst (Some fs1)) as [x1|] eqn:Ex1; [|congruence].
  apply (copy_dirs_refines src dst es Hap fuel IH es fs1 fs' x1); try assumption.
  intros s c Hin. split; [|split].
  - apply In_assoc; [now apply well_formed_distinct | exact Hin].
  - eapply well_formed_child; eauto.
  - pose proof (height_child _ _ _ Hin). lia.
Qed.

(** ** The overlay, entry by entry *)

Lemma assoc_absent (k : string) (es : list (string * node)) :
  existsb (String.eqb k) (map fst es) = false -> assoc k es = None.
Proof.
  induction es as [|[s c] es IH]; simpl; [reflexivity|].
  intros H. apply orb_false_iff in H as [H1 H2]. rewrite H1. now apply IH.
Qed.

Lemma alter_single (mk : bool) (f : option node -> res (option node))
      (s : string) (ds : list (string * node)) :
  alter mk f [s] (Some (Dir ds))
  = res_bind (f (assoc s ds)) (fun c => OK (Some (Dir (put s c ds)))).
Proof. reflexivity. Qed.

Lemma overlay_files_assoc (es : list (string * node)) :
  forall ds x,
    distinct (map fst es) = true ->
    overlay_files es (Some (Dir ds)) = OK x ->
    exists ds', x = Some (Dir ds') /\
      forall s, match assoc s es with
                | Some (File c) =>
                    assoc s ds' = Some (File c)
                    /\ fits_kind (Some (KFile c)) (shape (assoc s ds))
                | _ => assoc s ds' = assoc s ds
                end.
Proof.
  induction es as [|[k c] es IH]; intros ds x Hd H.
  - injection H as <-. exists ds. split; [reflexivity|]. intros s. reflexivity.
  - cbn [map fst distinct] in Hd. apply andb_true_iff in Hd as [Hk Hd].
    apply negb_true_iff in Hk. apply assoc_absent in Hk.
    assert (forall ds0 x0,
               overlay_files es (Some (Dir ds0)) = OK x0 ->
               (forall s, s <> k -> assoc s ds0 = assoc s ds) ->
               match c with File _ => False | _ => assoc k ds0 = assoc k ds end ->
               exists ds', x0 = Some (Dir ds') /\
                 forall s, match assoc s ((k, c) :: es) with
                           | Some (File c0) =>
                               assoc s ds' = Some (File c0)
                               /\ fits_kind (Some (KFile c0)) (shape (assoc s ds))
                           | _ => assoc s ds' = assoc s ds
                           end) as Hskip.
    { intros ds0 x0 H0 Hother Hsame.
      destruct (IH ds0 x0 Hd H0) as [ds' [-> Hds']].
      exists ds'. split; [reflexivity|]. intros s. cbn [assoc].
      destruct (String.eqb s k) eqn:E.
      - apply String.eqb_eq in E. subst s. specialize (Hds' k). rewrite Hk in Hds'.
        destruct c; [contradiction| |]; now rewrite Hds'.
      - apply String.eqb_neq in E. specialize (Hds' s).
        destruct (assoc s es) as [[c0|l0|sub0]|]; rewrite <- (Hother s E); exact Hds'. }
    destruct c as [content|l|sub]; cbn [overlay_files] in H;
      try (apply (Hskip ds x H); [reflexivity | reflexivity]).
    rewrite alter_single in H.
    destruct (writeFile_slot content (assoc k ds)) as [w|] eqn:Ew; [|discriminate].
    cbn [res_bind] in H.
    assert (w = Some (File content)
            /\ fits_kind (Some (KFile content)) (shape (assoc k ds))) as [-> Hfit].
    { destruct (assoc k ds) as [[c0|l0|sub0]|]; simpl in Ew; try discriminate;
        injection Ew as <-; split; simpl; auto. }
    destruct (IH _ x Hd H) as [ds' [-> Hds']].
    exists ds'. split; [reflexivity|]. intros s. cbn [assoc].
    destruct (String.eqb s k) eqn:E.
    + apply String.eqb_eq in E. subst s. specialize (Hds' k). rewrite Hk in Hds'.
      rewrite Hds'. split; [apply assoc_put_same | exact Hfit].
    + apply String.eqb_neq in E. specialize (Hds' s).
      rewrite assoc_put_other in Hds' by congruence. exact Hds'.
Qed.

Lemma overlay_dirs_assoc (es : list (string * node)) :
  forall ds x,
    distinct (map fst es) = true ->
    overlay_dirs overlay es (Some (Dir ds)) = OK x ->
    exists ds', x = Some (Dir ds') /\
      forall s, match assoc s es with
                | Some c =>
                    if is_dir c then overlay c (assoc s ds) = OK (assoc s ds')
                    else assoc s ds' = assoc s ds
                | None => assoc s ds' = assoc s ds
                end.
Proof.
  induction es as [|[k c] es IH]; intros ds x Hd H.
  - injection H as <-. exists ds. split; [reflexivity|]. intros s. reflexivity.
  - cbn [map fst distinct] in Hd. apply andb_true_iff in Hd as [Hk Hd].
    apply negb_true_iff in Hk. apply assoc_absent in Hk.
    cbn [overlay_dirs] in H. destruct (is_dir c) eqn:Hc.
    + rewrite alter_single in H.
      destruct (overlay c (assoc k ds)) as [w|] eqn:Ew; [|discriminate].
      cbn [res_bind] in H.
      destruct (IH _ x Hd H) as [ds' [-> Hds']].
      exists ds'. split; [reflexivity|]. intros s. cbn [assoc].
      destruct (String.eqb s k) eqn:E.
      * apply String.eqb_eq in E. subst s. rewrite Hc.
        specialize (Hds' k). rewrite Hk in Hds'. rewrite Hds'.
        now rewrite assoc_put_same.
      * apply String.eqb_neq in E. specialize (Hds' s).
        rewrite assoc_put_other in Hds' by congruence. exact Hds'.
    + destruct (IH ds x Hd H) as [ds' [-> Hds']].
      exists ds'. split; [reflexivity|]. intros s. cbn [assoc].
      destruct (String.eqb s k) eqn:E.
      * apply String.eqb_eq in E. subst s. rewrite Hc.
        specialize (Hds' k). now rewrite Hk in Hds'.
      * exact (Hds' s).
Qed.

Lemma ensureDir_slot_inv (slot s0 : option node) :
  ensureDir_slot slot = OK s0 ->
  exists ds0, s0 = Some (Dir ds0)
              /\ forall s r, lookup (s :: r) slot = lookup r (assoc s ds0).
Proof.
  destruct slot as [[c|l|ds]|]; simpl; intros H; try discriminate;
    injection H as <-.
  - exists ds. split; reflexivity.
  - exists []. split; [reflexivity|]. intros s r. simpl. now rewrite lookup_None.
Qed.

Lemma visible_below_leaf (n : node) (r : path) :
  is_dir n = false -> r <> [] -> lookup r (Some n) = None.
Proof. destruct n, r; simpl; congruence. Qed.

(** What the overlay of a tree leaves at every path below the
    destination: the visible entry of the tree when there is one, what was
    there before otherwise. *)
Lemma overlay_shape (h : nat) :
  forall n slot x,
    height n <= h -> well_formed n = true -> overlay n slot = OK x ->
    forall r, shape (lookup r x)
              = match visible (lookup r (Some n)) with
                | Some k => Some k
                | None => shape (lookup r slot)
                end.
Proof.
  induction h as [|h IH]; intros n slot x Hh Hwf H r;
    (destruct n as [c|l|es]; [discriminate H | discriminate H |]).
  - cbn [height] in Hh. lia.
  - rewrite overlay_unfold in H.
    destruct (ensureDir_slot slot) as [s0|] eqn:E0; [|discriminate].
    cbn [res_bind] in H.
    destruct (ensureDir_slot_inv _ _ E0) as [ds0 [-> Hslot]].
    destruct (overlay_files es (Some (Dir ds0))) as [s1|] eqn:E1; [|discriminate].
    cbn [res_bind] in H.
    pose proof (well_formed_distinct _ Hwf) as Hd.
    destruct (overlay_files_assoc es ds0 s1 Hd E1) as [ds1 [-> Hfiles]].
    destruct (overlay_dirs_assoc es ds1 x Hd H) as [ds2 [-> Hdirs]].
    destruct r as [|s r]; [reflexivity|].
    rewrite Hslot. cbn [lookup].
    specialize (Hfiles s). specialize (Hdirs s).
    destruct (assoc s es) as [c|] eqn:Es.
    + destruct c as [content|l|sub]; cbn [is_dir] in Hdirs.
      * destruct Hfiles as [Hf1 Hfit]. rewrite Hdirs, Hf1.
        destruct r as [|t r]; [reflexivity|].
        cbn [lookup visible shape].
        destruct (assoc s ds0) as [[c0|l0|sub0]|]; simpl in Hfit; try contradiction;
          reflexivity.
      * rewrite Hdirs, Hfiles. destruct r; reflexivity.
      * rewrite Hfiles in Hdirs.
        apply (IH (Dir sub) (assoc s ds0) (assoc s ds2)); [| |exact Hdirs].
        -- pose proof (height_child s (Dir sub) es (assoc_In _ _ _ Es)) as Hlt.
           apply Nat.lt_succ_r. eapply Nat.lt_le_trans; eauto.
        -- exact (well_formed_child s (Dir sub) es Hwf (assoc_In _ _ _ Es)).
    + rewrite Hdirs, Hfiles. now rewrite lookup_None.
Qed.

Lemma overlay_files_succeeds (es : list (string * node)) :
  forall ds,
    distinct (map fst es) = true ->
    (forall s c, In (s, File c) es ->
                 fits_kind (Some (KFile c)) (shape (assoc s ds))) ->
    exists x, overlay_files es (Some (Dir ds)) = OK x.
Proof.
  induction es as [|[k c] es IH]; intros ds Hd Hfit; [now exists (Some (Dir ds))|].
  cbn [map fst distinct] in Hd. apply andb_true_iff in Hd as [Hk Hd].
  apply negb_true_iff in Hk.
  assert (forall ds1, (forall s, s <> k -> assoc s ds1 = assoc s ds) ->
                      exists x, overlay_files es (Some (Dir ds1)) = OK x) as Hrest.
  { intros ds1 Hsame. apply (IH ds1 Hd). intros s c0 Hin.
    rewrite Hsame; [apply Hfit; now right|].
    intros ->. apply not_true_iff_false in Hk. apply Hk.
    apply existsb_exists. exists k. split; [|apply String.eqb_refl].
    apply in_map_iff. now exists (k, File c0). }
  destruct c as [content|l|sub]; cbn [overlay_files];
    try (apply Hrest; reflexivity).
  rewrite alter_single.
  specialize (Hfit k content (or_introl eq_refl)).
  assert (writeFile_slot content (assoc k ds) = OK (Some (File content))) as ->.
  { destruct (assoc k ds) as [[c0|l0|sub0]|]; simpl in Hfit; try contradiction;
      reflexivity. }
  cbn [res_bind]. apply Hrest. intros s Hs. apply assoc_put_other. congruence.
Qed.

Lemma overlay_dirs_succeeds (es : list (string * node)) :
  forall ds,
    distinct (map fst es) = true ->
    (forall s c, In (s, c) es -> is_dir c = true ->
                 exists x, overlay c (assoc s ds) = OK x) ->
    exists x, overlay_dirs overlay es (Some (Dir ds)) = OK x.
Proof.
  induction es as [|[k c] es IH]; intros ds Hd Hsub; [now exists (Some (Dir ds))|].
  cbn [map fst distinct] in Hd. apply andb_true_iff in Hd as [Hk Hd].
  apply negb_true_iff in Hk.
  assert (forall ds1, (forall s, s <> k -> assoc s ds1 = assoc s ds) ->
                      exists x, overlay_dirs overlay es (Some (Dir ds1)) = OK x)
    as Hrest.
  { intros ds1 Hsame. apply (IH ds1 Hd). intros s c0 Hin Hc0.
    rewrite Hsame; [apply Hsub; [now right | exact Hc0]|].
    intros ->. apply not_true_iff_false in Hk. apply Hk.
    apply existsb_exists. exists k. split; [|apply String.eqb_refl].
    apply in_map_iff. now exists (k, c0). }
  cbn [overlay_dirs]. destruct (is_dir c) eqn:Hc; [|apply Hrest; reflexivity].
  rewrite alter_single.
  destruct (Hsub k c (or_introl eq_refl) Hc) as [w ->].
  cbn [res_bind]. apply Hrest. intros s Hs. apply assoc_put_other. congruence.
Qed.

(** The overlay of a directory tree succeeds on a destination that holds
    no file where the tree has a directory and no directory or link where
    it has a file. *)
Lemma overlay_succeeds (h : nat) :
  forall n slot,
    height n <= h -> well_formed n = true -> is_dir n = true ->
    (forall r, fits_kind (visible (lookup r (Some n))) (shape (lookup r slot))) ->
    exists x, overlay n slot = OK x.
Proof.
  induction h as [|h IH]; intros n slot Hh Hwf Hdir Hfit;
    (destruct n as [c|l|es]; [discriminate Hdir | discriminate Hdir |]).
  - cbn [height] in Hh. lia.
  - rewrite overlay_unfold.
    pose proof (well_formed_distinct _ Hwf) as Hd.
    assert (exists s0, ensureDir_slot slot = OK s0) as [s0 E0].
    { specialize (Hfit []). simpl in Hfit.
      destruct slot as [[c|l|ds]|]; simpl in Hfit; try contradiction; eexists;
        reflexivity. }
    rewrite E0. cbn [res_bind].
    destruct (ensureDir_slot_inv _ _ E0) as [ds0 [-> Hslot]].
    destruct (overlay_files_succeeds es ds0 Hd) as [s1 E1].
    { intros s c Hin. specialize (Hfit [s]). rewrite Hslot in Hfit.
      cbn [lookup] in Hfit. now rewrite (In_assoc _ _ _ Hd Hin) in Hfit. }
    rewrite E1. cbn [res_bind].
    destruct (overlay_files_assoc es ds0 s1 Hd E1) as [ds1 [-> Hfiles]].
    apply (overlay_dirs_succeeds es ds1 Hd).
    intros s c Hin Hc. pose proof (In_assoc _ _ _ Hd Hin) as Es.
    specialize (Hfiles s). rewrite Es in Hfiles.
    assert (assoc s ds1 = assoc s ds0) as -> by (destruct c; [discriminate Hc| |]; exact Hfiles).
    apply IH; [| |exact Hc|].
    + pose proof (height_child s c es Hin) as Hlt.
      apply Nat.lt_succ_r. eapply Nat.lt_le_trans; eauto.
    + eapply well_formed_child; eauto.
    + intros r. specialize (Hfit (s :: r)). rewrite Hslot in Hfit.
      cbn [lookup] in Hfit. now rewrite Es in Hfit.
Qed.

(** ** Several layers *)

Lemma fits_kind_none_r (v : option entry_kind) : fits_kind v None.
Proof. destruct v as [[c| |]|]; exact I. Qed.

Lemma agree_fits (r : path) :
  forall a b, agree a b = true ->
              fits_kind (visible (lookup r (Some a))) (visible (lookup r (Some b))).
Proof.
  induction r as [|s r IH]; intros a b H.
  - destruct a, b; simpl in *; try exact I; discriminate.
  - destruct a as [c|l|es]; try exact I.
    destruct b as [c|l|ds]; try apply fits_kind_none_r.
    cbn [lookup]. cbn [agree] in H. rewrite forallb_forall in H.
    destruct (assoc s es) as [c1|] eqn:E1; [|rewrite lookup_None; exact I].
    specialize (H (s, c1) (assoc_In _ _ _ E1)). cbn [fst snd] in H.
    destruct (assoc s ds) as [c2|] eqn:E2;
      [|rewrite (lookup_None r); apply fits_kind_none_r].
    now apply IH.
Qed.

Lemma first_some_snoc {A} (l : list (option A)) (a : option A) :
  first_some (l ++ [a])
  = match first_some l with Some k => Some k | None => a end.
Proof.
  induction l as [|[x|] l IH]; simpl; [now destruct a | reflexivity | exact IH].
Qed.

Lemma first_some_exists {A} (l : list (option A)) :
  first_some l <> None <-> exists a, In (Some a) l.
Proof.
  induction l as [|[x|] l IH]; simpl.
  - split; [congruence | intros [a []]].
  - split; [intros _; exists x; now left | discriminate].
  - rewrite IH. split; intros [a Ha]; exists a; [now right|].
    destruct Ha as [Ha|Ha]; [discriminate | exact Ha].
Qed.

Lemma overlay_all_spec (layers : list node) :
  forall slot,
    (forall n, In n layers -> is_dir n = true /\ well_formed n = true) ->
    (forall a b, In a layers -> In b layers -> agree a b = true) ->
    (forall n r, In n layers ->
                 fits_kind (visible (lookup r (Some n))) (shape (lookup r slot))) ->
    exists x, overlay_all layers slot = OK x /\
      forall r, shape (lookup r x)
                = match first_some (map (fun n => visible (lookup r (Some n)))
                                        (rev layers)) with
                  | Some k => Some k
                  | None => shape (lookup r slot)
                  end.
Proof.
  induction layers as [|n rest IH]; intros slot Hdir Hagree Hfit.
  - exists slot. split; reflexivity.
  - destruct (Hdir n (or_introl eq_refl)) as [Hn Hwf].
    destruct (overlay_succeeds (height n) n slot (le_n _) Hwf Hn) as [x1 E1].
    { intros r. apply Hfit. now left. }
    pose proof (overlay_shape (height n) n slot x1 (le_n _) Hwf E1) as Hshape.
    destruct (IH x1) as [x [Ex Hx]].
    + intros n' Hn'. apply Hdir. now right.
    + intros a b Ha Hb. apply Hagree; now right.
    + intros n' r Hn'. rewrite Hshape.
      pose proof (agree_fits r n' n (Hagree n' n (or_intror Hn') (or_introl eq_refl)))
        as Hag.
      destruct (visible (lookup r (Some n))) as [k|]; [exact Hag|].
      apply Hfit. now right.
    + exists x. split; [cbn [overlay_all]; rewrite E1; exact Ex|].
      intros r. rewrite Hx, Hshape. cbn [rev]. rewrite map_app. cbn [map].
      rewrite first_some_snoc.
      destruct (first_some (map (fun n0 => visible (lookup r (Some n0))) (rev rest)));
        [reflexivity|].
      destruct (visible (lookup r (Some n))); reflexivity.
Qed.

Lemma copy_all_refines (fuel : nat) (merged : path) (ds : list path)
      (layers : list node) :
  forall fs fs' x,
    Forall2 (fun d n => lookup d (Some fs) = Some n) ds layers ->
    (forall d, In d ds -> apart d merged = true) ->
    (forall n, In n layers -> well_formed n = true /\ height n < fuel) ->
    lookup merged (Some fs) = Some x ->
    alter true (overlay_all layers) merged (Some fs) = OK (Some fs') ->
    for_each ds (fun dir => copyDirectoryContents fuel dir merged) fs = Done tt fs'.
Proof.
  revert layers. induction ds as [|d ds IH]; intros layers fs fs' x Hall Hap Hok Hm H.
  - inversion Hall; subst.
    change (overlay_all []) with (fun slot : option node => OK slot) in H.
    rewrite (alter_id _ _ _ _ Hm) in H. now injection H as <-.
  - inversion Hall as [|d' n ds' rest Hd Hrest]; subst.
    change (overlay_all (n :: rest))
      with (fun slot => res_bind (overlay n slot) (overlay_all rest)) in H.
    rewrite alter_bind in H by (intros z Hz; eapply keeps_overlay; eauto).
    destruct (alter true (overlay n) merged (Some fs)) as [y|] eqn:E; [|discriminate].
    cbn [res_bind] in H.
    destruct (alter_some _ _ _ _ _ _ E Hm) as [fs1 [-> Hm1]].
    { intros z Hz. eapply keeps_overlay; eauto. }
    destruct (Hok n (or_introl eq_refl)) as [Hwf Hh].
    cbn [for_each]. unfold bind.
    rewrite (copy_refines fuel d merged fs n fs1 Hd Hwf Hh
               (Hap d (or_introl eq_refl)) E).
    destruct (lookup merged (Some fs1)) as [x1|] eqn:Ex1; [|congruence].
    apply (IH rest fs1 fs' x1); [| | |exact Ex1|exact H].
    + clear - Hrest Hap E. induction Hrest as [|d0 n0 ds0 rest0 H0 _ IH0];
        constructor.
      * rewrite (lookup_alter_apart _ _ _ d0 _ _ E); [exact H0|].
        rewrite apart_sym. apply Hap. right. now left.
      * apply IH0. intros d1 [<-|Hd1]; apply Hap; [now left|right; now right].
    + intros d0 Hd0. apply Hap. now right.
    + intros n0 Hn0. apply Hok. now right.
Qed.

Lemma existing_filter (candidates : list path) (fs : FS) :
  existing candidates fs = Done (filter (pathExists fs) candidates) fs.
Proof.
  induction candidates as [|c rest IH]; [reflexivity|].
  cbn [existing filter]. unfold bind, pathExistsM, reads, ret. rewrite IH.
  now destruct (pathExists fs c).
Qed.

Lemma alter_at_existing (mk : bool) (g : option node -> res (option node))
      (p : path) (n : option node) (x : node) (y : option node) :
  lookup p n = Some x -> g (Some x) = OK y -> exists n', alter mk g p n = OK n'.
Proof.
  revert n. induction p as [|s p IH]; intros n Hx Hg.
  - simpl in Hx. subst n. now exists y.
  - simpl in Hx. destruct n as [[c|l|es]|]; try discriminate.
    destruct (IH _ Hx Hg) as [n' Hn']. cbn [alter]. rewrite Hn'.
    eexists. reflexivity.
Qed.

Lemma height_lookup (p : path) :
  forall n m, lookup p (Some n) = Some m -> height m <= height n.
Proof.
  induction p as [|s p IH]; intros n m H.
  - injection H as <-. apply le_n.
  - destruct n as [c|l|es]; try discriminate. cbn [lookup] in H.
    destruct (assoc s es) as [c|] eqn:E; [|now rewrite lookup_None in H].
    pose proof (height_child s c es (assoc_In _ _ _ E)) as Hlt.
    specialize (IH c m H). apply Nat.lt_le_incl.
    eapply Nat.le_lt_trans; eauto.
Qed.

Lemma well_formed_lookup (p : path) :
  forall n m, well_formed n = true -> lookup p (Some n) = Some m ->
              well_formed m = true.
Proof.
  induction p as [|s p IH]; intros n m Hwf H.
  - now injection H as <-.
  - destruct n as [c|l|es]; try discriminate. cbn [lookup] in H.
    destruct (assoc s es) as [c|] eqn:E; [|now rewrite lookup_None in H].
    apply (IH c m); [|exact H].
    exact (well_formed_child s c es Hwf (assoc_In _ _ _ E)).
Qed.

Lemma overlay_all_some (layers : list node) :
  forall slot z, overlay_all layers slot = OK z -> slot <> None -> z <> None.
Proof.
  induction layers as [|n rest IH]; intros slot z H Hs.
  - now injection H as <-.
  - cbn [overlay_all] in H.
    destruct (overlay n slot) as [y|] eqn:E; [|discriminate].
    cbn [res_bind] in H. apply (IH y z H). eapply keeps_overlay; eauto.
Qed.

Lemma layers_of (fs : FS) (ds : list path) :
  (forall d, In d ds -> exists es, lookup d (Some fs) = Some (Dir es)) ->
  exists layers,
    Forall2 (fun d n => lookup d (Some fs) = Some n) ds layers
    /\ forall n, In n layers -> is_dir n = true.
Proof.
  induction ds as [|d ds IH]; intros H.
  - exists []. split; [constructor | intros n []].
  - destruct (H d (or_introl eq_refl)) as [es Hes].
    destruct IH as [layers [Hall Hdir]]; [intros d' Hd'; apply H; now right|].
    exists (Dir es :: layers). split; [now constructor|].
    intros n [<-|Hn]; [reflexivity | now apply Hdir].
Qed.

Lemma Forall2_lookup_rev (fs : FS) (ds : list path) (layers : list node) :
  Forall2 (fun d n => lookup d (Some fs) = Some n) ds layers ->
  Forall2 (fun d n => lookup d (Some fs) = Some n) (rev ds) (rev layers).
Proof.
  induction 1 as [|d n ds layers Hd _ IH]; [constructor|].
  cbn [rev]. apply Forall2_app; [exact IH | now repeat constructor].
Qed.

Lemma Forall2_lookup_In (fs : FS) (ds : list path) (layers : list node) :
  Forall2 (fun d n => lookup d (Some fs) = Some n) ds layers ->
  forall n, In n layers -> exists d, In d ds /\ lookup d (Some fs) = Some n.
Proof.
  induction 1 as [|d n ds layers Hd _ IH]; intros m Hm; [contradiction|].
  destruct Hm as [<-|Hm].
  - exists d. split; [now left | exact Hd].
  - destruct (IH m Hm) as [d' [Hd' Hl]]. exists d'. split; [now right | exact Hl].
Qed.

Lemma Forall2_lookup_map (fs : FS) (ds : list path) (layers : list node) (r : path) :
  Forall2 (fun d n => lookup d (Some fs) = Some n) ds layers ->
  map (fun n => visible (lookup r (Some n))) layers
  = map (fun d => visible_at fs (d ++ r)) ds.
Proof.
  induction 1 as [|d n ds layers Hd _ IH]; [reflexivity|].
  cbn [map]. rewrite IH. unfold visible_at. now rewrite lookup_app, Hd.
Qed.

(** ** The extend merge *)

Lemma merged_created (cur : path) (resource : string) (fs : FS)
      (es : list (string * node)) (F : option node -> res (option node))
      (x : option node) :
  lookup cur (Some fs) = Some (Dir es) ->
  (forall n, lookup (join cur MERGED_DIR) (Some fs) = Some n -> is_dir n = true) ->
  pathExists fs (join (join cur MERGED_DIR) resource) = false ->
  F None = OK x ->
  lookup (join (join cur MERGED_DIR) resource) (Some fs) = None
  /\ exists n', alter true F (join (join cur MERGED_DIR) resource) (Some fs) = OK n'.
Proof.
  intros Hcur Hdir Habsent HF.
  assert (lookup (join (join cur MERGED_DIR) resource) (Some fs) = None) as Hnone.
  { unfold pathExists in Habsent.
    now destruct (lookup (join (join cur MERGED_DIR) resource) (Some fs)). }
  split; [exact Hnone|].
  unfold join at 1 in Hnone. rewrite lookup_app, (lookup_join _ _ _ _ Hcur) in Hnone.
  rewrite (lookup_join _ _ _ _ Hcur) in Hdir.
  unfold join. rewrite <- app_assoc. cbn [app]. rewrite alter_app.
  destruct (assoc MERGED_DIR es) as [n|] eqn:Em.
  - specialize (Hdir n eq_refl). destruct n as [c|l|ms]; try discriminate.
    cbn [lookup] in Hnone.
    eapply alter_at_existing; [exact Hcur|].
    cbn [alter]. rewrite Em. cbn [alter]. rewrite Hnone, HF. reflexivity.
  - eapply alter_at_existing; [exact Hcur|].
    cbn [alter]. rewrite Em. cbn [alter]. rewrite HF. reflexivity.
Qed.

Lemma Forall2_lookup_transfer (fs fs0 : FS) (ds : list path) (layers : list node) :
  Forall2 (fun d n => lookup d (Some fs) = Some n) ds layers ->
  (forall d, In d ds -> lookup d (Some fs0) = lookup d (Some fs)) ->
  Forall2 (fun d n => lookup d (Some fs0) = Some n) ds layers.
Proof.
  induction 1 as [|d n ds layers Hd _ IH]; intros Hsame; constructor.
  - rewrite Hsame; [exact Hd | now left].
  - apply IH. intros d' Hd'. apply Hsame. now right.
Qed.

Lemma pathExists_shape (fs : FS) (p : path) :
  pathExists fs p = true <-> shape_at fs p <> None.
Proof.
  unfold pathExists, shape_at.
  destruct (lookup p (Some fs)) as [[c|l|es]|]; simpl; split; congruence.
Qed.




(** ** Nothing is deleted by a resolution *)

Lemma grows_refl (fs : FS) : grows fs fs.
Proof. intros p H. exact H. Qed.

Lemma grows_trans (a b c : FS) : grows a b -> grows b c -> grows a c.
Proof. intros H1 H2 p H. apply H2, H1, H. Qed.

Lemma monotone_ret {A} (a : A) : monotone (ret a).
Proof. intros fs. apply grows_refl. Qed.

Lemma monotone_reads {A} (f : FS -> A) : monotone (reads f).
Proof. intros fs. apply grows_refl. Qed.

Lemma monotone_reads_res {A} (f : FS -> res A) : monotone (reads_res f).
Proof. intros fs. unfold reads_res. destruct (f fs); apply grows_refl. Qed.

Lemma monotone_bind {A B} (m : M A) (k : A -> M B) :
  monotone m -> (forall a, monotone (k a)) -> monotone (bind m k).
Proof.
  intros Hm Hk fs. unfold bind. specialize (Hm fs).
  destruct (m fs) as [a fs1|e fs1|]; [|exact Hm|exact I].
  specialize (Hk a fs1).
  destruct (k a fs1) as [b fs2|e fs2|]; [| |exact I]; eapply grows_trans; eauto.
Qed.

Lemma monotone_if {A} (b : bool) (m1 m2 : M A) :
  monotone m1 -> monotone m2 -> monotone (if b then m1 else m2).
Proof. now destruct b. Qed.

Lemma alter_grows (mk : bool) (f : option node -> res (option node)) (p : path) :
  slot_grows f -> slot_grows (alter mk f p).
Proof.
  intros Hf. induction p as [|s p IH]; [exact Hf|].
  intros slot y q H Hq. cbn [alter] in H.
  destruct slot as [[c|l|es]|]; try discriminate.
  - destruct (alter mk f p (assoc s es)) as [c|] eqn:E; [|discriminate].
    injection H as <-. destruct q as [|t q]; [discriminate|].
    cbn [lookup] in *. destruct (String.eqb s t) eqn:Est.
    + apply String.eqb_eq in Est. subst t. rewrite assoc_put_same.
      eapply IH; eauto.
    + apply String.eqb_neq in Est. now rewrite assoc_put_other.
  - now rewrite lookup_None in Hq.
Qed.

Lemma slot_grows_ensureDir : slot_grows ensureDir_slot.
Proof.
  intros [[c|l|es]|] y q H Hq; simpl in H; try discriminate; injection H as <-;
    [exact Hq | now rewrite lookup_None in Hq].
Qed.

Lemma slot_grows_writeFile (c : string) : slot_grows (writeFile_slot c).
Proof.
  intros [[c0|l|es]|] y q H Hq; simpl in H; try discriminate; injection H as <-.
  - destruct q; [discriminate | now simpl in Hq].
  - now rewrite lookup_None in Hq.
Qed.

Lemma monotone_writes_alter (mk : bool) (f : option node -> res (option node))
      (p : path) :
  slot_grows f -> monotone (writes (alterFS mk f p)).
Proof.
  intros Hf fs. unfold writes, alterFS.
  destruct (alter mk f p (Some fs)) as [[fs'|]|] eqn:E; try apply grows_refl.
  intros q Hq. unfold pathExists in *.
  pose proof (alter_grows mk f p Hf (Some fs) (Some fs') q E) as H.
  destruct (lookup q (Some fs)); [|discriminate].
  destruct (lookup q (Some fs')); [reflexivity|]. exfalso. now apply H.
Qed.

Lemma monotone_ensureDir (p : path) : monotone (ensureDir p).
Proof. apply monotone_writes_alter, slot_grows_ensureDir. Qed.

Lemma monotone_writeText (p : path) (c : string) : monotone (writeText p c).
Proof. apply monotone_writes_alter, slot_grows_writeFile. Qed.

Lemma monotone_copyFile (src dst : path) : monotone (copyFile src dst).
Proof.
  intros fs. unfold copyFile, writes, copyFile_fs.
  destruct (readText_fs src fs) as [c|e]; [|apply grows_refl].
  cbn [res_bind]. exact (monotone_writeText dst c fs).
Qed.

Lemma monotone_for_each {A} (xs : list A) (body : A -> M unit) :
  (forall x, monotone (body x)) -> monotone (for_each xs body).
Proof.
  intros Hb. induction xs as [|x xs IH]; [apply monotone_ret|].
  cbn [for_each]. apply monotone_bind; [apply Hb | intros _; exact IH].
Qed.

Lemma monotone_out_of_fuel {A} : monotone (@out_of_fuel A).
Proof. intros fs. exact I. Qed.

Create HintDb mono.

#[local] Hint Resolve monotone_ret monotone_reads monotone_reads_res
  monotone_ensureDir monotone_writeText monotone_copyFile monotone_out_of_fuel
  : mono.

Ltac mono :=
  repeat first
    [ progress auto with mono
    | apply monotone_bind; [|intros ?]
    | apply monotone_for_each; intros ?
    | apply monotone_if
    | match goal with
      | |- monotone (match ?x with _ => _ end) => destruct x
      end ].

Lemma monotone_copyDirectoryContents (fuel : nat) :
  forall src dst, monotone (copyDirectoryContents fuel src dst).
Proof.
  induction fuel as [|fuel IH]; intros src dst; cbn [copyDirectoryContents].
  - apply monotone_out_of_fuel.
  - unfold listFiles, listDirs. mono.
Qed.

#[local] Hint Resolve monotone_copyDirectoryContents : mono.

Lemma monotone_existing (cs : list path) : monotone (existing cs).
Proof. induction cs as [|c cs IH]; cbn [existing]; unfold pathExistsM; mono. Qed.

Lemma monotone_first_existing (cs : list path) : monotone (first_existing cs).
Proof. induction cs as [|c cs IH]; cbn [first_existing]; unfold pathExistsM; mono. Qed.

Lemma monotone_find_in_parents (R item : string) (ps : list path) :
  monotone (find_in_parents R item ps).
Proof. induction ps as [|p ps IH]; cbn [find_in_parents]; unfold pathExistsM; mono. Qed.

#[local] Hint Resolve monotone_existing monotone_first_existing
  monotone_find_in_parents : mono.

Lemma monotone_collect_items (R : string) (ps : list path) (items : list string) :
  monotone (collect_items R ps items).
Proof. induction items as [|i items IH]; cbn [collect_items]; mono. Qed.

#[local] Hint Resolve monotone_collect_items : mono.

Lemma monotone_mergeCompose (fuel : nat) (chain : list path) (cur : path)
      (R : string) (items : list string) :
  monotone (mergeCompose fuel chain cur R items).
Proof. unfold mergeCompose, pathExistsM, lstat. mono. Qed.

Lemma monotone_mergeDirectoryChain (fuel : nat) (opts : MergeChainOptions) :
  monotone (mergeDirectoryChain fuel opts).
Proof.
  unfold mergeDirectoryChain, pathExistsM.
  pose proof monotone_mergeCompose.
  destruct (behavior opts); mono.
Qed.

Lemma monotone_instructions_of (root : path) : monotone (instructions_of root).
Proof. unfold instructions_of, pathExistsM. mono. Qed.

#[local] Hint Resolve monotone_instructions_of : mono.

Lemma monotone_first_instructions (roots : list path) :
  monotone (first_instructions roots).
Proof. induction roots as [|r roots IH]; cbn [first_instructions]; mono. Qed.

Lemma monotone_all_instructions (roots : list path) :
  monotone (all_instructions roots).
Proof. induction roots as [|r roots IH]; cbn [all_instructions]; mono. Qed.

Lemma monotone_mergeMarkdownChain_from (files : list path) :
  forall result, monotone (mergeMarkdownChain_from result files).
Proof.
  induction files as [|f files IH]; intros result; cbn [mergeMarkdownChain_from];
    unfold pathExistsM, readText; mono.
Qed.

Lemma monotone_mergeAgentsMd (chain : list path) (cur : path) (b : ExtendBehavior) :
  monotone (mergeAgentsMd chain cur b).
Proof.
  pose proof monotone_first_instructions. pose proof monotone_all_instructions.
  pose proof monotone_mergeMarkdownChain_from.
  unfold mergeAgentsMd, mergeMarkdownChain. destruct b; mono.
Qed.

Lemma alter_delete (p : path) :
  forall n x, p <> [] -> lookup p n = Some x ->
    exists n', alter false (fun _ => OK None) p n = OK (Some n')
               /\ lookup p (Some n') = None.
Proof.
  induction p as [|s p IH]; intros n x Hp Hx; [congruence|].
  cbn [lookup] in Hx. destruct n as [[c|l|es]|]; try discriminate.
  cbn [alter]. destruct p as [|t p].
  - cbn [alter res_bind]. eexists. split; [reflexivity|].
    cbn [lookup]. apply assoc_put_same.
  - destruct (IH (assoc s es) x ltac:(discriminate) Hx) as [n' [Hn' Hl]].
    rewrite Hn'. cbn [res_bind]. eexists. split; [reflexivity|].
    cbn [lookup] in *. now rewrite assoc_put_same.
Qed.

Lemma cleanMergedDir_removes (agentsRoot : path) (fs : FS) :
  exists fs', cleanMergedDir agentsRoot fs = Done tt fs'
              /\ pathExists fs' (getMergedDir agentsRoot) = false.
Proof.
  unfold cleanMergedDir, bind, pathExistsM, reads.
  destruct (pathExists fs (getMergedDir agentsRoot)) eqn:E.
  - unfold pathExists in E.
    destruct (lookup (getMergedDir agentsRoot) (Some fs)) as [x|] eqn:Ex;
      [|discriminate].
    destruct (alter_delete (getMergedDir agentsRoot) (Some fs) x) as [fs' [Hd Hl]];
      [unfold getMergedDir, join; now destruct agentsRoot | exact Ex |].
    exists fs'. split.
    + unfold rm_rf, writes, rm_rf_fs, pathExists, alterFS. now rewrite Ex, Hd.
    + unfold pathExists. now rewrite Hl.
  - exists fs. split; [reflexivity | exact E].
Qed.

(** C2, as the specification words it, fails: the resolution creates the
    merge directory when it is missing and copies into it, and never
    deletes it first.  Here the merge directory holds [old.md] from an
    earlier run; no contributing directory has that name, and after the
    resolution [old.md] is still there. *)
Lemma C2_leftover_entry_survives :
  mergeDirectoryChain 4 Examples.skillsExtend Examples.staleDisk
  = Done (Some Examples.mergedSkills) Examples.staleResult
  /\ ~ no_leftovers Examples.staleDisk Examples.staleResult
        Examples.skillsDirs Examples.mergedSkills.
Proof.
  split; [reflexivity|]. intros H.
  destruct (H "old.md" eq_refl) as [d [Hd Hex]].
  destruct Hd as [<-|[<-|[]]]; discriminate Hex.
Qed.

(** C2, amended: a resolution that materializes a merge directory (a
    directory resource under extend or compose, or the merged instruction
    file) deletes nothing: every path that exists before it exists after
    it, entries left in the merge directory by an earlier resolution
    included.  The merge tree is deleted by [cleanMergedDir] only, which
    always returns and leaves no [<root>/merged]. *)
Theorem C2_resolution_never_clears
        (fs : FS) :
  (forall fuel opts result fs',
      mergeDirectoryChain fuel opts fs = Done result fs' ->
      forall p, pathExists fs p = true -> pathExists fs' p = true)
  /\ (forall chain cur b result fs',
         mergeAgentsMd chain cur b fs = Done result fs' ->
         forall p, pathExists fs p = true -> pathExists fs' p = true)
  /\ (forall agentsRoot,
         exists fs', cleanMergedDir agentsRoot fs = Done tt fs'
                     /\ pathExists fs' (getMergedDir agentsRoot) = false).
Proof.
  split; [|split].
  - intros fuel opts result fs' H.
    pose proof (monotone_mergeDirectoryChain fuel opts fs) as Hm.
    rewrite H in Hm. exact Hm.
  - intros chain cur b result fs' H.
    pose proof (monotone_mergeAgentsMd chain cur b fs) as Hm.
    rewrite H in Hm. exact Hm.
  - intros agentsRoot. apply cleanMergedDir_removes.
Qed.

Lemma C2_resolution_never_clears_witness :
  pathExists Examples.staleDisk (Examples.mergedSkills ++ ["old.md"]) = true
  /\ pathExists Examples.staleResult (Examples.mergedSkills ++ ["old.md"]) = true.
Proof.
  split; [reflexivity|].
  apply (proj1 (C2_resolution_never_clears Examples.staleDisk)
           4 Examples.skillsExtend (Some Examples.mergedSkills) Examples.staleResult);
    reflexivity.
Defined.

(* ===================================================================== *)
(** ** The chain resolver, further *)

Lemma head_tail {A} (l : list A) :
  (match hd_error l with Some c => [c] | None => [] end) ++ tl l = l.
Proof. destruct l; reflexivity. Qed.

Lemma detect_effective (env : Env) (opts : DetectOptions) (fs : FS) :
  let home := or_else (homeDir opts) (os_homedir env) in
  let start := or_else (startDir opts) (process_cwd env) in
  getEffectiveChain (detectMonorepoChain env opts fs)
  = walkUp fs home start
    ++ (if pathExists fs (join home AGENTS_DIR) then [join home AGENTS_DIR] else []).
Proof.
  intros home start. unfold getEffectiveChain, detectMonorepoChain. cbn [current ancestors global].
  fold home start. rewrite app_assoc, head_tail.
  destruct (pathExists fs (join home AGENTS_DIR)); reflexivity.
Qed.

Lemma is_prefix_dirname_self (p : path) : is_prefix (dirname p) p = true.
Proof.
  apply is_prefix_app. unfold dirname.
  destruct p as [|a p]; [exists []; reflexivity|].
  exists [last (a :: p) ""]. apply app_removelast_last. discriminate.
Qed.

Lemma is_prefix_trans (p q r : path) :
  is_prefix p q = true -> is_prefix q r = true -> is_prefix p r = true.
Proof.
  intros H1 H2. apply is_prefix_app in H1 as [a ->]. apply is_prefix_app in H2 as [b ->].
  apply is_prefix_app. exists (a ++ b). now rewrite app_assoc.
Qed.

Lemma is_prefix_below_dirname (d cur : path) :
  is_prefix d cur = true -> d <> cur -> is_prefix d (dirname cur) = true.
Proof.
  intros H Hne. apply is_prefix_app in H as [r ->].
  destruct (exists_last (l := r)) as [r' [x ->]].
  { intros ->. apply Hne. now rewrite app_nil_r. }
  rewrite app_assoc. change ((d ++ r') ++ [x]) with (join (d ++ r') x).
  rewrite dirname_join. apply is_prefix_app. now exists r'.
Qed.

(** Induction along the walk: from a directory to its parent, as long as
    the stop conditions do not hold. *)
Lemma walk_ind (home : HomeDir) (P : path -> Prop) :
  (forall cur, (stops home cur = false -> P (dirname cur)) -> P cur) ->
  forall cur, P cur.
Proof.
  intros Hstep cur. remember (List.length cur) as n eqn:Hn.
  revert cur Hn. induction n as [n IH] using lt_wf_ind.
  intros cur Hn. apply Hstep. intros Hs.
  apply (IH (List.length (dirname cur))); [|reflexivity].
  subst n. apply length_dirname. eapply stops_false_nonroot; exact Hs.
Qed.

Lemma walkUp_markers (fs : FS) (home : HomeDir) :
  forall cur m, In m (walkUp fs home cur) ->
    pathExists fs m = true
    /\ exists d, m = join d AGENTS_DIR /\ is_prefix d cur = true.
Proof.
  intros cur. induction cur as [cur IH] using (walk_ind home).
  intros m Hm. rewrite walkUp_step in Hm. apply in_app_or in Hm as [Hm|Hm].
  - unfold marker_of in Hm.
    destruct (pathExists fs (join cur AGENTS_DIR)) eqn:E; [|contradiction].
    destruct Hm as [<-|[]]. split; [exact E|].
    exists cur. split; [reflexivity|apply is_prefix_refl].
  - destruct (stops home cur) eqn:Es; [contradiction|].
    apply (IH eq_refl) in Hm as [He [d [-> Hd]]].
    split; [exact He|]. exists d. split; [reflexivity|].
    eapply is_prefix_trans; [exact Hd|apply is_prefix_dirname_self].
Qed.

(** The home marker is met by the walk only when the walk starts at the
    home directory. *)
Lemma walkUp_home_marker (fs : FS) (home : HomeDir) :
  normalised home = true ->
  forall cur, In (join home AGENTS_DIR) (walkUp fs home cur) -> cur = home.
Proof.
  intros Hnormal cur. induction cur as [cur IH] using (walk_ind home).
  intros Hm. rewrite walkUp_step in Hm. apply in_app_or in Hm as [Hm|Hm].
  - unfold marker_of in Hm.
    destruct (pathExists fs (join cur AGENTS_DIR)); [|contradiction].
    destruct Hm as [Hm|[]]. unfold join in Hm. now apply app_inj_tail in Hm.
  - destruct (stops home cur) eqn:Es; [contradiction|].
    apply (IH eq_refl) in Hm. exfalso.
    unfold stops, is_home in Es. rewrite Hm, Hnormal, path_eqb_refl in Es.
    cbn [andb] in Es. now rewrite orb_true_r in Es.
Qed.

Lemma length_join (p : path) (s : string) : List.length (join p s) = S (List.length p).
Proof. unfold join. rewrite length_app. simpl. lia. Qed.

Lemma is_prefix_length (p q : path) :
  is_prefix p q = true -> List.length p <= List.length q.
Proof.
  intros H. apply is_prefix_app in H as [r ->]. rewrite length_app. lia.
Qed.

Lemma strictly_above_dirname (cur : path) :
  cur <> [] -> strictly_above (dirname cur) cur.
Proof.
  intros Hne. split; [apply is_prefix_dirname_self|].
  intros Heq. apply length_dirname in Hne. rewrite Heq in Hne. lia.
Qed.

Lemma strictly_above_trans_l (a b c : path) :
  is_prefix a b = true -> strictly_above b c -> strictly_above a c.
Proof.
  intros Hab [Hbc Hne]. split; [eapply is_prefix_trans; eauto|].
  intros ->. apply Hne. now apply is_prefix_antisym.
Qed.

(** The markers of the walk, nearest first: the directory of every later
    marker is a proper ancestor of the directory of every earlier one. *)
Lemma walkUp_sorted (fs : FS) (home : HomeDir) :
  forall cur,
    StronglySorted (fun a b => strictly_above (dirname b) (dirname a))
                   (walkUp fs home cur).
Proof.
  intros cur. induction cur as [cur IH] using (walk_ind home).
  rewrite walkUp_step.
  destruct (stops home cur) eqn:Es.
  - rewrite app_nil_r. unfold marker_of.
    destruct (pathExists fs (join cur AGENTS_DIR)); repeat constructor.
  - specialize (IH eq_refl). unfold marker_of.
    destruct (pathExists fs (join cur AGENTS_DIR)); [|exact IH].
    simpl. constructor; [exact IH|].
    apply Forall_forall. intros m Hm.
    apply walkUp_markers in Hm as [_ [d [-> Hd]]].
    rewrite !dirname_join.
    eapply strictly_above_trans_l; [exact Hd|].
    apply strictly_above_dirname. eapply stops_false_nonroot; exact Es.
Qed.

Lemma sorted_NoDup {A} (R : A -> A -> Prop) (l : list A) :
  (forall a, ~ R a a) -> StronglySorted R l -> NoDup l.
Proof.
  intros Hirr Hs. induction Hs as [|a l Hs IH Hall]; constructor; [|exact IH].
  intros Hin. rewrite Forall_forall in Hall. exact (Hirr a (Hall a Hin)).
Qed.

(** The walk misses no marker: started strictly below the home directory,
    it records the marker of every directory from the start directory up
    to, and not including, the home directory. *)
Lemma walkUp_complete (fs : FS) (home : HomeDir) :
  forall cur d,
    strictly_above home cur ->
    is_prefix d cur = true -> strictly_above home d ->
    pathExists fs (join d AGENTS_DIR) = true ->
    In (join d AGENTS_DIR) (walkUp fs home cur).
Proof.
  intros cur. induction cur as [cur IH] using (walk_ind home).
  intros d Hcur Hd Hhd He. rewrite walkUp_step. apply in_or_app.
  destruct (path_eqb d cur) eqn:Edc.
  - apply path_eqb_eq in Edc as ->. left. unfold marker_of. rewrite He. now left.
  - apply path_eqb_neq in Edc. right.
    assert (is_prefix d (dirname cur) = true) as Hdd
        by now apply is_prefix_below_dirname.
    assert (strictly_above home (dirname cur)) as Hhdd.
    { destruct Hhd as [Hp Hne]. split; [eapply is_prefix_trans; eauto|].
      intros Heq. apply Hne. rewrite Heq in Hp. rewrite Heq.
      symmetry. now apply is_prefix_antisym. }
    destruct (stops home cur) eqn:Es.
    + exfalso. unfold stops, is_home in Es.
      apply orb_true_iff in Es as [Es|Es]; [apply orb_true_iff in Es as [Es|Es]|];
        try apply andb_true_iff in Es as [_ Es].
      * apply path_eqb_eq in Es. destruct Hcur as [Hp Hne].
        assert (cur = []) as ->.
        { destruct cur as [|a c]; [reflexivity|]. exfalso.
          assert (List.length (dirname (a :: c)) < List.length (a :: c))
            by (apply length_dirname; discriminate).
          rewrite Es in H. lia. }
        destruct (home_path home); [now apply Hne|discriminate Hp].
      * apply path_eqb_eq in Es. destruct Hhdd as [_ Hne]. now apply Hne.
      * apply path_eqb_eq in Es. destruct Hcur as [_ Hne]. now apply Hne.
    + apply (IH eq_refl); assumption.
Qed.

Lemma detect_markers (env : Env) (opts : DetectOptions) (fs : FS) :
  chain_markers (detectMonorepoChain env opts fs)
  = walkUp fs (or_else (homeDir opts) (os_homedir env))
              (or_else (startDir opts) (process_cwd env)).
Proof.
  unfold chain_markers, detectMonorepoChain. cbn [current ancestors].
  apply head_tail.
Qed.

(** C10: started at the home directory, with a marker there, the resolver
    records that marker both as [current] and as [global], however the
    home directory is written; the effective chain lists it first and
    last, and the scan of the merge engine for the roots that hold a
    resource finds it twice.  With the home directory given in normal
    form the walk stops there: there are no ancestors, the effective
    chain is the marker twice, and the scan finds two contributing
    directories. *)
Theorem C10_home_marker_counted_twice
        (env : Env) (fs : FS) (home : HomeDir)
        (Hmarker : pathExists fs (join home AGENTS_DIR) = true) :
  let chain :=
    detectMonorepoChain env (MkDetect (Some (home_path home)) (Some home)) fs in
  let root := join home AGENTS_DIR in
  current chain = Some root
  /\ global chain = Some root
  /\ (normalised home = true -> ancestors chain = [])
  /\ getEffectiveChain chain = root :: ancestors chain ++ [root]
  /\ forall r, pathExists fs (join root r) = true ->
       existing (map (fun p => join p r) (getEffectiveChain chain)) fs
       = Done (join root r
               :: filter (pathExists fs) (map (fun p => join p r) (ancestors chain))
               ++ [join root r]) fs.
Proof.
  intros chain root.
  assert (exists rest, chain = MkChain (Some root) rest (Some root)
                       /\ (normalised home = true -> rest = [])) as [rest [-> Hrest]].
  { unfold chain, root, detectMonorepoChain. cbn [or_else homeDir startDir].
    rewrite walkUp_step. unfold marker_of. rewrite Hmarker.
    cbn [app hd_error tl]. eexists. split; [reflexivity|].
    intros Hn. now rewrite stops_at_home. }
  cbn [current global ancestors]. unfold getEffectiveChain.
  cbn [current global ancestors app].
  repeat split; try reflexivity; [exact Hrest|].
  intros r Hr. rewrite existing_filter. cbn [map filter]. rewrite Hr.
  now rewrite map_app, filter_app; cbn [map filter]; rewrite Hr.
Qed.

Lemma C10_home_marker_counted_twice_witness :
  getEffectiveChain
    (detectMonorepoChain Examples.env
       (MkDetect (Some Examples.home) (Some Examples.homeDir)) Examples.disk)
  = [join Examples.home AGENTS_DIR; join Examples.home AGENTS_DIR]
  /\ getEffectiveChain
       (detectMonorepoChain Examples.env
          (MkDetect (Some Examples.home) (Some Examples.homeDirSlash)) Examples.disk)
     = [join Examples.home AGENTS_DIR; [".agents"]; join Examples.home AGENTS_DIR].
Proof.
  split.
  - exact (proj1 (proj2 (proj2 (proj2
             (C10_home_marker_counted_twice Examples.env Examples.disk
                Examples.homeDir eq_refl))))).
  - exact (proj1 (proj2 (proj2 (proj2
             (C10_home_marker_counted_twice Examples.env Examples.disk
                Examples.homeDirSlash eq_refl))))).
Defined.

Lemma filter_all {A} (f : A -> bool) (l : list A) :
  (forall a, In a l -> f a = true) -> filter f l = l.
Proof.
  induction l as [|a l IH]; intros H; [reflexivity|]. simpl.
  rewrite (H a) by now left. f_equal. apply IH. intros b Hb. apply H. now right.
Qed.

(** Every root of the effective chain of a detected chain exists on the
    disk the chain was detected on and is named [.agents]; it is the
    marker of the home directory or of a directory on the way from the
    start directory to the root.  Hence every root of the chain can be
    watched: [getWatchablePaths] returns the effective chain whole. *)
Theorem detected_roots_exist
        (env : Env) (opts : DetectOptions) (fs : FS) :
  let home := or_else (homeDir opts) (os_homedir env) in
  let start := or_else (startDir opts) (process_cwd env) in
  let chain := detectMonorepoChain env opts fs in
  (forall m, In m (getEffectiveChain chain) ->
     pathExists fs m = true
     /\ basename m = AGENTS_DIR
     /\ (dirname m = home \/ is_prefix (dirname m) start = true))
  /\ getWatchablePaths chain fs = Done (getEffectiveChain chain) fs.
Proof.
  intros home start chain.
  assert (forall m, In m (getEffectiveChain chain) ->
            pathExists fs m = true
            /\ basename m = AGENTS_DIR
            /\ (dirname m = home \/ is_prefix (dirname m) start = true)) as Hall.
  { intros m Hm. unfold chain in Hm. rewrite detect_effective in Hm.
    fold home start in Hm. apply in_app_or in Hm as [Hm|Hm].
    - apply walkUp_markers in Hm as [He [d [-> Hd]]].
      rewrite basename_join, dirname_join. auto.
    - destruct (pathExists fs (join home AGENTS_DIR)) eqn:E; [|contradiction].
      destruct Hm as [<-|[]]. rewrite basename_join, dirname_join. auto. }
  split; [exact Hall|].
  unfold getWatchablePaths. rewrite existing_filter. f_equal.
  apply filter_all. intros m Hm. now apply Hall.
Qed.

(** The markers of a detected chain are listed nearest first: [current]
    is the marker of the deepest directory, and the directory of every
    later marker is a proper ancestor of the directory of every earlier
    one.  In particular no marker is listed twice among [current] and the
    ancestors. *)
Theorem detected_markers_nearest_first
        (env : Env) (opts : DetectOptions) (fs : FS) :
  let chain := detectMonorepoChain env opts fs in
  StronglySorted (fun a b => strictly_above (dirname b) (dirname a))
                 (chain_markers chain)
  /\ NoDup (chain_markers chain).
Proof.
  intros chain. unfold chain. rewrite detect_markers.
  split; [apply walkUp_sorted|].
  eapply sorted_NoDup; [|apply walkUp_sorted].
  intros a [_ Hne]. now apply Hne.
Qed.

(** Started strictly below the home directory, with the home directory
    given in normal form, the walk records exactly the markers of the
    directories from the start directory up to, and not including, the
    home directory: none is missed, and the marker of the home directory
    itself is left to [global]. *)
Theorem detected_markers_complete
        (env : Env) (fs : FS) (start : path) (home : HomeDir)
        (Hnormal : normalised home = true)
        (Hbelow : strictly_above home start) (m : path) :
  In m (chain_markers
          (detectMonorepoChain env (MkDetect (Some start) (Some home)) fs))
  <-> exists d, m = join d AGENTS_DIR
                /\ is_prefix d start = true
                /\ strictly_above home d
                /\ pathExists fs m = true.
Proof.
  rewrite detect_markers. cbn [or_else homeDir startDir].
  split.
  - intros Hm. pose proof (walkUp_markers fs home start m Hm) as [He [d [-> Hd]]].
    exists d. repeat split; try assumption.
    + pose proof (walkUp_below fs home Hnormal start (proj1 Hbelow) _ Hm) as Hp.
      now rewrite dirname_join in Hp.
    + intros Heq. rewrite <- Heq in Hm.
      apply (walkUp_home_marker fs home Hnormal) in Hm.
      destruct Hbelow as [_ Hne]. now apply Hne.
  - intros [d [-> [Hd [Hhd He]]]]. now apply walkUp_complete.
Qed.

Lemma detected_markers_complete_witness :
  normalised Examples.homeDir = true
  /\ strictly_above Examples.home (Examples.home ++ ["proj"])
  /\ chain_markers
       (detectMonorepoChain Examples.env
          (MkDetect (Some (Examples.home ++ ["proj"])) (Some Examples.homeDir))
          Examples.disk)
     = [Examples.home ++ ["proj"; ".agents"]]
  /\ In (Examples.home ++ ["proj"; ".agents"])
        (chain_markers
           (detectMonorepoChain Examples.env
              (MkDetect (Some (Examples.home ++ ["proj"])) (Some Examples.homeDir))
              Examples.disk)).
Proof.
  assert (strictly_above Examples.home (Examples.home ++ ["proj"])) as Hb
      by (split; [reflexivity|discriminate]).
  split; [reflexivity|]. split; [exact Hb|]. split; [reflexivity|].
  apply (detected_markers_complete Examples.env Examples.disk
           (Examples.home ++ ["proj"]) Examples.homeDir eq_refl Hb).
  exists (Examples.home ++ ["proj"]).
  repeat split; try reflexivity. discriminate.
Defined.

(** With the home directory given in normal form, the effective chain
    lists no root twice unless the walk starts at the home directory
    itself. *)
Theorem effective_chain_has_no_duplicates
        (env : Env) (fs : FS) (start : path) (home : HomeDir)
        (Hnormal : normalised home = true)
        (Hstart : start <> home) :
  NoDup (getEffectiveChain
           (detectMonorepoChain env (MkDetect (Some start) (Some home)) fs)).
Proof.
  rewrite detect_effective. cbn [or_else homeDir startDir].
  assert (NoDup (walkUp fs home start)) as Hnd.
  { eapply sorted_NoDup; [|apply walkUp_sorted].
    intros a [_ Hne]. now apply Hne. }
  destruct (pathExists fs (join home AGENTS_DIR)); [|now rewrite app_nil_r].
  apply NoDup_app; [exact Hnd|repeat constructor; intros []|].
  intros m Hm [<-|[]]. apply Hstart.
  exact (walkUp_home_marker fs home Hnormal start Hm).
Qed.

Lemma effective_chain_has_no_duplicates_witness :
  getEffectiveChain
    (detectMonorepoChain Examples.env
       (MkDetect (Some (Examples.home ++ ["proj"])) (Some Examples.homeDir))
       Examples.disk)
  = [Examples.home ++ ["proj"; ".agents"]; Examples.home ++ [".agents"]]
  /\ NoDup (getEffectiveChain
              (detectMonorepoChain Examples.env
                 (MkDetect (Some (Examples.home ++ ["proj"])) (Some Examples.homeDir))
                 Examples.disk)).
Proof.
  split; [reflexivity|].
  apply (effective_chain_has_no_duplicates Examples.env Examples.disk
           (Examples.home ++ ["proj"]) Examples.homeDir).
  - reflexivity.
  - discriminate.
Defined.

(* ===================================================================== *)
(** ** Scope and clients of a repair *)

(** With a marker in the home directory, [detectScope] never answers
    [project]: a working directory with a marker of its own is a
    [monorepo] whose chain has the home marker as [global] (also when the
    working directory is the home directory itself), and any other
    working directory is [global]. *)
Theorem detectScope_with_home_marker
        (env : Env) (fs : FS)
        (Hglobal : pathExists fs (join (os_homedir env) ".agents") = true) :
  detectScope env fs
  = Done (if pathExists fs (join (process_cwd env) ".agents")
          then Some (rs_monorepo,
                     Some (detectMonorepoChain env (MkDetect None None) fs))
          else Some (rs_global, None)) fs
  /\ global (detectMonorepoChain env (MkDetect None None) fs)
     = Some (join (os_homedir env) ".agents").
Proof.
  assert (global (detectMonorepoChain env (MkDetect None None) fs)
          = Some (join (os_homedir env) ".agents")) as Hg.
  { unfold detectMonorepoChain. cbn [global or_else homeDir].
    unfold AGENTS_DIR. now rewrite Hglobal. }
  split; [|exact Hg].
  cbv [detectScope bind pathExistsM reads ret].
  destruct (pathExists fs (join (process_cwd env) ".agents")).
  - unfold hasMonorepoParent. rewrite Hg. now rewrite orb_true_r.
  - now rewrite Hglobal.
Qed.

Lemma detectScope_with_home_marker_witness :
  detectScope Examples.env Examples.disk
  = Done (Some (rs_monorepo,
                Some (MkChain (Some (Examples.home ++ [".agents"])) []
                              (Some (Examples.home ++ ["proj"; ".agents"])))))
         Examples.disk.
Proof.
  exact (proj1 (detectScope_with_home_marker Examples.env Examples.disk eq_refl)).
Defined.

(** With no marker in the working directory and none in the home
    directory, [repair] links nothing: it reports the scope [project],
    no target created, updated or skipped, and the one error telling that
    no [.agents] folder was found; the disk is left as it was. *)
Lemma repair_without_marker
        (env : Env) (yaml_load : string -> option MonorepoConfig)
        (fuel : nat) (fs : FS)
        (Hproject : pathExists fs (join (process_cwd env) ".agents") = false)
        (Hglobal : pathExists fs (join (os_homedir env) ".agents") = false) :
  repair env yaml_load fuel fs
  = Done (MkRepair rs_project 0 0 0
            ["No .agents folder found (local or global). Run `agentlinker init` first."])
         fs.
Proof.
  cbv [repair bind detectScope pathExistsM reads ret].
  now rewrite Hproject, Hglobal.
Qed.

Lemma detected_filter (env : Env) (fs : FS) :
  map fst (filter (fun entry => dr_detected (snd entry)) (detectAllClients env fs))
  = filter (fun c => dr_detected (detectClient env c fs)) all_clients.
Proof.
  unfold detectAllClients. induction all_clients as [|c l IH]; [reflexivity|].
  simpl. destruct (dr_detected (detectClient env c fs)); simpl; now rewrite IH.
Qed.

(** The clients [repair] links for are never none: they are the detected
    clients, in the fixed order and each once, or all five clients when
    none is detected.  A client counts as detected exactly when its
    detector says so. *)
Theorem repair_clients_never_empty
        (env : Env) (fs : FS) :
  let detected := filter (fun c => dr_detected (detectClient env c fs)) all_clients in
  getDetectedClients env fs = Done detected fs
  /\ getClients env fs
     = Done (match detected with [] => all_clients | _ => detected end) fs
  /\ clients_on env fs <> []
  /\ NoDup (clients_on env fs)
  /\ (forall c, In c detected <-> dr_detected (detectClient env c fs) = true).
Proof.
  intros detected.
  assert (clients_on env fs
          = match detected with [] => all_clients | _ => detected end) as Hc.
  { unfold clients_on. rewrite detected_filter. fold detected.
    destruct detected; reflexivity. }
  split; [unfold getDetectedClients, reads; now rewrite detected_filter|].
  split; [unfold getClients, reads; now rewrite Hc|].
  split; [|split].
  - rewrite Hc. destruct detected eqn:E; discriminate.
  - rewrite Hc.
    assert (NoDup all_clients) as Hall.
    { unfold all_clients. repeat constructor; simpl; intuition discriminate. }
    destruct detected eqn:E; [exact Hall|]. rewrite <- E.
    unfold detected. now apply NoDup_filter.
  - intros c. unfold detected. rewrite filter_In. split; [tauto|].
    intros H. split; [|exact H]. unfold all_clients. destruct c; simpl; tauto.
Qed.

(* ===================================================================== *)
(** ** Configuration *)

(** A configuration built from a table of behaviours gives every
    resource back the behaviour of the table, whatever the table holds:
    the [default: inherit] entry of the built configuration is never
    consulted.  The configuration built from a boolean resolves every
    resource to [inherit] for [true] and to [override] for [false].  An
    include list reads back from a compose configuration as it was passed
    in, and a configuration without an include section has no include
    list for any resource. *)
Lemma built_config_reads_back
        (behaviors : ResourceName -> ExtendBehavior)
        (included : option IncludeConfig) (r : ResourceName) (b : bool) :
  getExtendBehavior (createDetailedConfig behaviors) r = behaviors r
  /\ getExtendBehavior (createComposeConfig behaviors included) r = behaviors r
  /\ getExtendBehavior (createDefaultConfig b) r = (if b then inherit else override)
  /\ getIncludeList (createComposeConfig behaviors included) r
     = match included, r with
       | Some inc, R_commands => inc_commands inc
       | Some inc, R_skills => inc_skills inc
       | Some inc, R_hooks => inc_hooks inc
       | _, _ => None
       end
  /\ getIncludeList (createDetailedConfig behaviors) r = None.
Proof.
  repeat split; destruct r; try reflexivity;
    try (destruct b; reflexivity); destruct included; reflexivity.
Qed.

Lemma loadMonorepoConfig_on_disk
      (yaml_load : string -> option MonorepoConfig) (agentsRoot : path) (fs : FS) :
  loadMonorepoConfig yaml_load agentsRoot fs
  = Done (match readText_fs (getConfigPath agentsRoot) fs with
          | OK text => or_else (yaml_load text) empty_config
          | Fail _ => empty_config
          end) fs.
Proof.
  cbv [loadMonorepoConfig bind pathExistsM reads pathExists ret try_catch
       readText reads_res readText_fs negb].
  destruct (lookup (getConfigPath agentsRoot) (Some fs)) as [[c|l|es]|] eqn:E;
    repeat (cbv beta iota; try rewrite E); reflexivity.
Qed.

(** [loadMonorepoConfig] always returns and never changes the disk.  A
    configuration file that is missing, that cannot be read as a file, or
    that the YAML parser rejects or finds empty, yields the empty
    configuration, under which every resource resolves to [inherit] and
    has no include list. *)
Theorem loadMonorepoConfig_never_fails
        (yaml_load : string -> option MonorepoConfig)
        (agentsRoot : path) (fs : FS) :
  exists config,
    loadMonorepoConfig yaml_load agentsRoot fs = Done config fs
    /\ (forall text, readText_fs (getConfigPath agentsRoot) fs = OK text ->
                     forall parsed, yaml_load text = Some parsed -> config = parsed)
    /\ ((forall text, readText_fs (getConfigPath agentsRoot) fs = OK text ->
                      yaml_load text = None) ->
        config = empty_config
        /\ forall r, getExtendBehavior config r = inherit
                     /\ getIncludeList config r = None).
Proof.
  eexists. split; [apply loadMonorepoConfig_on_disk|].
  destruct (readText_fs (getConfigPath agentsRoot) fs) as [text|e].
  - split.
    + intros t Ht parsed Hp. injection Ht as <-. now rewrite Hp.
    + intros Hnone. rewrite (Hnone text eq_refl). cbn [or_else].
      split; [reflexivity|]. intros r. split; reflexivity.
  - split; [discriminate|]. intros _. split; [reflexivity|].
    intros r. split; reflexivity.
Qed.

(** Saving a configuration and loading it again gives the configuration
    back, provided the YAML library reads back what it wrote; after the
    save the configuration file exists, whether or not there was one
    before. *)
Theorem saved_config_loads_back
        (yaml_load : string -> option MonorepoConfig)
        (yaml_dump : MonorepoConfig -> string)
        (agentsRoot : path) (config : MonorepoConfig) (fs fs' : FS)
        (Hyaml : yaml_load (yaml_dump config) = Some config)
        (Hsave : saveMonorepoConfig yaml_dump agentsRoot config fs = Done tt fs') :
  loadMonorepoConfig yaml_load agentsRoot fs' = Done config fs'
  /\ configExists agentsRoot fs' = Done true fs'.
Proof.
  unfold saveMonorepoConfig, writeText, writes, writeText_fs, alterFS in Hsave.
  destruct (alter false (writeFile_slot (yaml_dump config))
                  (getConfigPath agentsRoot) (Some fs)) as [[n|]|e] eqn:Ea;
    try discriminate.
  injection Hsave as <-.
  apply lookup_alter in Ea.
  assert (lookup (getConfigPath agentsRoot) (Some n)
          = Some (File (yaml_dump config))) as Hl.
  { destruct (lookup (getConfigPath agentsRoot) (Some fs)) as [[c|l|es]|];
      simpl in Ea; try discriminate; now injection Ea as <-. }
  split.
  - rewrite loadMonorepoConfig_on_disk. unfold readText_fs. rewrite Hl.
    now rewrite Hyaml.
  - unfold configExists, pathExistsM, reads, pathExists. now rewrite Hl.
Qed.

Lemma saved_config_loads_back_witness :
  saveMonorepoConfig (fun _ => "compose") Examples.pkgRoot Examples.composeConfig
    (Examples.composeDisk "make" "ship" "lint" "extends: true")
  = Done tt (Examples.composeDisk "make" "ship" "lint" "compose")
  /\ loadMonorepoConfig Examples.yaml_of_compose Examples.pkgRoot
       (Examples.composeDisk "make" "ship" "lint" "compose")
     = Done Examples.composeConfig (Examples.composeDisk "make" "ship" "lint" "compose").
Proof.
  split; [reflexivity|].
  exact (proj1 (saved_config_loads_back Examples.yaml_of_compose (fun _ => "compose")
                  Examples.pkgRoot Examples.composeConfig
                  (Examples.composeDisk "make" "ship" "lint" "extends: true")
                  (Examples.composeDisk "make" "ship" "lint" "compose")
                  eq_refl eq_refl)).
Defined.

(* ===================================================================== *)
(** ** Merged instruction text *)

Lemma append_nil_r (s : string) : (s ++ "")%string = s.
Proof. induction s as [|c s IH]; [reflexivity|]. simpl. now rewrite IH. Qed.

Lemma append_assoc (a b c : string) : ((a ++ b) ++ c)%string = (a ++ (b ++ c))%string.
Proof. induction a as [|x a IH]; [reflexivity|]. simpl. now rewrite IH. Qed.

Lemma append_falsy (a b : string) : falsy b = false -> falsy (a ++ b) = false.
Proof. destruct a; [trivial|reflexivity]. Qed.

Lemma is_ws2_bytes (c1 c2 : ascii) :
  is_ws2 c1 c2 = true -> 128 <= nat_of_ascii c1 /\ 128 <= nat_of_ascii c2.
Proof.
  unfold is_ws2. rewrite andb_true_iff, !Nat.eqb_eq. lia.
Qed.

Lemma is_ws3_bytes (c1 c2 c3 : ascii) :
  is_ws3 c1 c2 c3 = true ->
  128 <= nat_of_ascii c1 /\ 128 <= nat_of_ascii c2 /\ 128 <= nat_of_ascii c3.
Proof.
  unfold is_ws3. cbv zeta.
  rewrite !orb_true_iff, !andb_true_iff, !orb_true_iff, !andb_true_iff,
    !Nat.eqb_eq, !Nat.leb_le. lia.
Qed.

Lemma falsy_trimEnd_trimStart (s : string) : falsy (trimEnd s) = falsy (trimStart s).
Proof.
  destruct s as [|c s]; [reflexivity|]. cbn [trimEnd].
  destruct (falsy (trimStart (String c s))); reflexivity.
Qed.

(** A byte below 128 is a character of its own. *)
Lemma trimStart_ascii_head (c : ascii) (s : string) :
  nat_of_ascii c < 128 ->
  trimStart (String c s) = if is_ws c then trimStart s else String c s.
Proof.
  intros Hc. cbn [trimStart]. destruct (is_ws c); [reflexivity|].
  destruct s as [|c2 s]; [reflexivity|].
  destruct (is_ws2 c c2) eqn:E2; [apply is_ws2_bytes in E2; lia|].
  destruct s as [|c3 s]; [reflexivity|].
  destruct (is_ws3 c c2 c3) eqn:E3; [apply is_ws3_bytes in E3; lia|reflexivity].
Qed.

(** No white-space character runs into a byte below 128: text in front
    of such a byte does not make what follows it white space. *)
Lemma trimStart_before_ascii (c : ascii) (b : string) :
  nat_of_ascii c < 128 ->
  falsy (trimStart (String c b)) = false ->
  forall u, falsy (trimStart (u ++ String c b)) = false.
Proof.
  intros Hc Hb u. remember (String.length u) as n eqn:Hn.
  revert u Hn. induction n as [n IH] using lt_wf_ind. intros u Hn.
  destruct u as [|c1 r1]; [exact Hb|].
  cbn [append trimStart].
  destruct (is_ws c1).
  { apply (IH (String.length r1)); [subst n; simpl; lia|reflexivity]. }
  destruct r1 as [|c2 r2].
  { cbn [append].
    destruct (is_ws2 c1 c) eqn:E2; [apply is_ws2_bytes in E2; lia|].
    destruct b as [|c3 b]; [reflexivity|].
    destruct (is_ws3 c1 c c3) eqn:E3; [apply is_ws3_bytes in E3; lia|reflexivity]. }
  cbn [append].
  destruct (is_ws2 c1 c2).
  { apply (IH (String.length r2)); [subst n; simpl; lia|reflexivity]. }
  destruct r2 as [|c3 r3].
  { cbn [append].
    destruct (is_ws3 c1 c2 c) eqn:E3; [apply is_ws3_bytes in E3; lia|reflexivity]. }
  cbn [append].
  destruct (is_ws3 c1 c2 c3); [|reflexivity].
  apply (IH (String.length r3)); [subst n; simpl; lia|reflexivity].
Qed.

Lemma trimStart_after_ascii (a x : string) :
  ascii_text a = true -> falsy (trimStart x) = false ->
  falsy (trimStart (a ++ x)) = false.
Proof.
  intros Ha Hx. induction a as [|c a IH]; [exact Hx|].
  cbn [ascii_text] in Ha. apply andb_true_iff in Ha as [Hc Ha].
  apply Nat.ltb_lt in Hc. cbn [append].
  rewrite trimStart_ascii_head by exact Hc.
  destruct (is_ws c); [now apply IH|reflexivity].
Qed.

Lemma trimEnd_append_when (a b : string) :
  (forall u, falsy (trimStart (u ++ b)) = false) ->
  trimEnd (a ++ b) = (a ++ trimEnd b)%string.
Proof.
  intros H. induction a as [|c a IH]; [reflexivity|].
  cbn [append trimEnd]. change (String c (a ++ b)) with (String c a ++ b)%string.
  now rewrite H, IH.
Qed.

(** Trailing white space is looked for behind a byte below 128 only. *)
Lemma trimEnd_before_ascii (a : string) (c : ascii) (b : string) :
  nat_of_ascii c < 128 ->
  falsy (trimEnd (String c b)) = false ->
  trimEnd (a ++ String c b) = (a ++ trimEnd (String c b))%string.
Proof.
  intros Hc Hb. apply trimEnd_append_when.
  apply trimStart_before_ascii; [exact Hc|].
  now rewrite <- falsy_trimEnd_trimStart.
Qed.

Lemma trimEnd_after_ascii (a x : string) :
  ascii_text a = true -> falsy (trimEnd x) = false ->
  trimEnd (a ++ x) = (a ++ trimEnd x)%string.
Proof.
  intros Ha Hx. rewrite falsy_trimEnd_trimStart in Hx.
  induction a as [|c a IH]; [reflexivity|].
  pose proof Ha as Ha'. cbn [ascii_text] in Ha. apply andb_true_iff in Ha as [_ Ha].
  cbn [append trimEnd]. change (String c (a ++ x)) with (String c a ++ x)%string.
  rewrite (trimStart_after_ascii (String c a) x Ha' Hx). now rewrite IH.
Qed.

Lemma trimEnd_separator (x : string) :
  falsy (trimEnd x) = false ->
  trimEnd (SEPARATOR ++ x) = (SEPARATOR ++ trimEnd x)%string.
Proof. apply trimEnd_after_ascii. reflexivity. Qed.

Lemma trimEnd_section (a x : string) :
  falsy (trimEnd x) = false ->
  trimEnd (a ++ SEPARATOR ++ x) = (a ++ SEPARATOR ++ trimEnd x)%string.
Proof.
  intros Hx. rewrite <- (trimEnd_separator x Hx).
  apply (trimEnd_before_ascii a (ascii_of_nat 10)).
  - cbv. lia.
  - change (String (ascii_of_nat 10) _) with (SEPARATOR ++ x)%string.
    rewrite trimEnd_separator by exact Hx. reflexivity.
Qed.

Lemma falsy_trimEnd (s : string) : falsy s = true -> falsy (trimEnd s) = true.
Proof. destruct s; [reflexivity|discriminate]. Qed.

Lemma blank_falsy (c : string) : blank c = false -> falsy c = false.
Proof. destruct c; [discriminate|reflexivity]. Qed.

Lemma mergeMarkdownChain_from_contents (fs : FS) (filePaths : list path) :
  (forall p n, In p filePaths -> lookup p (Some fs) = Some n -> is_file n = true) ->
  forall result,
    mergeMarkdownChain_from result filePaths fs
    = Done (fold_left add_section
              (filter (fun c => negb (blank c)) (contents fs filePaths)) result) fs.
Proof.
  induction filePaths as [|p rest IH]; intros Hfiles result; [reflexivity|].
  assert (forall q n, In q rest -> lookup q (Some fs) = Some n -> is_file n = true)
    as Hrest by (intros q n Hq; apply Hfiles; now right).
  destruct (lookup p (Some fs)) as [n|] eqn:El.
  - pose proof (Hfiles p n (or_introl eq_refl) El) as Hn.
    destruct n as [c|l|es]; try discriminate.
    rewrite (mergeMarkdownChain_from_cons fs p rest result c)
      by (unfold readText_fs; now rewrite El).
    unfold contents. cbn [flat_map]. rewrite El. cbn [app filter].
    fold (contents fs rest). unfold blank at 1.
    destruct (falsy (trim c)); cbn [negb]; [apply IH; exact Hrest|].
    cbn [fold_left]. unfold add_section at 2.
    destruct (falsy result); apply IH; exact Hrest.
  - cbn [mergeMarkdownChain_from]. unfold bind, pathExistsM, reads, pathExists.
    rewrite El. cbn [negb]. unfold contents. cbn [flat_map]. rewrite El.
    apply IH; exact Hrest.
Qed.

Lemma fold_add_section (sections : list string) :
  Forall (fun c => blank c = false) sections ->
  forall result, falsy result = false ->
    fold_left add_section sections result
    = match sections with
      | [] => result
      | _ => (trimEnd result ++ joined_rest sections)%string
      end.
Proof.
  induction sections as [|c rest IH]; intros Hall result Hr; [reflexivity|].
  inversion Hall as [|c' rest' Hc Hrest]; subst.
  cbn [fold_left]. unfold add_section at 2. rewrite Hr.
  destruct rest as [|c2 rest].
  - reflexivity.
  - rewrite IH; [|exact Hrest|].
    + rewrite trimEnd_section by exact Hc.
      cbn [joined_rest]. unfold trim. now rewrite !append_assoc.
    + apply append_falsy. reflexivity.
Qed.

Lemma mergeMarkdownChain_joined
        (fs : FS) (filePaths : list path)
        (Hfiles : forall p n, In p filePaths -> lookup p (Some fs) = Some n ->
                              is_file n = true) :
  mergeMarkdownChain filePaths fs
  = Done (joined (filter (fun c => negb (blank c)) (contents fs filePaths))) fs.
Proof.
  unfold mergeMarkdownChain.
  rewrite mergeMarkdownChain_from_contents by exact Hfiles. f_equal.
  assert (Forall (fun c => blank c = false)
                 (filter (fun c => negb (blank c)) (contents fs filePaths))) as Hall.
  { apply Forall_forall. intros c Hc. apply filter_In in Hc as [_ Hc].
    now apply negb_true_iff. }
  destruct (filter (fun c => negb (blank c)) (contents fs filePaths)) as [|c rest];
    [reflexivity|].
  inversion Hall as [|c' rest' Hc Hrest]; subst.
  cbn [fold_left]. unfold add_section at 2. cbn [falsy].
  rewrite fold_add_section; [|exact Hrest|now apply blank_falsy].
  destruct rest; reflexivity.
Qed.

(** C9: [mergeMarkdownChain] passes over the paths at which nothing is
    and over the files that hold white space only, wherever they stand in
    the list; when two files are left, holding [a] and [c], it returns
    [a] without its trailing white space, then the separator (a blank
    line, three dashes, a blank line), then [c] without its leading white
    space, and leaves the disk as it was.  So for three files holding
    "# A", white space only, and "# C", in that order, it returns "# A",
    the separator and "# C". *)
Theorem C9_mergeMarkdownChain_three_files :
  (forall (fs : FS) (filePaths : list path) (a c : string),
      (forall p n, In p filePaths -> lookup p (Some fs) = Some n ->
                   is_file n = true) ->
      filter (fun t => negb (blank t)) (contents fs filePaths) = [a; c] ->
      mergeMarkdownChain filePaths fs
      = Done (trimEnd a ++ SEPARATOR ++ trimStart c)%string fs)
  /\
  (forall (fs : FS) (a b c : path) (w : string),
      readText_fs a fs = OK "# A" ->
      readText_fs b fs = OK w ->
      blank w = true ->
      readText_fs c fs = OK "# C" ->
      mergeMarkdownChain [a; b; c] fs
      = Done ("# A" ++ LF ++ LF ++ "---" ++ LF ++ LF ++ "# C")%string fs).
Proof.
  split.
  - intros fs filePaths a c Hfiles Hleft.
    rewrite (mergeMarkdownChain_joined fs filePaths Hfiles), Hleft. reflexivity.
  - intros fs a b c w Ha Hb Hw Hc.
    unfold mergeMarkdownChain.
    rewrite (mergeMarkdownChain_from_cons _ _ _ _ _ Ha).
    change (falsy (trim "# A")) with false. change (falsy "") with true. cbv iota.
    rewrite (mergeMarkdownChain_from_cons _ _ _ _ _ Hb).
    unfold blank in Hw. rewrite Hw. cbv iota.
    rewrite (mergeMarkdownChain_from_cons _ _ _ _ _ Hc).
    reflexivity.
Qed.

Lemma C9_mergeMarkdownChain_three_files_witness :
  mergeMarkdownChain [["a.md"]; ["gone.md"]; ["b.md"]; ["c.md"]; ["d.md"]]
    (Dir [("a.md", File ("# A  " ++ LF)%string);
          ("b.md", File ("   " ++ LF ++ LF ++ "   ")%string);
          ("c.md", File (String (ascii_of_nat 194) (String (ascii_of_nat 160) "")));
          ("d.md", File (LF ++ "  # C")%string)])
  = Done ("# A" ++ LF ++ LF ++ "---" ++ LF ++ LF ++ "# C")%string
      (Dir [("a.md", File ("# A  " ++ LF)%string);
            ("b.md", File ("   " ++ LF ++ LF ++ "   ")%string);
            ("c.md", File (String (ascii_of_nat 194) (String (ascii_of_nat 160) "")));
            ("d.md", File (LF ++ "  # C")%string)])
  /\ mergeMarkdownChain [["a.md"]; ["b.md"]; ["c.md"]]
       (Dir [("a.md", File "# A");
             ("b.md", File ("   " ++ LF ++ LF ++ "   ")%string);
             ("c.md", File "# C")])
     = Done ("# A" ++ LF ++ LF ++ "---" ++ LF ++ LF ++ "# C")%string
         (Dir [("a.md", File "# A");
               ("b.md", File ("   " ++ LF ++ LF ++ "   ")%string);
               ("c.md", File "# C")]).
Proof.
  split.
  - apply (proj1 C9_mergeMarkdownChain_three_files
             (Dir [("a.md", File ("# A  " ++ LF)%string);
                   ("b.md", File ("   " ++ LF ++ LF ++ "   ")%string);
                   ("c.md", File (String (ascii_of_nat 194)
                                    (String (ascii_of_nat 160) "")));
                   ("d.md", File (LF ++ "  # C")%string)])
             [["a.md"]; ["gone.md"]; ["b.md"]; ["c.md"]; ["d.md"]]
             ("# A  " ++ LF)%string (LF ++ "  # C")%string).
    + intros p n [<-|[<-|[<-|[<-|[<-|[]]]]]] H; vm_compute in H;
        try discriminate; now injection H as <-.
    + reflexivity.
  - apply (proj2 C9_mergeMarkdownChain_three_files _ ["a.md"] ["b.md"] ["c.md"]
             ("   " ++ LF ++ LF ++ "   ")%string); reflexivity.
Defined.

(** What [mergeMarkdownChain] returns for paths none of which is a
    directory or a link: missing files and files holding only white space
    do not count; a single file that counts is returned as it is, not
    trimmed; of several, the first is trimmed at its end, the last at its
    start, those in between on both sides, and the separator stands
    between them.  The disk is left as it was. *)
Theorem mergeMarkdownChain_closed_form
        (fs : FS) (filePaths : list path)
        (Hfiles : forall p n, In p filePaths -> lookup p (Some fs) = Some n ->
                              is_file n = true) :
  mergeMarkdownChain filePaths fs
  = Done (joined (filter (fun c => negb (blank c)) (contents fs filePaths))) fs.
Proof. exact (mergeMarkdownChain_joined fs filePaths Hfiles). Qed.

Lemma mergeMarkdownChain_closed_form_witness :
  mergeMarkdownChain [["a.md"]; ["gone.md"]; ["b.md"]; ["c.md"]; ["d.md"]]
    (Dir [("a.md", File (" # A " ++ LF)%string);
          ("b.md", File (LF ++ " # B " ++ LF)%string);
          ("c.md", File ("  " ++ LF)%string);
          ("d.md", File (LF ++ "# D " ++ LF)%string)])
  = Done (" # A" ++ SEPARATOR ++ "# B" ++ SEPARATOR ++ "# D " ++ LF)%string
      (Dir [("a.md", File (" # A " ++ LF)%string);
            ("b.md", File (LF ++ " # B " ++ LF)%string);
            ("c.md", File ("  " ++ LF)%string);
            ("d.md", File (LF ++ "# D " ++ LF)%string)]).
Proof.
  rewrite (mergeMarkdownChain_closed_form
             (Dir [("a.md", File (" # A " ++ LF)%string);
                   ("b.md", File (LF ++ " # B " ++ LF)%string);
                   ("c.md", File ("  " ++ LF)%string);
                   ("d.md", File (LF ++ "# D " ++ LF)%string)])
             [["a.md"]; ["gone.md"]; ["b.md"]; ["c.md"]; ["d.md"]]).
  - reflexivity.
  - intros p n [<-|[<-|[<-|[<-|[<-|[]]]]]] H; vm_compute in H;
      try discriminate; now injection H as <-.
Defined.

(** [mergeMarkdownFiles] on a parent and a child is [mergeMarkdownChain]
    on the two paths in that order, as long as neither file holds white
    space only: the same text, the same exception when a path is a
    directory or a link, and the disk untouched.  (The two differ on a
    file of white space only, which the chain passes over and the
    two-file merge keeps as a section.) *)
Theorem mergeMarkdownFiles_as_chain
        (fs : FS) (parentPath childPath : path)
        (Hparent : forall c, lookup parentPath (Some fs) = Some (File c) ->
                             blank c = true -> c = "")
        (Hchild : forall c, lookup childPath (Some fs) = Some (File c) ->
                            blank c = true -> c = "") :
  mergeMarkdownFiles parentPath childPath fs
  = mergeMarkdownChain [parentPath; childPath] fs.
Proof.
  assert (forall c, (forall c', Some (File c) = Some (File c') ->
                                blank c' = true -> c' = "") ->
                    falsy (trim c) = falsy c) as Hb.
  { intros c H. destruct c as [|a c]; [reflexivity|].
    fold (blank (String a c)). destruct (blank (String a c)) eqn:B; [|reflexivity].
    specialize (H _ eq_refl B). discriminate. }
  cbv [mergeMarkdownFiles mergeMarkdownChain mergeMarkdownChain_from bind
       pathExistsM reads pathExists readText reads_res readText_fs ret negb].
  destruct (lookup parentPath (Some fs)) as [[c1|l1|e1]|] eqn:E1;
    destruct (lookup childPath (Some fs)) as [[c2|l2|e2]|] eqn:E2;
    try pose proof (Hb _ Hparent) as B1; try pose proof (Hb _ Hchild) as B2;
    try (destruct c1 as [|a1 c1]); try (destruct c2 as [|a2 c2]);
    repeat (cbv beta iota; cbn [falsy andb] in *;
            try rewrite E1; try rewrite E2; try rewrite B1; try rewrite B2);
    reflexivity.
Qed.

Lemma mergeMarkdownFiles_as_chain_witness :
  mergeMarkdownFiles ["far.md"] ["near.md"]
    (Dir [("far.md", File ("# Far" ++ LF)%string); ("near.md", File "# Near")])
  = Done ("# Far" ++ SEPARATOR ++ "# Near")%string
      (Dir [("far.md", File ("# Far" ++ LF)%string); ("near.md", File "# Near")]).
Proof.
  rewrite (mergeMarkdownFiles_as_chain
             (Dir [("far.md", File ("# Far" ++ LF)%string); ("near.md", File "# Near")])
             ["far.md"] ["near.md"]).
  - reflexivity.
  - intros c H B. vm_compute in H. injection H as <-. discriminate B.
  - intros c H B. vm_compute in H. injection H as <-. discriminate B.
Defined.

(** On a file of white space only the two merges part: the chain passes
    over it, the two-file merge keeps it as a section. *)
Lemma mergeMarkdownFiles_keeps_blank_section :
  mergeMarkdownFiles ["far.md"] ["near.md"]
    (Dir [("far.md", File " "); ("near.md", File "# Near")])
  = Done (SEPARATOR ++ "# Near")%string
      (Dir [("far.md", File " "); ("near.md", File "# Near")])
  /\ mergeMarkdownChain [["far.md"]; ["near.md"]]
       (Dir [("far.md", File " "); ("near.md", File "# Near")])
     = Done "# Near" (Dir [("far.md", File " "); ("near.md", File "# Near")]).
Proof. split; reflexivity. Qed.

(* ===================================================================== *)
(** ** Directory resources, further *)

Lemma monotone_Done {A} (m : M A) (fs fs' : FS) (a : A) :
  monotone m -> m fs = Done a fs' -> grows fs fs'.
Proof. intros Hm E. specialize (Hm fs). now rewrite E in Hm. Qed.

(** Under [extend], the two-directory merge of the resource of a parent
    root and of a child root into the merge directory of the child is the
    chain merge over the two roots, child first: the same disk in the
    end, the same exception if a copy fails. *)
Theorem mergeDirectory_as_chain
        (fuel : nat) (parentRoot childRoot : path) (R : string)
        (included : option (list string)) (fs : FS)
        (Hparent : pathExists fs (join parentRoot R) = true)
        (Hchild : pathExists fs (join childRoot R) = true) :
  let mergedDir := join (join childRoot MERGED_DIR) R in
  mergeDirectoryChain fuel
    (MkMergeChain [childRoot; parentRoot] childRoot R extend included) fs
  = (mergeDirectory fuel
       (MkMergeDirectory (join parentRoot R) (join childRoot R) mergedDir extend) ;;
     ret (Some mergedDir)) fs.
Proof.
  intros mergedDir.
  unfold mergeDirectoryChain, mergeDirectory.
  cbn [behavior agentsPaths currentRoot resource map md_behavior parentDir
       childDir outputDir].
  unfold bind at 1. rewrite existing_filter. cbn [filter].
  rewrite Hchild, Hparent. cbn [rev app for_each]. fold mergedDir.
  unfold bind, pathExistsM, reads, ret.
  destruct (ensureDir mergedDir fs) as [[] fs1|e fs1|] eqn:E0; try reflexivity.
  pose proof (monotone_Done _ _ _ _ (monotone_ensureDir mergedDir) E0) as G1.
  rewrite (G1 _ Hparent).
  destruct (copyDirectoryContents fuel (join parentRoot R) mergedDir fs1)
    as [[] fs2|e fs2|] eqn:E1; try reflexivity.
  pose proof (monotone_Done _ _ _ _
                (monotone_copyDirectoryContents fuel _ _) E1) as G2.
  rewrite (G2 _ (G1 _ Hchild)).
  destruct (copyDirectoryContents fuel (join childRoot R) mergedDir fs2)
    as [[] fs3|e fs3|]; reflexivity.
Qed.

Lemma mergeDirectory_as_chain_witness :
  (mergeDirectory 4
     (MkMergeDirectory (Examples.monoRoot ++ ["skills"]) (Examples.pkgRoot ++ ["skills"])
                       Examples.mergedSkills extend) ;;
   ret (Some Examples.mergedSkills)) Examples.layeredDisk
  = Done (Some Examples.mergedSkills) Examples.layeredResult.
Proof.
  exact (eq_trans
           (eq_sym (mergeDirectory_as_chain 4 Examples.monoRoot Examples.pkgRoot
                      "skills" None Examples.layeredDisk eq_refl eq_refl))
           eq_refl).
Defined.

Lemma first_existing_find (candidates : list path) (fs : FS) :
  first_existing candidates fs = Done (find (pathExists fs) candidates) fs.
Proof.
  induction candidates as [|c rest IH]; [reflexivity|].
  cbn [first_existing find]. unfold bind, pathExistsM, reads.
  destruct (pathExists fs c); [reflexivity|exact IH].
Qed.

Lemma find_hd_filter {A} (f : A -> bool) (l : list A) :
  find f l = hd_error (filter f l).
Proof.
  induction l as [|a l IH]; [reflexivity|]. simpl. now destruct (f a).
Qed.

(** A resource is resolved without writing anything unless two or more
    roots contribute under [extend] (or items are composed): [override]
    answers the directory of the current root when it exists and ignores
    the chain; [inherit] answers the directory of the nearest root that
    has one; [extend] with fewer than two contributing roots answers as
    [inherit] does.  In each case the answer is [null] exactly when no
    directory qualifies, and the disk is left as it was. *)
Theorem resolution_without_merge
        (fuel : nat) (chain : list path) (cur : path) (R : string)
        (included : option (list string)) (fs : FS) :
  let dirs := filter (pathExists fs) (map (fun p => join p R) chain) in
  mergeDirectoryChain fuel (MkMergeChain chain cur R override included) fs
  = Done (if pathExists fs (join cur R) then Some (join cur R) else None) fs
  /\ mergeDirectoryChain fuel (MkMergeChain chain cur R inherit included) fs
     = Done (hd_error dirs) fs
  /\ (List.length dirs <= 1 ->
      mergeDirectoryChain fuel (MkMergeChain chain cur R extend included) fs
      = Done (hd_error dirs) fs).
Proof.
  intros dirs. split; [reflexivity|]. split.
  - unfold mergeDirectoryChain. cbn [behavior agentsPaths resource].
    rewrite first_existing_find. now rewrite find_hd_filter.
  - intros Hlen. unfold mergeDirectoryChain. cbn [behavior agentsPaths resource].
    unfold bind. rewrite existing_filter. fold dirs.
    destruct dirs as [|d [|d' rest]]; try reflexivity. simpl in Hlen. lia.
Qed.

Lemma resolution_without_merge_witness :
  mergeDirectoryChain 0
    (MkMergeChain [Examples.pkgRoot; Examples.monoRoot] Examples.pkgRoot
                  "commands" extend None)
    (Dir [("w", Dir [("mono", Dir [(".agents", Dir [("commands", Dir [])]);
                                   ("pkg", Dir [(".agents", Dir [])])])])])
  = Done (Some (Examples.monoRoot ++ ["commands"]))
      (Dir [("w", Dir [("mono", Dir [(".agents", Dir [("commands", Dir [])]);
                                     ("pkg", Dir [(".agents", Dir [])])])])]).
Proof.
  apply (proj2 (proj2 (resolution_without_merge 0
                         [Examples.pkgRoot; Examples.monoRoot] Examples.pkgRoot
                         "commands" None
                         (Dir [("w", Dir [("mono", Dir [(".agents", Dir [("commands", Dir [])]);
                                     ("pkg", Dir [(".agents", Dir [])])])])])))).
  vm_compute. lia.
Defined.

Lemma find_in_parents_none (R item : string) (parents : list path) (fs : FS) :
  (forall parent, In parent parents ->
     pathExists fs (join (join parent R) (clean_name item)) = false) ->
  find_in_parents R item parents fs = Done [] fs.
Proof.
  induction parents as [|parent rest IH]; intros Hnone; [reflexivity|].
  cbn [find_in_parents]. unfold bind, pathExistsM, reads.
  destruct (pathExists fs (join parent R)); cbn [negb].
  - fold (clean_name item). rewrite (Hnone parent) by now left.
    apply IH. intros p Hp. apply Hnone. now right.
  - apply IH. intros p Hp. apply Hnone. now right.
Qed.

Lemma collect_items_none (R : string) (parents : list path) (items : list string)
      (fs : FS) :
  (forall item parent, In item items -> In parent parents ->
     pathExists fs (join (join parent R) (clean_name item)) = false) ->
  collect_items R parents items fs = Done [] fs.
Proof.
  induction items as [|item rest IH]; intros Hnone; [reflexivity|].
  cbn [collect_items]. unfold bind.
  rewrite find_in_parents_none by (intros p Hp; apply Hnone; [now left|exact Hp]).
  rewrite IH by (intros i p Hi Hp; apply Hnone; [now right|exact Hp]).
  reflexivity.
Qed.

(** Under [compose], with an include list of plain names (each names one
    entry of a resource directory, a trailing slash apart), items that no
    parent root holds are passed over without an error.  When none of the
    listed items is found (in particular when the list is empty or
    absent), nothing is merged and nothing is written: the answer is the
    directory of the current root when it exists and [null] otherwise.
    The current root is never searched for the listed items, even when it
    is on the chain. *)
Theorem compose_without_found_items
        (fuel : nat) (chain : list path) (cur : path) (R : string)
        (included : option (list string)) (fs : FS)
        (Hplain : forall item, In item (or_else included []) ->
                               plain_name (clean_name item) = true)
        (Hnone : forall item parent,
            In item (or_else included []) -> In parent chain -> parent <> cur ->
            pathExists fs (join (join parent R) (clean_name item)) = false) :
  mergeDirectoryChain fuel (MkMergeChain chain cur R compose included) fs
  = Done (if pathExists fs (join cur R) then Some (join cur R) else None) fs.
Proof.
  unfold mergeDirectoryChain.
  cbn [behavior agentsPaths currentRoot resource includeList].
  unfold mergeCompose, bind at 1, pathExistsM at 1, reads.
  destruct (or_else included []) as [|item items] eqn:Ei.
  - destruct (pathExists fs (join cur R)); reflexivity.
  - cbn [is_nil andb]. unfold bind at 1.
    rewrite collect_items_none.
    + destruct (pathExists fs (join cur R)); reflexivity.
    + intros i p Hi Hp. apply filter_In in Hp as [Hp Hne].
      apply Hnone; [exact Hi|exact Hp|].
      apply negb_true_iff in Hne. now apply path_eqb_neq.
Qed.

Lemma compose_without_found_items_witness :
  mergeDirectoryChain 0
    (MkMergeChain [Examples.pkgRoot; Examples.monoRoot] Examples.pkgRoot
                  "commands" compose (Some ["local.md"; "absent/"]))
    (Examples.composeDisk "make" "ship" "lint" "compose")
  = Done (Some (Examples.pkgRoot ++ ["commands"]))
      (Examples.composeDisk "make" "ship" "lint" "compose").
Proof.
  apply (compose_without_found_items 0 [Examples.pkgRoot; Examples.monoRoot]
           Examples.pkgRoot "commands" (Some ["local.md"; "absent/"])
           (Examples.composeDisk "make" "ship" "lint" "compose")).
  - intros item [<-|[<-|[]]]; reflexivity.
  - intros item parent [<-|[<-|[]]] [<-|[<-|[]]] Hne; try reflexivity;
      now contradiction Hne.
Defined.

(* ===================================================================== *)
(** ** The instruction file of a chain *)

Lemma instructions_of_on_disk (root : path) (fs : FS) :
  instructions_of root fs = Done (hd_error (instruction_files fs [root])) fs.
Proof.
  cbv [instructions_of bind pathExistsM reads ret instruction_files flat_map].
  destruct (pathExists fs (join root "CLAUDE.md")); [reflexivity|].
  destruct (pathExists fs (join root "AGENTS.md")); reflexivity.
Qed.

Lemma instruction_files_cons (fs : FS) (root : path) (rest : list path) :
  instruction_files fs (root :: rest)
  = instruction_files fs [root] ++ instruction_files fs rest.
Proof. unfold instruction_files. cbn [flat_map]. now rewrite app_nil_r. Qed.

Lemma instruction_files_one (fs : FS) (root : path) :
  instruction_files fs [root] = []
  \/ exists f, instruction_files fs [root] = [f].
Proof.
  cbv [instruction_files flat_map].
  destruct (pathExists fs (join root "CLAUDE.md")); [right; eexists; reflexivity|].
  destruct (pathExists fs (join root "AGENTS.md")); [right; eexists; reflexivity|].
  now left.
Qed.

Lemma first_instructions_on_disk (roots : list path) (fs : FS) :
  first_instructions roots fs = Done (hd_error (instruction_files fs roots)) fs.
Proof.
  induction roots as [|root rest IH]; [reflexivity|].
  cbn [first_instructions]. unfold bind. rewrite instructions_of_on_disk.
  rewrite (instruction_files_cons fs root rest).
  destruct (instruction_files_one fs root) as [E|[f E]]; rewrite E;
    [exact IH|reflexivity].
Qed.

Lemma all_instructions_on_disk (roots : list path) (fs : FS) :
  all_instructions roots fs = Done (instruction_files fs roots) fs.
Proof.
  induction roots as [|root rest IH]; [reflexivity|].
  cbn [all_instructions]. unfold bind. rewrite instructions_of_on_disk, IH.
  rewrite (instruction_files_cons fs root rest).
  destruct (instruction_files_one fs root) as [E|[f E]]; rewrite E; reflexivity.
Qed.

(** The instruction file is resolved without writing anything unless two
    or more roots contribute a file under a merging behaviour.  In each
    root [CLAUDE.md] comes before [AGENTS.md], and a root that has both
    contributes [CLAUDE.md] only.  [override] answers the file of the
    current root and ignores the chain; [inherit] answers the file of the
    nearest root that has one; [extend] (and [compose], which the
    instruction file treats as [extend]) answers as [inherit] does when
    fewer than two roots contribute. *)
Theorem instruction_file_without_merge
        (chain : list path) (cur : path) (fs : FS) :
  let files := instruction_files fs chain in
  mergeAgentsMd chain cur override fs
  = Done (hd_error (instruction_files fs [cur])) fs
  /\ mergeAgentsMd chain cur inherit fs = Done (hd_error files) fs
  /\ (List.length files <= 1 ->
      mergeAgentsMd chain cur extend fs = Done (hd_error files) fs
      /\ mergeAgentsMd chain cur compose fs = Done (hd_error files) fs).
Proof.
  intros files. split; [apply instructions_of_on_disk|].
  split; [apply first_instructions_on_disk|].
  intros Hlen. unfold mergeAgentsMd, bind. rewrite all_instructions_on_disk.
  fold files. destruct files as [|f [|f' rest]]; try (split; reflexivity).
  simpl in Hlen. lia.
Qed.

Lemma instruction_file_without_merge_witness :
  mergeAgentsMd [Examples.agentsRoot] Examples.agentsRoot extend Examples.overrideDisk
  = Done (Some (Examples.agentsRoot ++ ["CLAUDE.md"])) Examples.overrideDisk.
Proof.
  apply (proj2 (proj2 (instruction_file_without_merge
                         [Examples.agentsRoot] Examples.agentsRoot
                         Examples.overrideDisk))).
  vm_compute. lia.
Defined.

Lemma alter_child_ok (mk : bool) (f : option node -> res (option node))
      (d : path) (s : string) (fs : FS) (es : list (string * node))
      (x : option node) :
  lookup d (Some fs) = Some (Dir es) -> f (assoc s es) = OK x ->
  exists fs', alter mk f (join d s) (Some fs) = OK (Some fs')
              /\ lookup d (Some fs') = Some (Dir (put s x es)).
Proof.
  intros Hd Hf. unfold join.
  assert (alter mk f [s] (Some (Dir es)) = OK (Some (Dir (put s x es)))) as Hs
      by (rewrite alter_single, Hf; reflexivity).
  destruct (alter_at_existing mk (alter mk f [s]) d (Some fs) (Dir es) _ Hd Hs)
    as [n' Hn'].
  rewrite alter_app.
  pose proof (lookup_alter _ _ _ _ _ Hn') as Hl. rewrite Hd, Hs in Hl.
  destruct n' as [fs'|].
  - exists fs'. split; [exact Hn'|]. now injection Hl as <-.
  - rewrite lookup_None in Hl. discriminate.
Qed.

(** When two or more roots contribute an instruction file under [extend],
    the resolution writes [<current>/merged/AGENTS.md] and answers that
    path.  The file holds the contributed files merged farthest root
    first, so that the text of the current root comes last; what else the
    merge directory held stays.  The resolution returns whenever the
    current root is a directory, the contributed files are regular files,
    and nothing but a directory is at [<current>/merged] and nothing but
    a regular file at [<current>/merged/AGENTS.md]. *)
Theorem instruction_file_merged
        (chain : list path) (cur : path) (fs : FS) (es : list (string * node))
        (Hcount : 2 <= List.length (instruction_files fs chain))
        (Hregular : forall p n, In p (instruction_files fs chain) ->
                                lookup p (Some fs) = Some n -> is_file n = true)
        (Hcur : lookup cur (Some fs) = Some (Dir es))
        (Hmerged : forall n, lookup (join cur MERGED_DIR) (Some fs) = Some n ->
                             is_dir n = true)
        (Hfile : forall n, lookup (join (join cur MERGED_DIR) "AGENTS.md") (Some fs)
                           = Some n -> is_file n = true) :
  let mergedPath := join (join cur MERGED_DIR) "AGENTS.md" in
  let content :=
    joined (filter (fun c => negb (blank c))
                   (contents fs (rev (instruction_files fs chain)))) in
  exists fs',
    mergeAgentsMd chain cur extend fs = Done (Some mergedPath) fs'
    /\ lookup mergedPath (Some fs') = Some (File content)
    /\ (forall s, s <> "AGENTS.md" ->
                  lookup (join (join cur MERGED_DIR) s) (Some fs')
                  = lookup (join (join cur MERGED_DIR) s) (Some fs))
    /\ (forall q, apart (join cur MERGED_DIR) q = true ->
                  lookup q (Some fs') = lookup q (Some fs)).
Proof.
  intros mergedPath content.
  assert (content = joined (filter (fun c => negb (blank c))
                     (contents fs (rev (instruction_files fs chain))))) as Hc
      by reflexivity.
  clearbody content.
  unfold mergeAgentsMd, bind. rewrite all_instructions_on_disk.
  destruct (instruction_files fs chain) as [|f1 [|f2 files]] eqn:Ef;
    [simpl in Hcount; lia|simpl in Hcount; lia|].
  rewrite <- Ef in *. rewrite mergeMarkdownChain_joined.
  2:{ intros p n Hp. apply Hregular. now apply in_rev. }
  rewrite <- Hc. fold mergedPath.
  unfold mergedPath at 1. rewrite dirname_join.
  (* the merge directory *)
  assert (exists ms, ensureDir_slot (assoc MERGED_DIR es) = OK (Some (Dir ms))
                     /\ forall s, assoc s ms
                                  = lookup (join (join cur MERGED_DIR) s) (Some fs))
    as [ms [Hms Hentries]].
  { pose proof (lookup_join cur MERGED_DIR fs es Hcur) as Hj.
    destruct (assoc MERGED_DIR es) as [[c|l|ds]|] eqn:Ea.
    - specialize (Hmerged _ Hj). discriminate.
    - specialize (Hmerged _ Hj). discriminate.
    - exists ds. split; [reflexivity|]. intros s.
      change (join (join cur MERGED_DIR) s) with (join cur MERGED_DIR ++ [s]).
      now rewrite lookup_app, Hj.
    - exists []. split; [reflexivity|]. intros s.
      change (join (join cur MERGED_DIR) s) with (join cur MERGED_DIR ++ [s]).
      now rewrite lookup_app, Hj. }
  destruct (alter_child_ok true ensureDir_slot cur MERGED_DIR fs es _ Hcur Hms)
    as [fs1 [Ha1 Hl1]].
  rewrite (ensureDir_Done _ _ _ Ha1).
  assert (lookup (join cur MERGED_DIR) (Some fs1) = Some (Dir ms)) as Hm1.
  { rewrite (lookup_join cur MERGED_DIR fs1 _ Hl1). apply assoc_put_same. }
  (* the merged file *)
  assert (writeFile_slot content (assoc "AGENTS.md" ms) = OK (Some (File content)))
    as Hw.
  { rewrite Hentries.
    destruct (lookup (join (join cur MERGED_DIR) "AGENTS.md") (Some fs))
      as [[c|l|ds]|] eqn:El; try reflexivity.
    - specialize (Hfile _ eq_refl). discriminate.
    - specialize (Hfile _ eq_refl). discriminate. }
  destruct (alter_child_ok false (writeFile_slot content) (join cur MERGED_DIR)
              "AGENTS.md" fs1 ms _ Hm1 Hw) as [fs2 [Ha2 Hl2]].
  exists fs2.
  unfold writeText, writes, writeText_fs, alterFS. fold mergedPath in Ha2.
  rewrite Ha2. split; [reflexivity|].
  split; [|split].
  - unfold mergedPath. rewrite (lookup_join _ "AGENTS.md" fs2 _ Hl2).
    apply assoc_put_same.
  - intros s Hs. rewrite (lookup_join _ s fs2 _ Hl2).
    rewrite assoc_put_other by congruence. apply Hentries.
  - intros q Hq.
    rewrite (lookup_alter_apart _ _ mergedPath q _ _ Ha2).
    + apply (lookup_alter_apart _ _ _ q _ _ Ha1 Hq).
    + unfold mergedPath, join. rewrite <- (app_nil_r q). now apply apart_app.
Qed.

Lemma instruction_file_merged_witness :
  exists fs',
    mergeAgentsMd [Examples.pkgRoot; Examples.monoRoot] Examples.pkgRoot extend
      Scenes.instructionsDisk
    = Done (Some (Examples.pkgRoot ++ ["merged"; "AGENTS.md"])) fs'
    /\ lookup (Examples.pkgRoot ++ ["merged"; "AGENTS.md"]) (Some fs')
       = Some (File ("# Mono" ++ SEPARATOR ++ "# Pkg")%string).
Proof.
  destruct (instruction_file_merged [Examples.pkgRoot; Examples.monoRoot]
              Examples.pkgRoot Scenes.instructionsDisk
              [("CLAUDE.md", File "# Pkg"); ("AGENTS.md", File "# Unused")])
    as [fs' [Hdone [Hfile _]]].
  - vm_compute. lia.
  - intros p n [<-|[<-|[]]] H; vm_compute in H; now injection H as <-.
  - reflexivity.
  - intros n H. vm_compute in H. discriminate.
  - intros n H. vm_compute in H. discriminate.
  - exists fs'. split; [exact Hdone|exact Hfile].
Defined.

(* ===================================================================== *)
(** ** The sources of the chain mappings *)

Lemma bind_Done {A B} (m : M A) (k : A -> M B) (fs fs' : FS) (b : B) :
  bind m k fs = Done b fs' ->
  exists a fs1, m fs = Done a fs1 /\ k a fs1 = Done b fs'.
Proof.
  unfold bind. destruct (m fs) as [a fs1|e fs1|]; try discriminate.
  intros H. now exists a, fs1.
Qed.

Lemma ret_Done {A} (a b : A) (fs fs' : FS) :
  ret a fs = Done b fs' -> a = b /\ fs = fs'.
Proof. unfold ret. intros H. injection H as -> ->. now split. Qed.

Lemma ensureDir_exists (p : path) (fs fs' : FS) :
  ensureDir p fs = Done tt fs' -> pathExists fs' p = true.
Proof.
  unfold ensureDir, writes, ensureDir_fs, alterFS.
  destruct (alter true ensureDir_slot p (Some fs)) as [[n|]|e] eqn:Ea;
    try discriminate.
  intros H. injection H as <-. apply lookup_alter in Ea.
  unfold pathExists.
  destruct (lookup p (Some fs)) as [[c|l|es]|]; simpl in Ea; try discriminate;
    injection Ea as <-; reflexivity.
Qed.

Lemma writeText_exists (p : path) (c : string) (fs fs' : FS) :
  writeText p c fs = Done tt fs' -> lookup p (Some fs') = Some (File c).
Proof.
  unfold writeText, writes, writeText_fs, alterFS.
  destruct (alter false (writeFile_slot c) p (Some fs)) as [[n|]|e] eqn:Ea;
    try discriminate.
  intros H. injection H as <-. apply lookup_alter in Ea.
  destruct (lookup p (Some fs)) as [[c0|l|es]|]; simpl in Ea; try discriminate;
    now injection Ea as <-.
Qed.

Lemma instruction_files_exist (fs : FS) (roots : list path) (p : path) :
  In p (instruction_files fs roots) -> pathExists fs p = true.
Proof.
  unfold instruction_files. rewrite in_flat_map. intros [root [_ Hp]].
  destruct (pathExists fs (join root "CLAUDE.md")) eqn:E1.
  - destruct Hp as [<-|[]]. exact E1.
  - destruct (pathExists fs (join root "AGENTS.md")) eqn:E2; [|contradiction].
    destruct Hp as [<-|[]]. exact E2.
Qed.

Lemma hd_error_In {A} (l : list A) (a : A) : hd_error l = Some a -> In a l.
Proof. destruct l; [discriminate|]. intros H. injection H as ->. now left. Qed.

Lemma mergeAgentsMd_source_exists (chain : list path) (cur : path)
      (b : ExtendBehavior) (fs fs' : FS) (src : path) :
  mergeAgentsMd chain cur b fs = Done (Some src) fs' ->
  pathExists fs' src = true.
Proof.
  assert (mergeAgentsMd chain cur extend fs = Done (Some src) fs' ->
          pathExists fs' src = true) as Hext.
  { unfold mergeAgentsMd. intros H.
    apply bind_Done in H as [files [fs1 [Hf H]]].
    rewrite all_instructions_on_disk in Hf. injection Hf as <- <-.
    destruct (instruction_files fs chain) as [|f1 [|f2 files]] eqn:Ef.
    - discriminate.
    - apply ret_Done in H as [H <-]. injection H as <-.
      apply (instruction_files_exist fs chain). rewrite Ef. now left.
    - apply bind_Done in H as [content [fs1 [_ H]]].
      apply bind_Done in H as [[] [fs2 [_ H]]].
      apply bind_Done in H as [[] [fs3 [Hw H]]].
      apply ret_Done in H as [H <-]. injection H as <-.
      unfold pathExists. now rewrite (writeText_exists _ _ _ _ Hw). }
  destruct b; intros H.
  - unfold mergeAgentsMd in H. rewrite first_instructions_on_disk in H.
    injection H as H <-. apply hd_error_In in H.
    now apply (instruction_files_exist fs chain).
  - unfold mergeAgentsMd in H. rewrite instructions_of_on_disk in H.
    injection H as H <-. apply hd_error_In in H.
    now apply (instruction_files_exist fs [cur]).
  - now apply Hext.
  - now apply Hext.
Qed.

Lemma mergeDirectoryChain_source_exists (fuel : nat) (opts : MergeChainOptions)
      (fs fs' : FS) (src : path) :
  mergeDirectoryChain fuel opts fs = Done (Some src) fs' ->
  pathExists fs' src = true.
Proof.
  unfold mergeDirectoryChain. destruct (behavior opts); intros H.
  - rewrite first_existing_find in H. injection H as H <-.
    now apply find_some in H.
  - cbv [bind pathExistsM reads ret] in H.
    destruct (pathExists fs (join (currentRoot opts) (resource opts))) eqn:E;
      [|discriminate].
    now injection H as <- <-.
  - apply bind_Done in H as [dirs [fs1 [Hd H]]].
    rewrite existing_filter in Hd. injection Hd as <- <-.
    destruct (filter (pathExists fs) _) as [|d1 [|d2 dirs]] eqn:Ef.
    + discriminate.
    + apply ret_Done in H as [H <-]. injection H as <-.
      assert (In d1 (filter (pathExists fs)
                (map (fun p => join p (resource opts)) (agentsPaths opts))))
        as Hin by (rewrite Ef; now left).
      now apply filter_In in Hin.
    + apply bind_Done in H as [[] [fs1 [He H]]].
      apply bind_Done in H as [[] [fs2 [Hc H]]].
      apply ret_Done in H as [H <-]. injection H as <-.
      apply ensureDir_exists in He.
      refine (monotone_Done _ _ _ _ _ Hc _ He).
      apply monotone_for_each. intros d. apply monotone_copyDirectoryContents.
  - unfold mergeCompose in H.
    apply bind_Done in H as [currentExists [fs1 [Hc H]]].
    cbv [pathExistsM reads] in Hc. injection Hc as <- <-.
    set (currentDir := join (currentRoot opts) (resource opts)) in *.
    destruct (is_nil (or_else (includeList opts) [])
              && negb (pathExists fs currentDir)); [discriminate|].
    destruct (is_nil (or_else (includeList opts) []) && pathExists fs currentDir) eqn:E1.
    { apply ret_Done in H as [H <-]. injection H as <-.
      now apply andb_true_iff in E1. }
    apply bind_Done in H as [items [fs1 [Hi H]]].
    pose proof (monotone_Done _ _ _ _ (monotone_collect_items _ _ _) Hi) as G1.
    destruct (is_nil items && negb (pathExists fs currentDir)); [discriminate|].
    destruct (is_nil items && pathExists fs currentDir) eqn:E2.
    { apply ret_Done in H as [H <-]. injection H as <-.
      apply G1. now apply andb_true_iff in E2. }
    apply bind_Done in H as [[] [fs2 [He H]]].
    apply ensureDir_exists in He.
    apply bind_Done in H as [[] [fs3 [Hf H]]].
    apply bind_Done in H as [[] [fs4 [Hg H]]].
    apply ret_Done in H as [H <-]. injection H as <-.
    assert (grows fs2 fs3) as G3.
    { refine (monotone_Done _ _ _ _ _ Hf). apply monotone_for_each. intros item.
      apply monotone_bind; [apply monotone_reads_res|]. intros st.
      apply monotone_if; [apply monotone_copyDirectoryContents|apply monotone_copyFile]. }
    assert (grows fs3 fs4) as G4.
    { refine (monotone_Done _ _ _ _ _ Hg).
      apply monotone_if; [apply monotone_copyDirectoryContents|apply monotone_ret]. }
    apply G4, G3, He.
Qed.

Lemma monotone_resource_mapping (fuel : nat) (config : MonorepoConfig)
      (chain : list path) (cur : path) (r : ResourceName) (tgts : list path) :
  monotone (resource_mapping fuel config chain cur r tgts).
Proof.
  unfold resource_mapping. apply monotone_bind;
    [apply monotone_mergeDirectoryChain|intros; apply monotone_ret].
Qed.

Lemma resource_mapping_sources (fuel : nat) (config : MonorepoConfig)
      (chain : list path) (cur : path) (r : ResourceName) (tgts : list path)
      (fs fs' : FS) (ms : list Mapping) :
  resource_mapping fuel config chain cur r tgts fs = Done ms fs' ->
  forall m, In m ms -> pathExists fs' (source m) = true.
Proof.
  unfold resource_mapping. intros H.
  apply bind_Done in H as [src [fs1 [Hs H]]].
  apply ret_Done in H as [<- <-].
  destruct src as [src|]; intros m Hm; [destruct Hm as [<-|[]]|destruct Hm].
  exact (mergeDirectoryChain_source_exists _ _ _ _ _ Hs).
Qed.

(** Every mapping the chain builder returns has a source that exists on
    the disk the builder leaves: a resource no root holds gets no
    mapping.  For an empty chain the builder returns no mapping and
    leaves the disk as it was. *)
Theorem monorepo_mapping_sources_exist
        (env : Env) (yaml_load : string -> option MonorepoConfig)
        (fuel : nat) (opts : MonorepoMappingOptions) (fs fs' : FS)
        (mappings : list Mapping)
        (Hdone : getMonorepoMappings env yaml_load fuel opts fs = Done mappings fs') :
  (forall m, In m mappings -> pathExists fs' (source m) = true)
  /\ (getEffectiveChain (mm_chain opts) = [] -> mappings = [] /\ fs' = fs).
Proof.
  unfold getMonorepoMappings in Hdone.
  destruct (getEffectiveChain (mm_chain opts)) as [|first rest] eqn:Ec.
  { apply ret_Done in Hdone as [<- <-]. split; [intros m []|now split]. }
  split; [|discriminate].
  apply bind_Done in Hdone as [config [fs0 [Hc H]]].
  apply bind_Done in H as [src [fs1 [Hs H]]].
  apply bind_Done in H as [m1 [fs2 [H1 H]]].
  apply bind_Done in H as [m2 [fs3 [H2 H]]].
  apply bind_Done in H as [m3 [fs4 [H3 H]]].
  apply ret_Done in H as [<- <-].
  pose proof (monotone_Done _ _ _ _ (monotone_resource_mapping _ _ _ _ _ _) H1) as G1.
  pose proof (monotone_Done _ _ _ _ (monotone_resource_mapping _ _ _ _ _ _) H2) as G2.
  pose proof (monotone_Done _ _ _ _ (monotone_resource_mapping _ _ _ _ _ _) H3) as G3.
  intros m Hm. apply in_app_or in Hm as [Hm|Hm];
    [|apply in_app_or in Hm as [Hm|Hm]; [|apply in_app_or in Hm as [Hm|Hm]]].
  - apply G3, G2, G1.
    destruct src as [src|]; [|contradiction].
    pose proof (mergeAgentsMd_source_exists _ _ _ _ _ _ Hs) as He.
    unfold instructions_mappings in Hm.
    apply in_app_or in Hm as [Hm|Hm].
    + destruct (has (mm_clients opts) claude); [|contradiction].
      destruct Hm as [<-|[]]. exact He.
    + destruct (negb _); [|contradiction].
      destruct (is_nil _); [contradiction|].
      destruct Hm as [<-|[]]. exact He.
  - apply G3, G2. exact (resource_mapping_sources _ _ _ _ _ _ _ _ _ H1 m Hm).
  - apply G3. exact (resource_mapping_sources _ _ _ _ _ _ _ _ _ H2 m Hm).
  - exact (resource_mapping_sources _ _ _ _ _ _ _ _ _ H3 m Hm).
Qed.

Lemma monorepo_mapping_sources_exist_witness :
  exists ms fs',
    getMonorepoMappings Examples.pkgEnv Examples.yaml_of_compose 1
      Examples.pkgOptions (Examples.composeDisk "make" "ship" "lint" "compose")
    = Done ms fs'
    /\ map name ms = ["claude-md"; "commands"]
    /\ forall m, In m ms -> pathExists fs' (source m) = true.
Proof.
  destruct (getMonorepoMappings Examples.pkgEnv Examples.yaml_of_compose 1
              Examples.pkgOptions (Examples.composeDisk "make" "ship" "lint" "compose"))
    as [ms fs'|e fs'|] eqn:E; try (vm_compute in E; discriminate).
  exists ms, fs'. split; [reflexivity|]. split.
  - vm_compute in E. injection E as <- _. reflexivity.
  - exact (proj1 (monorepo_mapping_sources_exist Examples.pkgEnv
                    Examples.yaml_of_compose 1 Examples.pkgOptions _ _ _ E)).
Defined.

(* ===================================================================== *)
(** ** Cleaning the merge directory *)

Lemma lookup_below_dir (q r : path) (n x : option node) :
  lookup (q ++ r) n = x -> x <> None -> r <> [] ->
  exists es, lookup q n = Some (Dir es).
Proof.
  rewrite lookup_app. intros H Hx Hr.
  destruct (lookup q n) as [[c|l|es]|]; destruct r as [|s r];
    try congruence; simpl in H; try congruence.
  now exists es.
Qed.

(** The directories on the way to an altered slot are directories
    afterwards. *)
Lemma alter_keeps_way (mk : bool) (f : option node -> res (option node))
      (q r : path) (n n' : option node) (es : list (string * node)) :
  alter mk f (q ++ r) n = OK n' -> r <> [] -> lookup q n = Some (Dir es) ->
  exists es', lookup q n' = Some (Dir es').
Proof.
  intros Ha Hr Hq. rewrite alter_app in Ha.
  apply lookup_alter in Ha. rewrite Hq in Ha.
  destruct r as [|s r]; [congruence|]. cbn [alter] in Ha.
  destruct (alter mk f r (assoc s es)) as [c|e]; [|discriminate].
  cbn [res_bind] in Ha. injection Ha as Ha. eexists. symmetry. exact Ha.
Qed.

(** [cleanMergedDir] always returns.  It removes [<root>/merged] with all
    that is below it and touches nothing that lies apart from it; the
    root and the directories leading to it stay; on a disk without
    [<root>/merged] it changes nothing, so that cleaning twice is cleaning
    once. *)
Theorem cleanMergedDir_removes_only_the_merge_tree
        (agentsRoot : path) (fs : FS) :
  exists fs',
    cleanMergedDir agentsRoot fs = Done tt fs'
    /\ (forall q, is_prefix (getMergedDir agentsRoot) q = true ->
                  pathExists fs' q = false)
    /\ (forall q, apart (getMergedDir agentsRoot) q = true ->
                  lookup q (Some fs') = lookup q (Some fs))
    /\ (forall q, is_prefix q agentsRoot = true ->
                  pathExists fs' q = pathExists fs q)
    /\ (pathExists fs (getMergedDir agentsRoot) = false -> fs' = fs)
    /\ cleanMergedDir agentsRoot fs' = Done tt fs'.
Proof.
  assert (forall fs0, pathExists fs0 (getMergedDir agentsRoot) = false ->
            forall q, is_prefix (getMergedDir agentsRoot) q = true ->
                      pathExists fs0 q = false) as Hbelow.
  { intros fs0 H q Hq. apply is_prefix_app in Hq as [r ->].
    unfold pathExists in *. rewrite lookup_app.
    destruct (lookup (getMergedDir agentsRoot) (Some fs0)); [discriminate|].
    now rewrite lookup_None. }
  assert (forall fs0, pathExists fs0 (getMergedDir agentsRoot) = false ->
            cleanMergedDir agentsRoot fs0 = Done tt fs0) as Hnoop.
  { intros fs0 H. cbv [cleanMergedDir bind pathExistsM reads]. now rewrite H. }
  destruct (pathExists fs (getMergedDir agentsRoot)) eqn:E.
  - unfold pathExists in E.
    destruct (lookup (getMergedDir agentsRoot) (Some fs)) as [x|] eqn:El;
      [|discriminate].
    destruct (alter_delete (getMergedDir agentsRoot) (Some fs) x) as [fs' [Ha Hl]];
      [unfold getMergedDir, join; now destruct agentsRoot|exact El|].
    assert (pathExists fs' (getMergedDir agentsRoot) = false) as Hgone
        by (unfold pathExists; now rewrite Hl).
    exists fs'. split; [|split; [|split; [|split; [|split]]]].
    + cbv [cleanMergedDir bind pathExistsM reads rm_rf writes rm_rf_fs alterFS].
      unfold pathExists. rewrite El.
      cbv beta iota. unfold pathExists. rewrite El. cbv beta iota.
      now rewrite Ha.
    + now apply Hbelow.
    + intros q Hq. exact (lookup_alter_apart _ _ _ q _ _ Ha Hq).
    + intros q Hq. apply is_prefix_app in Hq as [r ->].
      unfold getMergedDir, join in Ha, El. rewrite <- app_assoc in Ha, El.
      destruct (lookup_below_dir q (r ++ [MERGED_DIR]) (Some fs) _ El)
        as [es Hes]; [discriminate|now destruct r|].
      destruct (alter_keeps_way _ _ q (r ++ [MERGED_DIR]) _ _ es Ha)
        as [es' Hes']; [now destruct r|exact Hes|].
      unfold pathExists. now rewrite Hes, Hes'.
    + discriminate.
    + now apply Hnoop.
  - exists fs. split; [now apply Hnoop|].
    split; [now apply Hbelow|]. split; [reflexivity|].
    split; [reflexivity|]. split; [reflexivity|now apply Hnoop].
Qed.

(* ===================================================================== *)
(** ** One link of a repair *)

Lemma alter_confined (mk : bool) (f : option node -> res (option node)) (p : path) :
  leaf_level f ->
  forall n n' q, alter mk f p n = OK n' -> is_prefix q p = false ->
                 lookup q n' = lookup q n.
Proof.
  intros Hf. induction p as [|s p IH]; intros n n' q Ha Hq.
  - destruct q; [discriminate|]. apply (Hf _ _ Ha). discriminate.
  - destruct q as [|t q]; [discriminate|]. cbn [is_prefix] in Hq.
    cbn [alter] in Ha.
    destruct n as [[c|l|es]|]; try discriminate.
    + destruct (alter mk f p (assoc s es)) as [c|e] eqn:Ea; [|discriminate].
      cbn [res_bind] in Ha. injection Ha as <-. cbn [lookup].
      destruct (String.eqb t s) eqn:Ets.
      * apply String.eqb_eq in Ets as ->. rewrite assoc_put_same.
        now apply (IH _ _ _ Ea).
      * apply String.eqb_neq in Ets. rewrite assoc_put_other by congruence.
        reflexivity.
    + destruct mk; [|discriminate].
      destruct (alter true f p None) as [c|e] eqn:Ea; [|discriminate].
      cbn [res_bind] in Ha. injection Ha as <-. cbn [lookup].
      destruct (String.eqb t s) eqn:Ets.
      * apply String.eqb_eq in Ets as ->. rewrite assoc_put_same.
        rewrite (IH _ _ _ Ea) by exact Hq. apply lookup_None.
      * apply String.eqb_neq in Ets. rewrite assoc_put_other by congruence.
        simpl. apply lookup_None.
Qed.

Lemma leaf_level_ensureDir : leaf_level ensureDir_slot.
Proof.
  intros [[c|l|es]|] y H q Hq; simpl in H; try discriminate;
    injection H as <-; [reflexivity|].
  destruct q as [|s q]; [congruence|]. simpl. apply lookup_None.
Qed.

Lemma leaf_level_unlink : leaf_level unlink_slot.
Proof.
  intros [[c|l|es]|] y H q Hq; simpl in H; try discriminate;
    injection H as <-; destruct q; congruence || reflexivity.
Qed.

Lemma leaf_level_symlink (l : linktext) : leaf_level (symlink_slot l).
Proof.
  intros [x|] y H q Hq; simpl in H; try discriminate.
  injection H as <-. destruct q; [congruence|reflexivity].
Qed.

Lemma confined_writes (mk : bool) (f : option node -> res (option node))
      (p target : path) :
  leaf_level f -> is_prefix p target = true ->
  confined target (writes (alterFS mk f p)).
Proof.
  intros Hf Hp fs. unfold writes, alterFS.
  destruct (alter mk f p (Some fs)) as [[n|]|e] eqn:Ea; try (intros; reflexivity).
  intros q Hq. apply (alter_confined mk f p Hf _ _ q Ea).
  destruct (is_prefix q p) eqn:E; [|reflexivity].
  rewrite (is_prefix_trans _ _ _ E Hp) in Hq. discriminate.
Qed.

Lemma confined_ret {A} (target : path) (a : A) : confined target (ret a).
Proof. intros fs q _. reflexivity. Qed.

Lemma confined_reads {A} (target : path) (f : FS -> A) : confined target (reads f).
Proof. intros fs q _. reflexivity. Qed.

Lemma confined_reads_res {A} (target : path) (f : FS -> res A) :
  confined target (reads_res f).
Proof. intros fs. unfold reads_res. destruct (f fs); intros q _; reflexivity. Qed.

Lemma confined_bind {A B} (target : path) (m : M A) (k : A -> M B) :
  confined target m -> (forall a, confined target (k a)) ->
  confined target (bind m k).
Proof.
  intros Hm Hk fs. unfold bind. specialize (Hm fs).
  destruct (m fs) as [a fs1|e fs1|]; [|exact Hm|exact I].
  specialize (Hk a fs1). destruct (k a fs1) as [b fs2|e fs2|]; [| |exact I];
    intros q Hq; rewrite (Hk q Hq); now apply Hm.
Qed.

Lemma confined_try_catch {A} (target : path) (m : M A) (h : errno -> M A) :
  confined target m -> (forall e, confined target (h e)) ->
  confined target (try_catch m h).
Proof.
  intros Hm Hh fs. unfold try_catch. specialize (Hm fs).
  destruct (m fs) as [a fs1|e fs1|]; [exact Hm| |exact I].
  specialize (Hh e fs1). destruct (h e fs1) as [b fs2|e' fs2|]; [| |exact I];
    intros q Hq; rewrite (Hh q Hq); now apply Hm.
Qed.

Lemma confined_if {A} (target : path) (b : bool) (m1 m2 : M A) :
  confined target m1 -> confined target m2 ->
  confined target (if b then m1 else m2).
Proof. now destruct b. Qed.

Lemma confined_ensureSymlink (source target : path) (kind : SourceKind) :
  confined target (ensureSymlink source target kind).
Proof.
  unfold ensureSymlink.
  assert (confined target (ensureDir (dirname target))) as Hd
      by (apply confined_writes;
          [apply leaf_level_ensureDir|apply is_prefix_dirname_self]).
  assert (confined target (symlink source target)) as Hs
      by (apply confined_writes; [apply leaf_level_symlink|apply is_prefix_refl]).
  assert (confined target (unlink target)) as Hu
      by (apply confined_writes; [apply leaf_level_unlink|apply is_prefix_refl]).
  repeat first
    [ apply confined_ret | apply confined_reads | apply confined_reads_res
    | exact Hd | exact Hs | exact Hu
    | apply confined_try_catch; [|intros ?]
    | apply confined_bind; [|intros ?]
    | apply confined_if ].
Qed.

Lemma fuel_free_bind {A B} (m : M A) (k : A -> M B) :
  fuel_free m -> (forall a, fuel_free (k a)) -> fuel_free (bind m k).
Proof.
  intros Hm Hk fs. unfold bind. specialize (Hm fs).
  destruct (m fs) as [a fs1|e fs1|]; [apply Hk|discriminate|congruence].
Qed.

Lemma fuel_free_ret {A} (a : A) : fuel_free (ret a).
Proof. intros fs. discriminate. Qed.

Lemma fuel_free_reads {A} (f : FS -> A) : fuel_free (reads f).
Proof. intros fs. discriminate. Qed.

Lemma fuel_free_reads_res {A} (f : FS -> res A) : fuel_free (reads_res f).
Proof. intros fs. unfold reads_res. destruct (f fs); discriminate. Qed.

Lemma fuel_free_writes (f : FS -> res FS) : fuel_free (writes f).
Proof. intros fs. unfold writes. destruct (f fs); discriminate. Qed.

Lemma fuel_free_if {A} (b : bool) (m1 m2 : M A) :
  fuel_free m1 -> fuel_free m2 -> fuel_free (if b then m1 else m2).
Proof. now destruct b. Qed.

Lemma ensureSymlink_returns (source target : path) (kind : SourceKind) (fs : FS) :
  exists r fs', ensureSymlink source target kind fs = Done r fs'.
Proof.
  unfold ensureSymlink, try_catch.
  match goal with |- exists r fs', match ?m fs with _ => _ end = _ =>
    assert (fuel_free m) as Hm; [|specialize (Hm fs); destruct (m fs)] end.
  - repeat first
      [ apply fuel_free_ret | apply fuel_free_reads | apply fuel_free_reads_res
      | apply fuel_free_writes
      | apply fuel_free_bind; [|intros ?]
      | apply fuel_free_if ].
  - eauto.
  - unfold ret. eauto.
  - congruence.
Qed.

Lemma symlink_exists (source target : path) (fs fs' : FS) :
  symlink source target fs = Done tt fs' ->
  lookup target (Some fs') = Some (Link (MkLink true source)).
Proof.
  unfold symlink, writes, symlink_fs, alterFS.
  destruct (alter false (symlink_slot (MkLink true source)) target (Some fs))
    as [[n|]|e] eqn:Ea; try discriminate.
  intros H. injection H as <-. apply lookup_alter in Ea.
  destruct (lookup target (Some fs)); simpl in Ea; [discriminate|].
  now injection Ea as <-.
Qed.

Lemma linked_after_symlink (source target : path) (fs fs' : FS) :
  symlink source target fs = Done tt fs' -> linked_to fs' target source.
Proof.
  intros H. exists (MkLink true source).
  split; [exact (symlink_exists _ _ _ _ H)|reflexivity].
Qed.

Ltac skipped_case why :=
  split; [intros _; reflexivity|];
  split; [intros _; reflexivity|];
  split; [intros _; reflexivity|];
  split; [intros _; split; [reflexivity|why]|];
  let H := fresh in intros [H|H]; discriminate H.

Ltac error_case :=
  split; [let H := fresh in intros H; discriminate H|];
  split; [let H := fresh in intros H; tauto|];
  split; [let H := fresh in intros H; tauto|];
  split; [let H := fresh in intros H; discriminate H|];
  let H := fresh in intros [H|H]; discriminate H.

Ltac linked_case fs2 :=
  split; [let H := fresh in intros H; discriminate H|];
  split; [let H := fresh in intros H; tauto|];
  split; [let H := fresh in intros H; tauto|];
  split; [let H := fresh in intros H; discriminate H|];
  intros _;
  match goal with
  | Hl : forall fs', linked_to fs' ?t ?s -> _, E : symlink ?s ?t fs2 = Done tt ?fs3 |- _ =>
      apply Hl; exact (linked_after_symlink s t fs2 fs3 E)
  end.

Lemma ensureSymlink_cases
        (source target : path) (kind : SourceKind) (fs : FS) :
  exists r fs',
    ensureSymlink source target kind fs = Done r fs'
    /\ (pathExists fs source = false -> r = r_skipped)
    /\ (real_target fs target -> r = r_skipped)
    /\ (linked_to fs target source -> r = r_skipped)
    /\ (r = r_skipped ->
        fs' = fs
        /\ (pathExists fs source = false \/ real_target fs target
            \/ linked_to fs target source))
    /\ (r = r_created \/ r = r_updated ->
        linked_to fs' target source
        /\ targetStatus source target fs' = Done linked fs'
        /\ ensureSymlink source target kind fs' = Done r_skipped fs').
Proof.
  assert (forall fs', linked_to fs' target source ->
            linked_to fs' target source
            /\ targetStatus source target fs' = Done linked fs'
            /\ ensureSymlink source target kind fs' = Done r_skipped fs') as Hlinked.
  { intros fs' Hl. split; [exact Hl|]. split; [|now apply ensureSymlink_linked].
    rewrite targetStatus_on_disk. f_equal.
    destruct Hl as [l [Hl Heq]]. unfold status_on_disk. rewrite Hl, Heq.
    now rewrite path_eqb_refl. }
  destruct (pathExists fs source) eqn:Es.
  2:{ exists r_skipped, fs. split.
      - cbv [ensureSymlink try_catch bind pathExistsM reads ret negb].
        now rewrite Es.
      - skipped_case ltac:(now left). }
  destruct (lookup target (Some fs)) as [[c|l|es]|] eqn:Et.
  - (* a regular file *)
    exists r_skipped, fs. split.
    + cbv [ensureSymlink try_catch bind pathExistsM reads ret negb pathExists
           lstat reads_res lstat_fs].
      fold (pathExists fs source). rewrite Es.
      repeat (cbv beta iota; try rewrite Et). reflexivity.
    + skipped_case ltac:(right; left; eexists; split; [exact Et|reflexivity]).
  - (* a link *)
    destruct (path_eqb (resolve (link_destination target l)) (resolve source)) eqn:Ep.
    + exists r_skipped, fs. split.
      * apply ensureSymlink_linked. exists l. split; [exact Et|].
        now apply path_eqb_eq.
      * skipped_case ltac:(right; right; exists l; split;
                           [exact Et|now apply path_eqb_eq]).
    + assert (ensureSymlink source target kind fs
              = try_catch (unlink target ;; ensureDir (dirname target) ;;
                           symlink source target ;; ret r_updated)
                          (fun _ => ret r_error) fs) as Hsteps.
      { cbv [ensureSymlink try_catch bind pathExistsM reads ret negb pathExists
             lstat reads_res lstat_fs readlink readlink_fs].
        fold (pathExists fs source). rewrite Es.
        repeat (cbv beta iota; try rewrite Et; cbv [stat_of isSymbolicLink]).
        unfold link_destination in Ep. rewrite Ep. reflexivity. }
      destruct (ensureSymlink_returns source target kind fs) as [r [fs' Hr]].
      exists r, fs'. split; [exact Hr|].
      assert (~ real_target fs target) as Hnr.
      { intros [n [Hn Hl]]. rewrite Et in Hn. injection Hn as <-. discriminate. }
      assert (~ linked_to fs target source) as Hnl.
      { intros [l' [Hl' Heq]]. rewrite Et in Hl'. injection Hl' as <-.
        apply path_eqb_neq in Ep. now apply Ep. }
      rewrite Hsteps in Hr. unfold try_catch, bind in Hr.
      destruct (unlink target fs) as [[] fs1|e fs1|] eqn:E1;
        [|injection Hr as <- <-|discriminate].
      2:{ error_case. }
      destruct (ensureDir (dirname target) fs1) as [[] fs2|e fs2|] eqn:E2;
        [|injection Hr as <- <-|discriminate].
      2:{ error_case. }
      destruct (symlink source target fs2) as [[] fs3|e fs3|] eqn:E3;
        [|injection Hr as <- <-|discriminate].
      2:{ error_case. }
      injection Hr as <- <-.
      linked_case fs2.
  - (* a directory *)
    exists r_skipped, fs. split.
    + cbv [ensureSymlink try_catch bind pathExistsM reads ret negb pathExists
           lstat reads_res lstat_fs].
      fold (pathExists fs source). rewrite Es.
      repeat (cbv beta iota; try rewrite Et). reflexivity.
    + skipped_case ltac:(right; left; eexists; split; [exact Et|reflexivity]).
  - (* nothing *)
    assert (ensureSymlink source target kind fs
            = try_catch (ensureDir (dirname target) ;;
                         symlink source target ;; ret r_created)
                        (fun _ => ret r_error) fs) as Hsteps.
    { cbv [ensureSymlink try_catch bind pathExistsM reads ret negb pathExists].
      fold (pathExists fs source). rewrite Es.
      repeat (cbv beta iota; try rewrite Et). reflexivity. }
    destruct (ensureSymlink_returns source target kind fs) as [r [fs' Hr]].
    exists r, fs'. split; [exact Hr|].
    assert (~ real_target fs target) as Hnr.
    { intros [n [Hn Hl]]. rewrite Et in Hn. discriminate. }
    assert (~ linked_to fs target source) as Hnl.
    { intros [l' [Hl' Heq]]. rewrite Et in Hl'. discriminate. }
    rewrite Hsteps in Hr. unfold try_catch, bind in Hr.
    destruct (ensureDir (dirname target) fs) as [[] fs2|e fs2|] eqn:E2;
      [|injection Hr as <- <-|discriminate].
    2:{ error_case. }
    destruct (symlink source target fs2) as [[] fs3|e fs3|] eqn:E3;
      [|injection Hr as <- <-|discriminate].
    2:{ error_case. }
    injection Hr as <- <-.
    linked_case fs2.
Qed.
(** What [ensureSymlink] answers, and when: it never throws; it answers
    [skipped] and leaves the disk alone when the source is missing, when
    the target is a real file or directory (which it never replaces), and
    when the target already links to the source; whenever it answers
    [skipped], the disk is as before; when it answers [created] or
    [updated], the target is a link to the source afterwards, the status
    of the target reads [linked], and a second call answers [skipped]
    without touching the disk. *)
Theorem ensureSymlink_answers
        (source target : path) (kind : SourceKind) (fs : FS) :
  exists r fs',
    ensureSymlink source target kind fs = Done r fs'
    /\ (pathExists fs source = false -> r = r_skipped)
    /\ (real_target fs target -> r = r_skipped)
    /\ (linked_to fs target source -> r = r_skipped)
    /\ (r = r_skipped ->
        fs' = fs
        /\ (pathExists fs source = false \/ real_target fs target
            \/ linked_to fs target source))
    /\ (r = r_created \/ r = r_updated ->
        linked_to fs' target source
        /\ targetStatus source target fs' = Done linked fs'
        /\ ensureSymlink source target kind fs' = Done r_skipped fs').
Proof. exact (ensureSymlink_cases source target kind fs). Qed.

Lemma alter_way_exists (mk : bool) (f : option node -> res (option node))
      (q r : path) (n n' : option node) :
  alter mk f (q ++ r) n = OK n' -> r <> [] -> lookup q n <> None ->
  lookup q n' <> None.
Proof.
  intros Ha Hr Hq.
  destruct (lookup q n) as [[c|l|es]|] eqn:El; try congruence.
  - rewrite alter_app in Ha. apply lookup_alter in Ha. rewrite El in Ha.
    destruct r; [congruence|discriminate].
  - rewrite alter_app in Ha. apply lookup_alter in Ha. rewrite El in Ha.
    destruct r; [congruence|discriminate].
  - destruct (alter_keeps_way mk f q r n n' es Ha Hr El) as [es' ->]. discriminate.
Qed.

Lemma sparing_at_target (mk : bool) (f : option node -> res (option node))
      (target : path) :
  leaf_level f -> sparing target (writes (alterFS mk f target)).
Proof.
  intros Hf fs. unfold writes, alterFS.
  destruct (alter mk f target (Some fs)) as [[n|]|e] eqn:Ea; try (intros; assumption).
  intros q Hne Hq. unfold pathExists in *.
  destruct (is_prefix q target) eqn:Ep.
  - apply is_prefix_app in Ep as [r ->].
    assert (r <> []) as Hr by (intros ->; apply Hne; now rewrite app_nil_r).
    pose proof (alter_way_exists mk f q r _ _ Ea Hr) as Hw.
    destruct (lookup q (Some fs)); [|discriminate].
    destruct (lookup q (Some n)); [reflexivity|]. exfalso. apply Hw; congruence.
  - now rewrite (alter_confined mk f target Hf _ _ q Ea Ep).
Qed.

Lemma sparing_monotone {A} (target : path) (m : M A) :
  monotone m -> sparing target m.
Proof.
  intros Hm fs. specialize (Hm fs).
  destruct (m fs) as [a fs'|e fs'|]; [| |exact I]; intros q _; apply Hm.
Qed.

Lemma sparing_bind {A B} (target : path) (m : M A) (k : A -> M B) :
  sparing target m -> (forall a, sparing target (k a)) ->
  sparing target (bind m k).
Proof.
  intros Hm Hk fs. unfold bind. specialize (Hm fs).
  destruct (m fs) as [a fs1|e fs1|]; [|exact Hm|exact I].
  specialize (Hk a fs1). destruct (k a fs1) as [b fs2|e fs2|]; [| |exact I];
    intros q Hne Hq; apply (Hk q Hne); now apply Hm.
Qed.

Lemma sparing_try_catch {A} (target : path) (m : M A) (h : errno -> M A) :
  sparing target m -> (forall e, sparing target (h e)) ->
  sparing target (try_catch m h).
Proof.
  intros Hm Hh fs. unfold try_catch. specialize (Hm fs).
  destruct (m fs) as [a fs1|e fs1|]; [exact Hm| |exact I].
  specialize (Hh e fs1). destruct (h e fs1) as [b fs2|e' fs2|]; [| |exact I];
    intros q Hne Hq; apply (Hh q Hne); now apply Hm.
Qed.

Lemma sparing_if {A} (target : path) (b : bool) (m1 m2 : M A) :
  sparing target m1 -> sparing target m2 ->
  sparing target (if b then m1 else m2).
Proof. now destruct b. Qed.

Lemma sparing_ensureSymlink (source target : path) (kind : SourceKind) :
  sparing target (ensureSymlink source target kind).
Proof.
  unfold ensureSymlink.
  assert (sparing target (ensureDir (dirname target))) as Hd
      by (apply sparing_monotone, monotone_ensureDir).
  assert (sparing target (symlink source target)) as Hs
      by (apply sparing_at_target, leaf_level_symlink).
  assert (sparing target (unlink target)) as Hu
      by (apply sparing_at_target, leaf_level_unlink).
  repeat first
    [ exact Hd | exact Hs | exact Hu
    | apply sparing_monotone;
      first [apply monotone_ret|apply monotone_reads|apply monotone_reads_res]
    | apply sparing_try_catch; [|intros ?]
    | apply sparing_bind; [|intros ?]
    | apply sparing_if ].
Qed.

(** [ensureSymlink] changes the disk at the target and on the way to it
    only: whatever it answers, every path that is not the target or a
    directory leading to it holds what it held before, and every path
    other than the target that existed before still exists afterwards. *)
Theorem ensureSymlink_touches_the_target_only
        (source target : path) (kind : SourceKind) (fs fs' : FS)
        (r : EnsureResult)
        (Hdone : ensureSymlink source target kind fs = Done r fs') :
  (forall q, is_prefix q target = false ->
             lookup q (Some fs') = lookup q (Some fs))
  /\ (forall q, q <> target -> pathExists fs q = true -> pathExists fs' q = true).
Proof.
  split.
  - pose proof (confined_ensureSymlink source target kind fs) as H.
    now rewrite Hdone in H.
  - pose proof (sparing_ensureSymlink source target kind fs) as H.
    now rewrite Hdone in H.
Qed.

Lemma ensureSymlink_touches_the_target_only_witness :
  ensureSymlink (Examples.agentsRoot ++ ["commands"]) (Examples.claudeDir ++ ["commands"])
    kind_dir
    (Dir [("home", Dir [("u", Dir [(".agents", Examples.canonicalTree)])])])
  = Done r_created
      (Dir [("home", Dir [("u", Dir [
         (".agents", Examples.canonicalTree);
         (".claude", Dir [("commands",
                           Link (MkLink true (Examples.agentsRoot ++ ["commands"])))])])])])
  /\ lookup Examples.agentsRoot
       (Some (Dir [("home", Dir [("u", Dir [
          (".agents", Examples.canonicalTree);
          (".claude", Dir [("commands",
                            Link (MkLink true (Examples.agentsRoot ++ ["commands"])))])])])]))
     = Some Examples.canonicalTree.
Proof.
  split; [reflexivity|].
  exact (proj1 (ensureSymlink_touches_the_target_only
                  (Examples.agentsRoot ++ ["commands"])
                  (Examples.claudeDir ++ ["commands"]) kind_dir
                  (Dir [("home", Dir [("u", Dir [(".agents", Examples.canonicalTree)])])])
                  _ r_created eq_refl)
               Examples.agentsRoot eq_refl).
Defined.

(* ===================================================================== *)
(** ** The tally of a repair *)

Lemma accounted_tally (result : EnsureResult) (target : path) (acc : RepairResult) :
  accounted (tally result target acc) = S (accounted acc)
  /\ rr_scope (tally result target acc) = rr_scope acc.
Proof.
  destruct result; unfold accounted, tally; cbn [created updated skipped errors rr_scope];
    rewrite ?length_app; simpl; split; try reflexivity; lia.
Qed.

Lemma repair_targets_accounts (mapping : Mapping) (tgts : list path) :
  forall acc fs,
    exists r fs',
      repair_targets mapping tgts acc fs = Done r fs'
      /\ accounted r = accounted acc + List.length tgts
      /\ rr_scope r = rr_scope acc.
Proof.
  induction tgts as [|t rest IH]; intros acc fs.
  - exists acc, fs. split; [reflexivity|]. split; [simpl; lia|reflexivity].
  - cbn [repair_targets]. unfold bind.
    destruct (ensureSymlink_returns (source mapping) t (kind mapping) fs)
      as [res [fs1 ->]].
    destruct (IH (tally res t acc) fs1) as [r [fs' [Hr [Hn Hs]]]].
    exists r, fs'. split; [exact Hr|].
    destruct (accounted_tally res t acc) as [Ht Hts].
    split; [rewrite Hn, Ht; simpl; lia|congruence].
Qed.

Lemma repair_mappings_accounts
        (mappings : list Mapping) (acc : RepairResult) (fs : FS) :
  exists r fs',
    repair_mappings mappings acc fs = Done r fs'
    /\ accounted r = accounted acc + List.length (flat_map targets mappings)
    /\ rr_scope r = rr_scope acc.
Proof.
  revert acc fs. induction mappings as [|m rest IH]; intros acc fs.
  - exists acc, fs. split; [reflexivity|]. split; [simpl; lia|reflexivity].
  - cbn [repair_mappings flat_map]. unfold bind.
    destruct (repair_targets_accounts m (targets m) acc fs)
      as [acc' [fs1 [-> [Hn Hs]]]].
    destruct (IH acc' fs1) as [r [fs' [Hr [Hn' Hs']]]].
    exists r, fs'. split; [exact Hr|].
    split; [rewrite Hn', Hn, length_app; lia|congruence].
Qed.

(* ===================================================================== *)
(** ** The targets of the mappings *)

Lemma NoDup_keep (slots : list (bool * path)) :
  NoDup (map snd slots) -> NoDup (keep slots).
Proof.
  unfold keep. induction slots as [|[b p] slots IH]; intros H; [constructor|].
  cbn [map snd] in H. inversion H as [|p' l Hnotin Hnd]; subst.
  cbn [filter]. destruct b; cbn [fst map snd]; [|now apply IH].
  constructor; [|now apply IH].
  intros Hin. apply Hnotin. apply in_map_iff in Hin as [[b' q] [Hq Hin]].
  apply filter_In in Hin as [Hin _]. apply in_map_iff. now exists (b', q).
Qed.

Lemma distinct_NoDup (names : list string) : distinct names = true -> NoDup names.
Proof.
  induction names as [|a rest IH]; intros H; [constructor|].
  cbn [distinct] in H. apply andb_true_iff in H as [Ha Hr].
  constructor; [|now apply IH].
  intros Hin. apply negb_true_iff in Ha.
  assert (existsb (String.eqb a) rest = true) as He.
  { apply existsb_exists. exists a. split; [exact Hin|apply String.eqb_refl]. }
  congruence.
Qed.

Lemma target_key_join (root : path) (leaf : string) :
  target_key (join root leaf) = (basename root ++ "/" ++ leaf)%string.
Proof. unfold target_key. now rewrite dirname_join, basename_join. Qed.

Lemma target_slots_NoDup (a b c h s : bool) (clients : option (list Client))
      (roots : ResolvedRoots) :
  client_roots roots -> NoDup (keep (target_slots a b c h s clients roots)).
Proof.
  intros [H1 [H2 [H3 [H4 [H5 H6]]]]].
  apply NoDup_keep. apply (NoDup_map_inv target_key).
  unfold target_slots. cbn [map snd].
  rewrite !target_key_join, H1, H2, H3, H4, H5, H6.
  apply distinct_NoDup. reflexivity.
Qed.

Lemma client_roots_resolveRoots (env : Env) (opts : MappingOptions) :
  client_roots (resolveRoots env opts).
Proof.
  unfold client_roots, resolveRoots. destruct (mo_scope opts);
    cbn [claudeRoot factoryRoot codexRoot cursorRoot opencodeRoot opencodeConfigRoot];
    rewrite !basename_join; repeat split; reflexivity.
Qed.

Lemma client_roots_resolveMonorepoRoots (env : Env) (opts : MonorepoMappingOptions) :
  client_roots (resolveMonorepoRoots env opts).
Proof.
  unfold client_roots, resolveMonorepoRoots.
  cbn [claudeRoot factoryRoot codexRoot cursorRoot opencodeRoot opencodeConfigRoot].
  rewrite !basename_join. repeat split; reflexivity.
Qed.

Lemma getMappings_targets (env : Env) (opts : MappingOptions) (fs : FS) :
  exists ms,
    getMappings env opts fs = Done ms fs
    /\ flat_map targets ms
       = keep (target_slots
                 (match mo_scope opts with scope_global => true | _ => false end)
                 (match mo_scope opts with scope_global => true | _ => false end)
                 true true true (mo_clients opts) (resolveRoots env opts)).
Proof.
  eexists. split; [reflexivity|].
  unfold target_slots, agentTargets, commands_targets, hooks_targets,
    skills_targets, keep.
  destruct (mo_scope opts);
    destruct (has (mo_clients opts) claude), (has (mo_clients opts) factory),
      (has (mo_clients opts) codex), (has (mo_clients opts) opencode),
      (has (mo_clients opts) cursor); reflexivity.
Qed.

Lemma resource_mapping_targets (fuel : nat) (config : MonorepoConfig)
      (chain : list path) (cur : path) (r : ResourceName) (tgts : list path)
      (fs fs' : FS) (ms : list Mapping) :
  resource_mapping fuel config chain cur r tgts fs = Done ms fs' ->
  exists b : bool, flat_map targets ms = if b then tgts else [].
Proof.
  unfold resource_mapping. intros H.
  apply bind_Done in H as [src [fs1 [_ H]]]. apply ret_Done in H as [<- _].
  destruct src; [exists true|exists false]; [apply app_nil_r|reflexivity].
Qed.

Lemma instructions_mappings_targets (clients : option (list Client))
      (roots : ResolvedRoots) (agentsSource : option path) :
  exists a b : bool,
    flat_map targets (instructions_mappings clients roots agentsSource)
    = (if a && has clients claude then [join (claudeRoot roots) "CLAUDE.md"] else [])
      ++ (if b then agentTargets clients roots else []).
Proof.
  unfold instructions_mappings. destruct agentsSource as [src|];
    [|exists false, false; reflexivity].
  destruct (String.eqb (basename src) "CLAUDE.md"); cbn [negb];
    [exists true, false|exists true, true];
    destruct (has clients claude); cbn [andb app flat_map targets];
    try reflexivity;
    destruct (is_nil (agentTargets clients roots)) eqn:E; cbn [flat_map targets app];
    rewrite ?app_nil_r; try reflexivity;
    destruct (agentTargets clients roots); try discriminate; reflexivity.
Qed.

(** No target is named twice: over all the mappings a builder returns,
    for any selection of clients, the target paths are pairwise distinct,
    so no two mappings ever compete for a link.  The single-root builder
    always returns, without touching the disk. *)
Theorem mapping_targets_are_distinct
        (env : Env) (yaml_load : string -> option MonorepoConfig) :
  (forall opts fs,
      exists ms, getMappings env opts fs = Done ms fs
                 /\ NoDup (flat_map targets ms))
  /\ (forall fuel opts fs ms fs',
         getMonorepoMappings env yaml_load fuel opts fs = Done ms fs' ->
         NoDup (flat_map targets ms)).
Proof.
  split.
  - intros opts fs. destruct (getMappings_targets env opts fs) as [ms [Hms Ht]].
    exists ms. split; [exact Hms|]. rewrite Ht.
    apply target_slots_NoDup, client_roots_resolveRoots.
  - intros fuel opts fs ms fs' H. unfold getMonorepoMappings in H.
    destruct (getEffectiveChain (mm_chain opts)) as [|first rest].
    { apply ret_Done in H as [<- _]. constructor. }
    apply bind_Done in H as [config [fs0 [_ H]]].
    apply bind_Done in H as [src [fs1 [_ H]]].
    apply bind_Done in H as [m1 [fs2 [H1 H]]].
    apply bind_Done in H as [m2 [fs3 [H2 H]]].
    apply bind_Done in H as [m3 [fs4 [H3 H]]].
    apply ret_Done in H as [<- _].
    apply resource_mapping_targets in H1 as [c H1].
    apply resource_mapping_targets in H2 as [h H2].
    apply resource_mapping_targets in H3 as [s H3].
    destruct (instructions_mappings_targets (mm_clients opts)
                (resolveMonorepoRoots env opts) src) as [a [b H0]].
    rewrite !flat_map_app, H0, H1, H2, H3.
    pose proof (target_slots_NoDup a b c h s (mm_clients opts)
                  (resolveMonorepoRoots env opts)
                  (client_roots_resolveMonorepoRoots env opts)) as Hnd.
    unfold target_slots, keep in Hnd.
    unfold agentTargets, commands_targets, hooks_targets, skills_targets, keep.
    destruct a, b, c, h, s;
      destruct (has (mm_clients opts) claude), (has (mm_clients opts) factory),
        (has (mm_clients opts) codex), (has (mm_clients opts) opencode),
        (has (mm_clients opts) cursor); exact Hnd.
Qed.

Lemma mapping_targets_are_distinct_witness :
  exists ms fs',
    getMonorepoMappings Examples.pkgEnv Examples.yaml_of_compose 1
      Examples.pkgOptions (Examples.composeDisk "make" "ship" "lint" "compose")
    = Done ms fs'
    /\ flat_map targets ms
       = [["w"; "mono"; "pkg"; ".claude"; "CLAUDE.md"];
          ["w"; "mono"; "pkg"; ".claude"; "commands"];
          ["w"; "mono"; "pkg"; ".codex"; "prompts"]]
    /\ NoDup (flat_map targets ms).
Proof.
  destruct (getMonorepoMappings Examples.pkgEnv Examples.yaml_of_compose 1
              Examples.pkgOptions (Examples.composeDisk "make" "ship" "lint" "compose"))
    as [ms fs'|e fs'|] eqn:E; try (vm_compute in E; discriminate).
  exists ms, fs'. split; [reflexivity|]. split.
  - vm_compute in E. injection E as <- _. reflexivity.
  - exact (proj2 (mapping_targets_are_distinct Examples.pkgEnv Examples.yaml_of_compose)
                 1 Examples.pkgOptions _ _ _ E).
Defined.

(* ===================================================================== *)
(** ** Link status, further *)

(** [getLinkStatus] always returns and never changes the disk.  It
    reports one entry for each mapping of [getMappings], in the same
    order, with the name and the source of the mapping, and one status
    for each target of the mapping, in the order of the targets.  A
    target that no symbolic link leads to (every directory on the way to
    it is a real directory) is [missing] exactly when nothing is at its
    path and [linked] exactly when it is a symbolic link whose resolved
    destination is the source; every other such target is a
    [conflict]. *)
Theorem getLinkStatus_reads_the_disk
        (env : Env) (opts : MappingOptions) (fs : FS) :
  exists ms statuses,
    getMappings env opts fs = Done ms fs
    /\ getLinkStatus env opts fs = Done statuses fs
    /\ map ls_name statuses = map name ms
    /\ map ls_source statuses = map source ms
    /\ map (fun s => map fst (ls_targets s)) statuses = map targets ms
    /\ forall s t st, In s statuses -> In (t, st) (ls_targets s) ->
         plain_way fs t = true ->
         (st = missing <-> pathExists fs t = false)
         /\ (st = linked <-> linked_to fs t (ls_source s))
         /\ (st = conflict <->
             pathExists fs t = true /\ ~ linked_to fs t (ls_source s)).
Proof.
  destruct (getMappings_targets env opts fs) as [ms [Hms _]].
  exists ms. eexists. split; [exact Hms|].
  unfold getLinkStatus, bind. rewrite Hms, statusesOf_on_disk.
  split; [reflexivity|].
  split; [now rewrite map_map|]. split; [now rewrite map_map|].
  split.
  - rewrite map_map. apply map_ext. intros m. cbn [ls_targets].
    rewrite map_map. cbn [fst]. apply map_id.
  - intros s t st Hs Ht _. apply in_map_iff in Hs as [m [<- _]].
    cbn [ls_targets ls_source] in *.
    apply in_map_iff in Ht as [t' [Ht _]]. injection Ht as -> <-.
    assert (status_on_disk fs (source m) t = linked
            <-> linked_to fs t (source m)) as Hlinked.
    { split; [apply status_on_disk_linked|].
      intros [l [Hl Heq]]. unfold status_on_disk. rewrite Hl, Heq.
      now rewrite path_eqb_refl. }
    split; [|split; [exact Hlinked|]].
    + unfold status_on_disk, pathExists.
      destruct (lookup t (Some fs)) as [[c|l|es]|]; try (split; discriminate);
        try (split; reflexivity).
      destruct (path_eqb _ _); split; discriminate.
    + split.
      * intros Hc. split.
        -- unfold status_on_disk in Hc. unfold pathExists.
           destruct (lookup t (Some fs)); [reflexivity|discriminate].
        -- intros Hl. apply Hlinked in Hl. congruence.
      * intros [He Hnl]. unfold pathExists in He.
        destruct (status_on_disk fs (source m) t) eqn:Est; [| |reflexivity].
        -- exfalso. now apply Hnl, Hlinked.
        -- unfold status_on_disk in Est.
           destruct (lookup t (Some fs)) as [[c|l|es]|]; try discriminate.
           destruct (path_eqb _ _); discriminate.
Qed.

Lemma getLinkStatus_reads_the_disk_witness :
  plain_way Examples.copiedDisk (Examples.claudeDir ++ ["hooks"]) = true
  /\ exists statuses,
       getLinkStatus Examples.homeEnv Examples.globalClaude Examples.copiedDisk
       = Done statuses Examples.copiedDisk
       /\ forall s st, In s statuses ->
            In (Examples.claudeDir ++ ["hooks"], st) (ls_targets s) ->
            st = linked
            <-> linked_to Examples.copiedDisk (Examples.claudeDir ++ ["hooks"])
                          (ls_source s).
Proof.
  split; [reflexivity|].
  destruct (getLinkStatus_reads_the_disk Examples.homeEnv Examples.globalClaude
              Examples.copiedDisk)
    as [ms [statuses [_ [Hrun [_ [_ [_ Hall]]]]]]].
  exists statuses. split; [exact Hrun|].
  intros s st Hs Ht. exact (proj1 (proj2 (Hall s _ st Hs Ht eq_refl))).
Defined.

(* ===================================================================== *)
(** ** Discovery *)

Lemma add_unseen_kept (items : list DiscoveredItem) :
  forall found kept seen,
    (forall n, In n seen <-> In n (map di_name kept)) ->
    kept_first found kept ->
    (forall n, In n (snd (add_unseen items (kept, seen)))
               <-> In n (map di_name (fst (add_unseen items (kept, seen)))))
    /\ kept_first (found ++ items) (fst (add_unseen items (kept, seen))).
Proof.
  induction items as [|item rest IH]; intros found kept seen Hseen Hk.
  - rewrite app_nil_r. now split.
  - cbn [add_unseen fst snd].
    replace (found ++ item :: rest) with ((found ++ [item]) ++ rest)
      by now rewrite <- app_assoc.
    destruct Hk as [Hnd [Hfirst Hall]].
    destruct (existsb (String.eqb (di_name item)) seen) eqn:Es.
    + apply IH; [exact Hseen|]. split; [exact Hnd|]. split.
      * intros x Hx. destruct (Hfirst x Hx) as [before [after [-> Hb]]].
        exists before, (after ++ [item]). split; [|exact Hb].
        now rewrite <- app_assoc.
      * intros y Hy. apply in_app_or in Hy as [Hy|[<-|[]]]; [now apply Hall|].
        apply Hseen. apply existsb_exists in Es as [n [Hn En]].
        apply String.eqb_eq in En. now subst.
    + assert (~ In (di_name item) (map di_name kept)) as Hnew.
      { intros Hin. apply Hseen in Hin.
        assert (existsb (String.eqb (di_name item)) seen = true) as He.
        { apply existsb_exists. exists (di_name item).
          split; [exact Hin|apply String.eqb_refl]. }
        congruence. }
      apply IH.
      * intros n. rewrite map_app. cbn [map In]. rewrite in_app_iff. cbn [In].
        rewrite Hseen. tauto.
      * split; [|split].
        -- rewrite map_app. cbn [map]. apply NoDup_app;
             [exact Hnd|repeat constructor; intros []|].
           intros n Hn [<-|[]]. now apply Hnew.
        -- intros x Hx. apply in_app_or in Hx as [Hx|[<-|[]]].
           ++ destruct (Hfirst x Hx) as [before [after [-> Hb]]].
              exists before, (after ++ [item]). split; [|exact Hb].
              now rewrite <- app_assoc.
           ++ exists found, []. split; [reflexivity|].
              intros Hin. apply in_map_iff in Hin as [y [Hy Hin]].
              apply Hnew. rewrite <- Hy. now apply Hall.
        -- intros y Hy. rewrite map_app, in_app_iff. cbn [map In].
           apply in_app_or in Hy as [Hy|[<-|[]]]; [left; now apply Hall|].
           right. now left.
Qed.

Lemma In_assoc_some (s : string) (c : node) (es : list (string * node)) :
  In (s, c) es -> assoc s es <> None.
Proof.
  induction es as [|[k v] es IH]; intros H; [contradiction|].
  cbn [assoc]. destruct (String.eqb s k) eqn:E; [discriminate|].
  destruct H as [H|H]; [|now apply IH].
  injection H as -> ->. now rewrite String.eqb_refl in E.
Qed.

Lemma list_entries_exist (keep : node -> bool) (d : path) (fs : FS)
      (l : list path) (p : path) :
  list_entries keep d fs = OK l -> In p l ->
  pathExists fs p = true /\ dirname p = d.
Proof.
  unfold list_entries.
  destruct (lookup d (Some fs)) as [[c|lk|es]|] eqn:El; try discriminate.
  intros H. injection H as <-. intros Hp.
  apply in_map_iff in Hp as [[s c] [<- Hin]]. apply filter_In in Hin as [Hin _].
  cbn [fst]. split; [|apply dirname_join].
  unfold pathExists. rewrite (lookup_join d s fs es El).
  pose proof (In_assoc_some s c es Hin). now destruct (assoc s es).
Qed.

Lemma discoverFromDirectory_items (agentsPath : path) (resourceDir : string)
      (type : DiscoveredType) (isDirectory : bool) (fs fs' : FS)
      (l : list DiscoveredItem) :
  discoverFromDirectory agentsPath resourceDir type isDirectory fs = Done l fs' ->
  fs' = fs
  /\ forall x, In x l ->
       di_source x = agentsPath /\ di_type x = type
       /\ pathExists fs (di_path x) = true
       /\ dirname (di_path x) = join agentsPath resourceDir
       /\ di_name x = (if isDirectory then (basename (di_path x) ++ "/")%string
                       else basename (di_path x)).
Proof.
  cbv [discoverFromDirectory bind pathExistsM reads ret listDirs listFiles
       reads_res listDirs_fs listFiles_fs negb].
  destruct (pathExists fs (join agentsPath resourceDir)).
  2:{ intros H. injection H as <- <-. split; [reflexivity|intros x []]. }
  destruct isDirectory.
  - destruct (list_entries is_dir (join agentsPath resourceDir) fs) as [ds|e] eqn:El;
      [|discriminate].
    intros H. injection H as <- <-. split; [reflexivity|].
    intros x Hx. apply in_map_iff in Hx as [p [<- Hp]].
    cbn [di_source di_type di_path di_name].
    destruct (list_entries_exist _ _ _ _ _ El Hp) as [He Hd]. now repeat split.
  - destruct (list_entries is_file (join agentsPath resourceDir) fs) as [ds|e] eqn:El;
      [|discriminate].
    intros H. injection H as <- <-. split; [reflexivity|].
    intros x Hx. apply in_map_iff in Hx as [p [<- Hp]].
    cbn [di_source di_type di_path di_name].
    destruct (list_entries_exist _ _ _ _ _ El Hp) as [He Hd]. now repeat split.
Qed.

Lemma discover_from_kept (resourceDir : string) (type : DiscoveredType)
      (isDirectory : bool) (sources : list path) (fs : FS) :
  forall found kept seen result fs',
    (forall n, In n seen <-> In n (map di_name kept)) ->
    kept_first found kept ->
    discover_from resourceDir type isDirectory sources (kept, seen) fs
    = Done result fs' ->
    fs' = fs
    /\ exists listings,
         Forall2 (fun s l => discoverFromDirectory s resourceDir type isDirectory fs
                             = Done l fs) sources listings
         /\ kept_first (found ++ List.concat listings) (fst result).
Proof.
  induction sources as [|s rest IH]; intros found kept seen result fs' Hseen Hk H.
  - apply ret_Done in H as [<- <-]. split; [reflexivity|]. exists [].
    split; [constructor|]. cbn [List.concat]. now rewrite app_nil_r.
  - cbn [discover_from] in H. apply bind_Done in H as [l [fs1 [Hl H]]].
    destruct (discoverFromDirectory_items _ _ _ _ _ _ _ Hl) as [-> _].
    destruct (add_unseen_kept l found kept seen Hseen Hk) as [Hseen' Hk'].
    destruct (add_unseen l (kept, seen)) as [kept' seen'] eqn:Ea.
    cbn [fst snd] in *.
    destruct (IH _ _ _ _ _ Hseen' Hk' H) as [-> [listings [Hall Hkf]]].
    split; [reflexivity|]. exists (l :: listings).
    split; [now constructor|]. cbn [List.concat]. now rewrite app_assoc.
Qed.

Lemma Forall2_concat_In {A B} (xs : list A)
      (ls : list (list B)) (Q : A -> list B -> Prop) (y : B) :
  Forall2 Q xs ls -> In y (List.concat ls) ->
  exists x l, In x xs /\ Q x l /\ In y l.
Proof.
  induction 1 as [|x l xs ls HQ Hall IH]; intros Hy; [contradiction|].
  cbn [List.concat] in Hy. apply in_app_or in Hy as [Hy|Hy].
  - exists x, l. split; [now left|]. now split.
  - destruct (IH Hy) as [x' [l' [Hx' H']]]. exists x', l'.
    split; [now right|exact H'].
Qed.

(** What the discovery of a resource returns along a chain: the disk is
    only read; among the items found in the roots, current root first,
    the one kept for a name is the first one found, so that an item of a
    nearer root hides the items of that name in farther roots, and no
    name is returned twice; every item returned exists on the disk, in
    the resource directory of the root it is attributed to; with
    [excludeCurrent], no item of the current root is returned. *)
Theorem discovery_keeps_the_nearest
        (resourceDir : string) (type : DiscoveredType) (isDirectory : bool)
        (opts : DiscoveryOptions) (fs fs' : FS) (items : list DiscoveredItem)
        (Hdone : discoverResource resourceDir type isDirectory opts fs
                 = Done items fs') :
  fs' = fs
  /\ (exists listings,
        Forall2 (fun s l => discoverFromDirectory s resourceDir type isDirectory fs
                            = Done l fs) (discovery_sources opts) listings
        /\ kept_first (List.concat listings) items)
  /\ (forall x, In x items ->
        In (di_source x) (discovery_sources opts)
        /\ di_type x = type
        /\ pathExists fs (di_path x) = true
        /\ dirname (di_path x) = join (di_source x) resourceDir)
  /\ (excludeCurrent opts = true ->
      forall x, In x items -> current (dc_chain opts) <> Some (di_source x)).
Proof.
  unfold discoverResource in Hdone.
  apply bind_Done in Hdone as [result [fs1 [Hd H]]].
  apply ret_Done in H as [<- <-].
  assert (kept_first [] []) as Hk0.
  { split; [constructor|]. split; intros x []. }
  destruct (discover_from_kept _ _ _ _ _ [] [] [] _ _ (fun n => iff_refl _) Hk0 Hd)
    as [-> [listings [Hall Hkf]]].
  cbn [app] in Hkf.
  assert (forall x, In x (fst result) ->
            In (di_source x) (discovery_sources opts)
            /\ di_type x = type
            /\ pathExists fs (di_path x) = true
            /\ dirname (di_path x) = join (di_source x) resourceDir) as Hitems.
  { intros x Hx. destruct Hkf as [_ [Hfirst _]].
    destruct (Hfirst x Hx) as [before [after [Heq _]]].
    assert (In x (List.concat listings)) as Hin by (rewrite Heq; apply in_elt).
    destruct (Forall2_concat_In _ _ _ x Hall Hin)
      as [s [l [Hs [Hl Hxl]]]].
    destruct (discoverFromDirectory_items _ _ _ _ _ _ _ Hl) as [_ Hi].
    destruct (Hi x Hxl) as [-> [Ht [He [Hdn _]]]]. now repeat split. }
  split; [reflexivity|]. split; [now exists listings|]. split; [exact Hitems|].
  intros Hex x Hx Hc. destruct (Hitems x Hx) as [Hs _].
  unfold discovery_sources in Hs. rewrite Hex, Hc in Hs.
  apply filter_In in Hs as [_ Hs]. now rewrite path_eqb_refl in Hs.
Qed.

Lemma discovery_keeps_the_nearest_witness :
  discoverCommands (MkDiscovery Examples.composeChain false) Scenes.commandsDisk
  = Done [MkDiscovered "build.md" (Examples.pkgRoot ++ ["commands"; "build.md"])
                       Examples.pkgRoot dt_command;
          MkDiscovered "deploy.md" (Examples.monoRoot ++ ["commands"; "deploy.md"])
                       Examples.monoRoot dt_command]
         Scenes.commandsDisk
  /\ discoverCommands (MkDiscovery Examples.composeChain true) Scenes.commandsDisk
     = Done [MkDiscovered "build.md" (Examples.monoRoot ++ ["commands"; "build.md"])
                          Examples.monoRoot dt_command;
             MkDiscovered "deploy.md" (Examples.monoRoot ++ ["commands"; "deploy.md"])
                          Examples.monoRoot dt_command]
            Scenes.commandsDisk
  /\ forall x,
       In x [MkDiscovered "build.md" (Examples.pkgRoot ++ ["commands"; "build.md"])
                          Examples.pkgRoot dt_command;
             MkDiscovered "deploy.md" (Examples.monoRoot ++ ["commands"; "deploy.md"])
                          Examples.monoRoot dt_command] ->
       pathExists Scenes.commandsDisk (di_path x) = true.
Proof.
  split; [reflexivity|]. split; [reflexivity|].
  intros x Hx.
  exact (proj1 (proj2 (proj2
           (proj1 (proj2 (proj2
              (discovery_keeps_the_nearest "commands" dt_command false
                 (MkDiscovery Examples.composeChain false) Scenes.commandsDisk
                 Scenes.commandsDisk _ eq_refl))) x Hx)))).
Defined.

(* ===================================================================== *)
(** ** Setting up a root *)

Lemma keeps_leaves_refl (fs : FS) : keeps_leaves fs fs.
Proof. intros q x H _. exact H. Qed.

Lemma keeps_leaves_trans (a b c : FS) :
  keeps_leaves a b -> keeps_leaves b c -> keeps_leaves a c.
Proof. intros H1 H2 q x Hq Hx. apply H2; [now apply H1|exact Hx]. Qed.

(** A slot function that leaves files and links below the slot alone. *)
Lemma alter_keeps_leaves (mk : bool) (f : option node -> res (option node))
      (p : path) :
  (forall slot y, f slot = OK y ->
     forall q x, lookup q slot = Some x -> is_dir x = false -> lookup q y = Some x) ->
  forall n n', alter mk f p n = OK n' ->
    forall q x, lookup q n = Some x -> is_dir x = false -> lookup q n' = Some x.
Proof.
  intros Hf. induction p as [|s p IH]; intros n n' Ha q x Hq Hx.
  - exact (Hf _ _ Ha q x Hq Hx).
  - cbn [alter] in Ha. destruct n as [[c|l|es]|]; try discriminate.
    + destruct (alter mk f p (assoc s es)) as [c|e] eqn:Ea; [|discriminate].
      cbn [res_bind] in Ha. injection Ha as <-.
      destruct q as [|t q]; [cbn in Hq; injection Hq as <-; discriminate|].
      cbn [lookup] in *.
      destruct (String.eqb t s) eqn:Ets.
      * apply String.eqb_eq in Ets as ->. rewrite assoc_put_same.
        exact (IH _ _ Ea q x Hq Hx).
      * apply String.eqb_neq in Ets. rewrite assoc_put_other by congruence.
        exact Hq.
    + rewrite lookup_None in Hq. discriminate.
Qed.

Lemma ensureDir_keeps_leaves (p : path) (fs fs' : FS) :
  ensureDir p fs = Done tt fs' -> keeps_leaves fs fs'.
Proof.
  unfold ensureDir, writes, ensureDir_fs, alterFS.
  destruct (alter true ensureDir_slot p (Some fs)) as [[n|]|e] eqn:Ea;
    try discriminate.
  intros H. injection H as <-.
  refine (alter_keeps_leaves true ensureDir_slot p _ _ _ Ea).
  intros [[c|l|es]|] y Hy q x Hq Hx; simpl in Hy; try discriminate.
  - now injection Hy as <-.
  - rewrite lookup_None in Hq. discriminate.
Qed.

Lemma writeText_new_keeps_leaves (p : path) (c : string) (fs fs' : FS) :
  pathExists fs p = false -> writeText p c fs = Done tt fs' -> keeps_leaves fs fs'.
Proof.
  intros Hnew. unfold writeText, writes, writeText_fs, alterFS.
  destruct (alter false (writeFile_slot c) p (Some fs)) as [[n|]|e] eqn:Ea;
    try discriminate.
  intros H. injection H as <-.
  assert (alter false (fun slot => match slot with
                                   | None => OK (Some (File c))
                                   | Some _ => Fail EEXIST
                                   end) p (Some fs) = OK (Some n)) as Ea'.
  { rewrite <- Ea. unfold pathExists in Hnew. clear Ea.
    generalize dependent (Some fs). clear fs.
    induction p as [|s p IH]; intros n0 Hn0.
    - cbn in *. destruct n0; [discriminate|reflexivity].
    - cbn [alter lookup] in *. destruct n0 as [[c0|l|es]|]; try reflexivity.
      now rewrite IH. }
  refine (alter_keeps_leaves false _ p _ _ _ Ea').
  intros [y0|] y Hy q x Hq Hx; [discriminate|].
  rewrite lookup_None in Hq. discriminate.
Qed.

Lemma is_prefix_join_self (p : path) (s : string) : is_prefix (join p s) p = false.
Proof.
  destruct (is_prefix (join p s) p) eqn:E; [|reflexivity].
  apply is_prefix_length in E. rewrite length_join in E. lia.
Qed.

Lemma is_prefix_join_join (p : path) (a b : string) :
  a <> b -> is_prefix (join p a) (join p b) = false.
Proof.
  intros Hab. destruct (is_prefix (join p a) (join p b)) eqn:E; [|reflexivity].
  apply is_prefix_app in E as [r Hr]. unfold join in Hr.
  assert (r = []) as ->.
  { apply (f_equal (@List.length string)) in Hr.
    rewrite !length_app in Hr. simpl in Hr. destruct r; [reflexivity|simpl in Hr; lia]. }
  rewrite app_nil_r in Hr. apply app_inj_tail in Hr as [_ Hr]. congruence.
Qed.

Lemma ensureDir_elsewhere (p q : path) (fs fs' : FS) :
  ensureDir p fs = Done tt fs' -> is_prefix q p = false ->
  lookup q (Some fs') = lookup q (Some fs).
Proof.
  intros H Hq.
  pose proof (confined_writes true ensureDir_slot p p leaf_level_ensureDir
                (is_prefix_refl p) fs) as Hc.
  change (writes (alterFS true ensureDir_slot p) fs) with (ensureDir p fs) in Hc.
  rewrite H in Hc. now apply Hc.
Qed.

Lemma leaf_level_writeFile (c : string) : leaf_level (writeFile_slot c).
Proof.
  intros [[c0|l|es]|] y H q Hq; simpl in H; try discriminate;
    injection H as <-; destruct q; congruence || reflexivity.
Qed.

Lemma writeText_elsewhere (p q : path) (c : string) (fs fs' : FS) :
  writeText p c fs = Done tt fs' -> is_prefix q p = false ->
  lookup q (Some fs') = lookup q (Some fs).
Proof.
  intros H Hq.
  pose proof (confined_writes false (writeFile_slot c) p p (leaf_level_writeFile c)
                (is_prefix_refl p) fs) as Hc.
  change (writes (alterFS false (writeFile_slot c) p) fs)
    with (writeText p c fs) in Hc.
  rewrite H in Hc. now apply Hc.
Qed.

Lemma ensureDir_of_dir (p : path) (fs : FS) (es : list (string * node)) :
  lookup p (Some fs) = Some (Dir es) -> ensureDir p fs = Done tt fs.
Proof.
  intros Hl. apply ensureDir_Done.
  generalize dependent (Some fs). clear fs.
  induction p as [|s p IH]; intros n Hn.
  - cbn in *. now rewrite Hn.
  - cbn [alter lookup] in *. destruct n as [[c|l|ds]|]; try discriminate.
    rewrite (IH _ Hn). cbn [res_bind]. now rewrite put_assoc.
Qed.

Lemma write_keeps_root (mk : bool) (f : option node -> res (option node))
      (root : path) (s : string) (fs fs' : FS) (es : list (string * node)) :
  alterFS mk f (join root s) fs = OK fs' ->
  lookup root (Some fs) = Some (Dir es) ->
  exists es', lookup root (Some fs') = Some (Dir es').
Proof.
  unfold alterFS.
  destruct (alter mk f (join root s) (Some fs)) as [[n|]|e] eqn:Ea; try discriminate.
  intros H Hr. injection H as <-.
  apply (alter_keeps_way mk f root [s] _ _ es Ea); [discriminate|exact Hr].
Qed.

Lemma init_step_progress (fs : FS) (root : path) (done : list (string * string))
      (lists lists' : list string * list string) (now now' : FS)
      (label s c : string) (create : M unit) :
  create = writeText (join root s) c \/ create = ensureDir (join root s) ->
  ~ In s (map snd done) ->
  init_progress fs root done lists now ->
  init_step (pathExists fs (join root s)) label create lists now = Done lists' now' ->
  init_progress fs root (done ++ [(label, s)]) lists' now'.
Proof.
  intros Hcreate Hnew [Hc [Hs [Hdone [Helse [[es Hroot] [Hleaves Hgrows]]]]]] Hstep.
  assert (pathExists now (join root s) = pathExists fs (join root s)) as Hsame
      by (unfold pathExists; now rewrite (Helse s Hnew)).
  unfold init_step in Hstep.
  unfold init_progress. rewrite !filter_app, !map_app. cbn [filter snd].
  destruct (pathExists fs (join root s)) eqn:Eb; cbn [negb map fst].
  - apply ret_Done in Hstep as [<- <-]. cbn [fst snd]. rewrite app_nil_r.
    split; [exact Hc|]. split; [now rewrite Hs|].
    split; [|split; [|split; [|split]]]; try assumption.
    + intros i Hi. apply in_app_or in Hi as [Hi|[<-|[]]]; [now apply Hdone|].
      exact Hsame.
    + intros s' Hs'. apply Helse. intros Hin. apply Hs'.
      rewrite ?map_app. apply in_or_app. now left.
    + now exists es.
  - apply bind_Done in Hstep as [[] [now1 [Hcr Hstep]]].
    apply ret_Done in Hstep as [<- <-]. cbn [fst snd]. rewrite app_nil_r.
    assert (keeps_leaves now now1 /\ grows now now1
            /\ pathExists now1 (join root s) = true
            /\ (forall q, is_prefix q (join root s) = false ->
                          lookup q (Some now1) = lookup q (Some now))
            /\ exists es', lookup root (Some now1) = Some (Dir es'))
      as [Hl1 [Hg1 [He1 [Hq1 Hr1]]]].
    { destruct Hcreate as [-> | ->].
      - split; [exact (writeText_new_keeps_leaves _ _ _ _ Hsame Hcr)|].
        split; [exact (monotone_Done _ _ _ _ (monotone_writeText _ _) Hcr)|].
        split; [unfold pathExists; now rewrite (writeText_exists _ _ _ _ Hcr)|].
        split; [intros q Hq; exact (writeText_elsewhere _ _ _ _ _ Hcr Hq)|].
        unfold writeText, writes, writeText_fs in Hcr.
        destruct (alterFS false (writeFile_slot c) (join root s) now) eqn:Ea;
          [|discriminate].
        injection Hcr as <-. exact (write_keeps_root _ _ _ _ _ _ _ Ea Hroot).
      - split; [exact (ensureDir_keeps_leaves _ _ _ Hcr)|].
        split; [exact (monotone_Done _ _ _ _ (monotone_ensureDir _) Hcr)|].
        split; [exact (ensureDir_exists _ _ _ Hcr)|].
        split; [intros q Hq; exact (ensureDir_elsewhere _ _ _ _ Hcr Hq)|].
        unfold ensureDir, writes, ensureDir_fs in Hcr.
        destruct (alterFS true ensureDir_slot (join root s) now) eqn:Ea;
          [|discriminate].
        injection Hcr as <-. exact (write_keeps_root _ _ _ _ _ _ _ Ea Hroot). }
    split; [now rewrite Hc|]. split; [exact Hs|].
    split; [|split; [|split; [|split]]].
    + intros i Hi. apply in_app_or in Hi as [Hi|[<-|[]]]; [|exact He1].
      apply Hg1. now apply Hdone.
    + intros s' Hs'. rewrite ?map_app in Hs'. cbn [map snd] in Hs'.
      rewrite Hq1.
      * apply Helse. intros Hin. apply Hs'. apply in_or_app. now left.
      * apply is_prefix_join_join. intros ->. apply Hs'. apply in_or_app.
        right. now left.
    + exact Hr1.
    + now apply (keeps_leaves_trans _ now).
    + intros q Hq. apply Hg1. now apply Hgrows.
Qed.

Lemma ensureDir_is_dir (p : path) (fs fs' : FS) :
  ensureDir p fs = Done tt fs' -> exists es, lookup p (Some fs') = Some (Dir es).
Proof.
  unfold ensureDir, writes, ensureDir_fs, alterFS.
  destruct (alter true ensureDir_slot p (Some fs)) as [[n|]|e] eqn:Ea;
    try discriminate.
  intros H. injection H as <-. apply lookup_alter in Ea.
  destruct (lookup p (Some fs)) as [[c|l|es]|]; simpl in Ea; try discriminate;
    injection Ea as <-; eexists; reflexivity.
Qed.

Lemma init_outcome (env : Env) (opts : InitOptions) (fs fs' : FS) (r : InitResult) :
  initAgentsFolder env opts fs = Done r fs' ->
  init_progress fs (resolveAgentsRoot env opts) (init_items (createConfig opts))
                (ir_created r, ir_skipped r) fs'
  /\ ir_agentsRoot r = resolveAgentsRoot env opts
  /\ isMonorepo r
     = match init_scope opts with
       | scope_project =>
           hasMonorepoParent
             (detectMonorepoChain env
                (MkDetect (init_projectRoot opts) (init_homeDir opts)) fs')
       | scope_global => false
       end.
Proof.
  unfold initAgentsFolder. set (root := resolveAgentsRoot env opts). intros H.
  apply bind_Done in H as [found [fs_ [Hf H]]].
  cbv [checkExistingFiles reads] in Hf. injection Hf as <- <-.
  cbn [agentsMd commandsDir hooksDir skillsDir configYaml] in H.
  apply bind_Done in H as [[] [fs0 [H0 H]]].
  assert (init_progress fs root [] ([], []) fs0) as P0.
  { split; [reflexivity|]. split; [reflexivity|]. split; [intros i []|].
    split; [|split; [|split]].
    - intros s _. apply (ensureDir_elsewhere root); [exact H0|].
      apply is_prefix_join_self.
    - exact (ensureDir_is_dir _ _ _ H0).
    - exact (ensureDir_keeps_leaves _ _ _ H0).
    - exact (monotone_Done _ _ _ _ (monotone_ensureDir _) H0). }
  apply bind_Done in H as [l1 [fs1 [H1 H]]].
  apply (init_step_progress fs root [] _ _ _ _ "AGENTS.md" "AGENTS.md"
           AGENTS_MD_TEMPLATE) in H1; [|now left|intros []|exact P0].
  apply bind_Done in H as [l2 [fs2 [H2 H]]].
  apply (init_step_progress fs root [("AGENTS.md", "AGENTS.md")] _ _ _ _
           "commands/" "commands" "") in H2;
    [|now right|cbn; intuition discriminate|exact H1].
  apply bind_Done in H as [l3 [fs3 [H3 H]]].
  apply (init_step_progress fs root
           [("AGENTS.md", "AGENTS.md"); ("commands/", "commands")] _ _ _ _
           "hooks/" "hooks" "") in H3;
    [|now right|cbn; intuition discriminate|exact H2].
  apply bind_Done in H as [l4 [fs4 [H4 H]]].
  apply (init_step_progress fs root
           [("AGENTS.md", "AGENTS.md"); ("commands/", "commands"); ("hooks/", "hooks")]
           _ _ _ _ "skills/" "skills" "") in H4;
    [|now right|cbn; intuition discriminate|exact H3].
  apply bind_Done in H as [l5 [fs5 [H5 H]]].
  apply bind_Done in H as [chain [fs6 [Hc H]]].
  cbv [reads] in Hc. injection Hc as <- <-.
  apply ret_Done in H as [<- <-].
  cbn [ir_created ir_skipped ir_agentsRoot isMonorepo].
  assert (init_progress fs root (init_items (createConfig opts)) l5 fs5) as P5.
  { unfold init_items. destruct (createConfig opts).
    - apply (init_step_progress fs root
               [("AGENTS.md", "AGENTS.md"); ("commands/", "commands");
                ("hooks/", "hooks"); ("skills/", "skills")]
               _ _ _ _ "config.yaml" "config.yaml" CONFIG_YAML_TEMPLATE)
        in H5; [exact H5|now left|cbn; intuition discriminate|exact H4].
    - apply ret_Done in H5 as [<- <-]. rewrite app_nil_r. exact H4. }
  split; [destruct l5; exact P5|]. split; [reflexivity|].
  destruct (init_scope opts); reflexivity.
Qed.

(** What [initAgentsFolder] leaves when it returns: the root is a
    directory holding [AGENTS.md], [commands], [hooks] and [skills] (and
    [config.yaml] when asked for); what was there before is reported as
    skipped, what was not as created, each label once and in the order of
    the set-up; nothing is overwritten or removed: every file and every
    link of the disk is there as before, and every path that existed still
    exists. *)
Theorem init_sets_up_what_is_missing
        (env : Env) (opts : InitOptions) (fs fs' : FS) (r : InitResult)
        (Hdone : initAgentsFolder env opts fs = Done r fs') :
  let root := resolveAgentsRoot env opts in
  let items := init_items (createConfig opts) in
  ir_agentsRoot r = root
  /\ ir_created r
     = map fst (filter (fun i => negb (pathExists fs (join root (snd i)))) items)
  /\ ir_skipped r
     = map fst (filter (fun i => pathExists fs (join root (snd i))) items)
  /\ (exists es, lookup root (Some fs') = Some (Dir es))
  /\ (forall i, In i items -> pathExists fs' (join root (snd i)) = true)
  /\ keeps_leaves fs fs'
  /\ grows fs fs'.
Proof.
  intros root items.
  destruct (init_outcome env opts fs fs' r Hdone)
    as [[Hc [Hs [Hitems [_ [Hroot [Hleaves Hgrows]]]]]] [Hr _]].
  now repeat split.
Qed.

Lemma init_sets_up_what_is_missing_witness :
  exists r fs',
    initAgentsFolder Examples.env (MkInit scope_project None (Some Examples.homeDir) true)
      Scenes.startedDisk = Done r fs'
    /\ ir_created r = ["commands/"; "hooks/"; "skills/"; "config.yaml"]
    /\ ir_skipped r = ["AGENTS.md"]
    /\ lookup (Examples.home ++ ["proj"; ".agents"; "AGENTS.md"]) (Some fs')
       = Some (File "# Mine").
Proof.
  destruct (initAgentsFolder Examples.env
              (MkInit scope_project None (Some Examples.homeDir) true)
              Scenes.startedDisk) as [r fs'|e fs'|] eqn:E;
    try (vm_compute in E; discriminate).
  exists r, fs'. split; [reflexivity|].
  pose proof (init_sets_up_what_is_missing _ _ _ _ _ E)
    as [_ [Hc [Hs [_ [_ [Hl _]]]]]].
  split; [exact Hc|]. split; [exact Hs|].
  apply Hl; reflexivity.
Defined.

(** Setting up twice is setting up once: when [initAgentsFolder] has
    returned, a second call with the same options on the disk it left
    creates nothing, reports every item as skipped, answers the same root
    and the same monorepo flag, and leaves the disk as it is. *)
Theorem init_twice_is_init_once
        (env : Env) (opts : InitOptions) (fs fs' : FS) (r : InitResult)
        (Hdone : initAgentsFolder env opts fs = Done r fs') :
  initAgentsFolder env opts fs'
  = Done (MkInitResult (ir_agentsRoot r) []
            (map fst (init_items (createConfig opts))) (isMonorepo r)) fs'.
Proof.
  destruct (init_outcome env opts fs fs' r Hdone)
    as [[_ [_ [Hitems [_ [[es Hroot] _]]]]] [Hr Hm]].
  rewrite Hr, Hm.
  unfold initAgentsFolder. set (root := resolveAgentsRoot env opts) in *.
  cbv [bind checkExistingFiles reads].
  cbn [agentsMd commandsDir hooksDir skillsDir configYaml].
  rewrite (ensureDir_of_dir root fs' es Hroot).
  assert (forall label s, In (label, s) (init_items (createConfig opts)) ->
            pathExists fs' (join root s) = true) as Hi
      by (intros label s Hin; exact (Hitems _ Hin)).
  rewrite (Hi "AGENTS.md" "AGENTS.md") by (unfold init_items; cbn; tauto).
  rewrite (Hi "commands/" "commands") by (unfold init_items; cbn; tauto).
  rewrite (Hi "hooks/" "hooks") by (unfold init_items; cbn; tauto).
  rewrite (Hi "skills/" "skills") by (unfold init_items; cbn; tauto).
  cbv [init_step ret]. cbn [fst snd app].
  unfold init_items in *. destruct (createConfig opts).
  - rewrite (Hi "config.yaml" "config.yaml") by (cbn; tauto).
    destruct (init_scope opts); reflexivity.
  - destruct (init_scope opts); reflexivity.
Qed.

Lemma init_twice_is_init_once_witness :
  exists r fs',
    initAgentsFolder Examples.env (MkInit scope_project None (Some Examples.homeDir) false)
      Scenes.startedDisk = Done r fs'
    /\ initAgentsFolder Examples.env
         (MkInit scope_project None (Some Examples.homeDir) false) fs'
       = Done (MkInitResult (Examples.home ++ ["proj"; ".agents"]) []
                 ["AGENTS.md"; "commands/"; "hooks/"; "skills/"] false) fs'.
Proof.
  destruct (initAgentsFolder Examples.env
              (MkInit scope_project None (Some Examples.homeDir) false)
              Scenes.startedDisk) as [r fs'|e fs'|] eqn:E;
    try (vm_compute in E; discriminate).
  exists r, fs'. split; [reflexivity|].
  rewrite (init_twice_is_init_once _ _ _ _ _ E).
  vm_compute in E. injection E as <- _. reflexivity.
Defined.

(* ===================================================================== *)
(** ** The watch daemon, further *)

Lemma prefix_append (p f : string) :
  String.prefix p f = true <-> exists rest, f = (p ++ rest)%string.
Proof.
  revert f. induction p as [|a p IH]; intros f.
  - split; [intros _; now exists f|]. intros _. now destruct f.
  - destruct f as [|b f]; cbn [String.prefix].
    + split; [discriminate|]. intros [rest H]. discriminate.
    + destruct (ascii_dec a b) as [->|Hne].
      * rewrite IH. split; intros [rest H]; exists rest; cbn [append];
          [now rewrite H|now injection H].
      * split; [discriminate|]. intros [rest H]. cbn [append] in H.
        injection H as H _. congruence.
Qed.

(** What the daemon reacts to: a change is taken up exactly when its file
    name is one of the watched names or lies below one of them.  The
    empty name is passed over, and so is everything in or below [merged]:
    what a rebuild writes into the merge directory of a watched root
    never starts another rebuild. *)
Theorem shouldWatch_passes_over_merge_output (filename : string) :
  (shouldWatch filename = true
   <-> exists pattern,
         In pattern WATCHED_PATTERNS
         /\ (filename = pattern
             \/ exists rest, filename = (pattern ++ "/" ++ rest)%string))
  /\ shouldWatch "" = false
  /\ shouldWatch ("merged" ++ filename) = false.
Proof.
  split; [|split; reflexivity].
  unfold shouldWatch. destruct filename as [|a f] eqn:Ef.
  - cbn [falsy]. split; [discriminate|].
    intros [pattern [Hin [H|[rest H]]]].
    + subst pattern. unfold WATCHED_PATTERNS in Hin. cbn in Hin.
      intuition discriminate.
    + unfold WATCHED_PATTERNS in Hin. cbn in Hin.
      destruct Hin as [<-|[<-|[<-|[<-|[<-|[<-|[]]]]]]]; discriminate.
  - cbn [falsy]. rewrite <- Ef. rewrite existsb_exists.
    split; intros [pattern [Hin H]]; exists pattern; (split; [exact Hin|]).
    + apply orb_true_iff in H as [H|H].
      * left. now apply String.eqb_eq.
      * right. apply prefix_append in H as [rest H]. exists rest.
        unfold path_sep in H. now rewrite append_assoc in H.
    + apply orb_true_iff. destruct H as [H|[rest H]].
      * left. now apply String.eqb_eq.
      * right. apply prefix_append. exists rest. unfold path_sep.
        now rewrite append_assoc.
Qed.

Lemma handleChange_aborted (cb : Callback) (l : Loop) :
  aborted (state l) = true -> handleChange cb l = l.
Proof. intros H. unfold handleChange. now rewrite H. Qed.

Lemma fire_due_aborted (n t : nat) :
  forall l, aborted (state l) = true ->
    aborted (state (fire_due n t l)) = true
    /\ rebuilds (fire_due n t l) = rebuilds l.
Proof.
  induction n as [|n IH]; intros l Hab; [now split|].
  cbn [fire_due]. destruct (next_due t l) as [tm|]; [|now split].
  rewrite handleChange_aborted by exact Hab.
  destruct (IH (clearTimeout (timer_id tm) l) Hab) as [H1 H2]. now split.
Qed.

Lemma advance_aborted (t : nat) (l : Loop) :
  aborted (state l) = true ->
  aborted (state (advance t l)) = true /\ rebuilds (advance t l) = rebuilds l.
Proof.
  intros Hab. unfold advance. cbn [state rebuilds].
  now apply fire_due_aborted.
Qed.

Lemma deliver_aborted (i : Input) (l : Loop) :
  aborted (state l) = true ->
  aborted (state (deliver i l)) = true /\ rebuilds (deliver i l) = rebuilds l.
Proof.
  intros Hab. destruct i as [p f|k|]; cbn [deliver].
  - rewrite Hab. now split.
  - unfold settle. destruct (find _ (in_flight l)) as [[k' a]|]; [|now split].
    destruct a; cbn [state set_state rebuilds pendingRebuild aborted];
      rewrite ?Hab, ?andb_false_r; now split.
  - now split.
Qed.

(** After [cleanup] no rebuild is ever started: whatever changes are
    still reported, whatever timers are still pending and whatever
    rebuilds still end afterwards, the number of rebuilds started stays
    what it was when [cleanup] was called. *)
Theorem no_rebuild_after_cleanup
        (l : Loop) (schedule : list (nat * Input)) :
  rebuilds (run schedule (deliver Cleanup l)) = rebuilds l
  /\ rebuilds (drain (run schedule (deliver Cleanup l))) = rebuilds l.
Proof.
  assert (forall schedule l0, aborted (state l0) = true ->
            aborted (state (run schedule l0)) = true
            /\ rebuilds (run schedule l0) = rebuilds l0) as Hrun.
  { intros sch. induction sch as [|[t i] rest IH]; intros l0 Hab; [now split|].
    cbn [run].
    destruct (advance_aborted t l0 Hab) as [Ha Hr].
    destruct (deliver_aborted i _ Ha) as [Hd Hr'].
    destruct (IH _ Hd) as [H1 H2]. split; [exact H1|congruence]. }
  assert (aborted (state (deliver Cleanup l)) = true) as Hab by reflexivity.
  destruct (Hrun schedule _ Hab) as [Ha Hr].
  split; [exact Hr|].
  unfold drain. destruct (timers _) as [|tm rest]; [exact Hr|].
  destruct (advance_aborted (fold_right Nat.max (due tm) (map due rest)) _ Ha)
    as [_ Hd].
  rewrite Hd. exact Hr.
Qed.

Lemma last_cons {A} (l : list A) (a d : A) : last (a :: l) d = last l a.
Proof.
  revert a d. induction l as [|b l IH]; intros a d; [reflexivity|].
  change (last (a :: b :: l) d) with (last (b :: l) d).
  now rewrite (IH b d), (IH b a).
Qed.

Lemma last_mapped {A B} (f : A -> B) (l : list A) (d : A) :
  last (map f l) (f d) = f (last l d).
Proof.
  induction l as [|a l IH]; [reflexivity|].
  cbn [map]. destruct l as [|b l]; [reflexivity|].
  change (last (f a :: map f (b :: l)) (f d)) with (last (map f (b :: l)) (f d)).
  exact IH.
Qed.

Lemma run_burst_pending (events : list (nat * (path * option string))) :
  forall (l : Loop) (id : nat) (cb : Callback),
    timers l = [MkTimer id (now l + DEBOUNCE_DELAY) cb] ->
    debounce_timer l = Some id ->
    aborted (state l) = false ->
    rapid (now l :: map fst events) ->
    let l' := run (burst events) l in
    exists id',
      timers l'
      = [MkTimer id' (now l' + DEBOUNCE_DELAY)
           (last (map (fun e => MkCallback (fst (snd e)) (snd (snd e))) events) cb)]
      /\ debounce_timer l' = Some id'
      /\ state l' = state l
      /\ in_flight l' = in_flight l
      /\ rebuilds l' = rebuilds l.
Proof.
  induction events as [|[t [p f]] rest IH]; intros l id cb Ht Hd Hab Hrapid.
  - exists id. cbn. now repeat split.
  - cbn [burst map run fst snd].
    change (map (fun e => (fst e, FsChange (fst (snd e)) (snd (snd e)))) rest)
      with (burst rest).
    cbn [rapid map fst] in Hrapid. destruct Hrapid as [Hle [Hlt Hrest]].
    rewrite (change_while_pending l id _ cb t p f Ht Hd Hab Hlt).
    rewrite (Nat.max_r _ _ Hle).
    match goal with |- context [run (burst rest) ?l1] =>
      destruct (IH l1 (next_id l) (MkCallback p f)) as [id' [H1 [H2 [H3 [H4 H5]]]]]
    end; try reflexivity; try exact Hab.
    { cbn [now]. exact Hrest. }
    exists id'. cbn [state in_flight rebuilds] in *.
    split; [|now repeat split].
    rewrite H1. f_equal. f_equal. symmetry. apply last_cons.
Qed.

Lemma drain_single (l : Loop) (id d : nat) (cb : Callback) :
  timers l = [MkTimer id d cb] ->
  state l = MkWatchState false false false ->
  rebuilds (drain l) = (if watched (cb_filename cb) then 1 else 0) + rebuilds l
  /\ timers (drain l) = []
  /\ List.length (in_flight (drain l))
     = (if watched (cb_filename cb) then 1 else 0) + List.length (in_flight l).
Proof.
  destruct l as [n ts nid dt st fl rb]. cbn [timers state]. intros -> ->.
  unfold drain, advance. cbn [timers map fold_right due List.length fire_due].
  unfold next_due. cbn [timers find due]. rewrite Nat.leb_refl.
  cbn [callback timer_id]. unfold clearTimeout. cbn [timers filter timer_id].
  rewrite Nat.eqb_refl. cbn [negb].
  unfold handleChange. cbn [state aborted isProcessing now next_id debounce_timer
                            in_flight rebuilds].
  destruct cb as [p [f|]]; cbn [cb_filename watched];
    [destruct (shouldWatch f); cbn [negb]|];
    cbn; rewrite ?length_app; cbn; repeat split; lia.
Qed.

(** A burst of changes, each within the debounce delay of the one before,
    starts at most one rebuild, however many changes there are, and
    whether it starts one is decided by the file name of the last change
    alone: every change cancels the timer of the change before, so that a
    burst ending in a watched name starts exactly one rebuild, and a
    burst ending in a name that is not watched starts none, also when
    earlier changes of the burst were to watched names. *)
Theorem burst_rebuilds_once_for_its_last_change
        (first : nat * (path * option string))
        (rest : list (nat * (path * option string)))
        (Hrapid : rapid (map fst (first :: rest))) :
  let fired := drain (run (burst (first :: rest)) initial) in
  rebuilds fired = (if watched (snd (snd (last rest first))) then 1 else 0)
  /\ List.length (in_flight fired) = rebuilds fired
  /\ timers fired = [].
Proof.
  destruct first as [t [p f]]. cbn [burst map run fst snd].
  change (map (fun e => (fst e, FsChange (fst (snd e)) (snd (snd e)))) rest)
    with (burst rest).
  rewrite (change_when_idle initial t p f) by reflexivity.
  cbn [now initial next_id state in_flight rebuilds]. rewrite Nat.max_0_l.
  match goal with |- context [run (burst rest) ?l1] =>
    destruct (run_burst_pending rest l1 0 (MkCallback p f))
      as [id' [H1 [H2 [H3 [H4 H5]]]]]
  end; try reflexivity.
  { cbn [now]. exact Hrapid. }
  cbn [state in_flight rebuilds] in *.
  match goal with |- context [drain ?l2] =>
    destruct (drain_single l2 _ _ _ H1 H3) as [Hr [Ht Hf]]
  end.
  cbv zeta. rewrite Hr, Ht, Hf, H4, H5. cbn [List.length].
  assert (cb_filename
            (last (map (fun e => MkCallback (fst (snd e)) (snd (snd e))) rest)
                  (MkCallback p f))
          = snd (snd (last rest (t, (p, f))))) as ->.
  { change (MkCallback p f)
      with ((fun e : nat * (path * option string) =>
               MkCallback (fst (snd e)) (snd (snd e))) (t, (p, f))).
    now rewrite last_mapped. }
  repeat split; lia.
Qed.

Lemma burst_rebuilds_once_for_its_last_change_witness :
  rebuilds
    (drain (run (burst [(0, (["w"; ".agents"], Some "AGENTS.md"));
                        (60, (["w"; ".agents"], Some "commands/build.md"));
                        (120, (["w"; ".agents"], Some "notes.tmp"))]) initial))
  = 0
  /\ rebuilds
       (drain (run (burst [(0, (["w"; ".agents"], Some "notes.tmp"));
                           (60, (["w"; ".agents"], Some "commands/build.md"))])
                   initial))
     = 1.
Proof.
  assert (rapid [0; 60; 120]) as H1 by (cbn; unfold DEBOUNCE_DELAY; lia).
  assert (rapid [0; 60]) as H2 by (cbn; unfold DEBOUNCE_DELAY; lia).
  split.
  - exact (proj1 (burst_rebuilds_once_for_its_last_change
                    (0, (["w"; ".agents"], Some "AGENTS.md"))
                    [(60, (["w"; ".agents"], Some "commands/build.md"));
                     (120, (["w"; ".agents"], Some "notes.tmp"))] H1)).
  - exact (proj1 (burst_rebuilds_once_for_its_last_change
                    (0, (["w"; ".agents"], Some "notes.tmp"))
                    [(60, (["w"; ".agents"], Some "commands/build.md"))] H2)).
Defined.

Lemma handleChange_while_processing (cb : Callback) (l : Loop) (pending : bool) :
  state l = MkWatchState true pending false ->
  watched (cb_filename cb) = true ->
  handleChange cb l = set_state (MkWatchState true true false) l.
Proof.
  intros Hs Hw. unfold handleChange. rewrite Hs. cbn [aborted isProcessing].
  destruct (cb_filename cb) as [f|]; [|discriminate].
  cbn [watched] in Hw. now rewrite Hw.
Qed.

(** Changes that are handled while a rebuild runs start no rebuild of
    their own: however many there are, they leave one rebuild queued, and
    when the running rebuild ends exactly one further rebuild starts.
    That queued rebuild runs with the processing flag already cleared, so
    a change handled while it runs is not queued: it starts a rebuild
    alongside, and two rebuilds are in flight at once. *)
Theorem changes_during_a_rebuild_queue_one
        (l : Loop) (k : nat) (cb : Callback) (more : list Callback)
        (racing : Callback)
        (Hstate : state l = MkWatchState true false false)
        (Hflight : in_flight l = [(k, in_try)])
        (Hwatched : forall c, In c (cb :: more) -> watched (cb_filename c) = true)
        (Hracing : watched (cb_filename racing) = true) :
  let busy := fold_left (fun l0 c => handleChange c l0) (cb :: more) l in
  let queued := settle k busy in
  let raced := handleChange racing queued in
  rebuilds busy = rebuilds l
  /\ in_flight busy = [(k, in_try)]
  /\ state busy = MkWatchState true true false
  /\ rebuilds queued = S (rebuilds l)
  /\ in_flight queued = [(S (rebuilds l), in_finally)]
  /\ state queued = MkWatchState false false false
  /\ rebuilds raced = S (S (rebuilds l))
  /\ in_flight raced = [(S (rebuilds l), in_finally); (S (S (rebuilds l)), in_try)].
Proof.
  assert (forall cs l0 pending,
            state l0 = MkWatchState true pending false ->
            (forall c, In c cs -> watched (cb_filename c) = true) ->
            fold_left (fun l1 c => handleChange c l1) cs l0
            = match cs with
              | [] => l0
              | _ => set_state (MkWatchState true true false) l0
              end) as Hfold.
  { induction cs as [|c cs IH]; intros l0 pending Hs Hw; [reflexivity|].
    cbn [fold_left].
    rewrite (handleChange_while_processing c l0 pending Hs)
      by (apply Hw; now left).
    rewrite (IH _ true) by (reflexivity || (intros c' Hc'; apply Hw; now right)).
    destruct cs; reflexivity. }
  intros busy queued raced.
  assert (busy = set_state (MkWatchState true true false) l) as Hbusy
      by (unfold busy; now rewrite (Hfold _ _ false Hstate Hwatched)).
  assert (queued
          = MkLoop (now l) (timers l) (next_id l) (debounce_timer l)
                   (MkWatchState false false false)
                   [(S (rebuilds l), in_finally)] (S (rebuilds l))) as Hqueued.
  { unfold queued. rewrite Hbusy. destruct l as [n ts nid dt st fl rb].
    cbn [state in_flight] in Hstate, Hflight. subst st fl.
    unfold settle, set_state.
    cbn [in_flight find fst Nat.eqb now timers next_id debounce_timer state rebuilds].
    rewrite Nat.eqb_refl. cbn [filter fst negb]. rewrite Nat.eqb_refl. cbn [negb].
    reflexivity. }
  assert (raced
          = MkLoop (now l) (timers l) (next_id l) (debounce_timer l)
                   (MkWatchState true false false)
                   [(S (rebuilds l), in_finally); (S (S (rebuilds l)), in_try)]
                   (S (S (rebuilds l)))) as Hraced.
  { unfold raced. rewrite Hqueued. unfold handleChange.
    cbn [state aborted isProcessing].
    destruct (cb_filename racing) as [f|]; [|discriminate].
    cbn [watched] in Hracing. rewrite Hracing. reflexivity. }
  rewrite Hraced, Hqueued, Hbusy. cbn [rebuilds in_flight state set_state].
  rewrite Hflight. now repeat split.
Qed.

Lemma changes_during_a_rebuild_queue_one_witness :
  let l := drain (run [(0, FsChange ["w"; ".agents"] (Some "AGENTS.md"))] initial) in
  state l = MkWatchState true false false
  /\ in_flight l = [(1, in_try)]
  /\ rebuilds
       (handleChange (MkCallback ["w"; ".agents"] (Some "skills/a"))
          (settle 1
             (fold_left (fun l0 c => handleChange c l0)
                [MkCallback ["w"; ".agents"] (Some "AGENTS.md");
                 MkCallback ["w"; ".agents"] (Some "hooks/pre")] l)))
     = 3.
Proof.
  cbv zeta. split; [reflexivity|]. split; [reflexivity|].
  refine (proj1 (proj2 (proj2 (proj2 (proj2 (proj2 (proj2
    (changes_during_a_rebuild_queue_one
       (drain (run [(0, FsChange ["w"; ".agents"] (Some "AGENTS.md"))] initial))
       1 (MkCallback ["w"; ".agents"] (Some "AGENTS.md"))
       [MkCallback ["w"; ".agents"] (Some "hooks/pre")]
       (MkCallback ["w"; ".agents"] (Some "skills/a"))
       eq_refl eq_refl _ eq_refl)))))))).
  intros c [<-|[<-|[]]]; reflexivity.
Defined.

(* ===================================================================== *)
(** ** What a repair achieves *)

Lemma linked_to_same (fs fs' : FS) (t s : path) :
  lookup t (Some fs') = lookup t (Some fs) -> linked_to fs t s -> linked_to fs' t s.
Proof. intros H [l [Hl Heq]]. exists l. split; [congruence|exact Heq]. Qed.

Lemma real_target_same (fs fs' : FS) (t : path) :
  lookup t (Some fs') = lookup t (Some fs) -> real_target fs t -> real_target fs' t.
Proof. intros H [n [Hn Hl]]. exists n. split; [congruence|exact Hl]. Qed.

Lemma errors_tally (res : EnsureResult) (t : path) (acc : RepairResult) :
  exists extra, errors (tally res t acc) = errors acc ++ extra
                /\ (extra = [] -> res <> r_error).
Proof.
  destruct res; cbn [tally errors].
  - exists []. rewrite app_nil_r. split; [reflexivity|discriminate].
  - exists []. rewrite app_nil_r. split; [reflexivity|discriminate].
  - exists []. rewrite app_nil_r. split; [reflexivity|discriminate].
  - eexists. split; [reflexivity|discriminate].
Qed.

Lemma repair_targets_errors (m : Mapping) (tgts : list path) :
  forall acc fs r fs',
    repair_targets m tgts acc fs = Done r fs' ->
    exists extra, errors r = errors acc ++ extra.
Proof.
  induction tgts as [|t rest IH]; intros acc fs r fs' H.
  - apply ret_Done in H as [<- _]. exists []. now rewrite app_nil_r.
  - cbn [repair_targets] in H. apply bind_Done in H as [res [fs1 [_ H]]].
    destruct (IH _ _ _ _ H) as [e2 He2].
    destruct (errors_tally res t acc) as [e1 [He1 _]].
    exists (e1 ++ e2). now rewrite He2, He1, app_assoc.
Qed.

Lemma repair_mappings_errors (ms : list Mapping) :
  forall acc fs r fs',
    repair_mappings ms acc fs = Done r fs' ->
    exists extra, errors r = errors acc ++ extra.
Proof.
  induction ms as [|m rest IH]; intros acc fs r fs' H.
  - apply ret_Done in H as [<- _]. exists []. now rewrite app_nil_r.
  - cbn [repair_mappings] in H. apply bind_Done in H as [acc' [fs1 [H1 H]]].
    destruct (repair_targets_errors _ _ _ _ _ _ H1) as [e1 He1].
    destruct (IH _ _ _ _ H) as [e2 He2].
    exists (e1 ++ e2). now rewrite He2, He1, app_assoc.
Qed.

Lemma app_same_nil {A} (l e : list A) : l = l ++ e -> e = [].
Proof.
  intros H. apply (f_equal (@List.length A)) in H. rewrite length_app in H.
  destruct e; [reflexivity|simpl in H; lia].
Qed.

Lemma repair_targets_links (m : Mapping) (tgts : list path) :
  forall acc fs r fs',
    repair_targets m tgts acc fs = Done r fs' ->
    errors r = errors acc ->
    (forall q, (forall t, In t tgts -> is_prefix q t = false) ->
               lookup q (Some fs') = lookup q (Some fs))
    /\ (forall q, ~ In q tgts -> pathExists fs q = true -> pathExists fs' q = true)
    /\ (NoDup tgts -> prefix_free tgts -> ~ In (source m) tgts ->
        pathExists fs (source m) = true ->
        forall t, In t tgts ->
          (real_target fs t /\ lookup t (Some fs') = lookup t (Some fs))
          \/ linked_to fs' t (source m)).
Proof.
  induction tgts as [|t rest IH]; intros acc fs r fs' H Herr.
  - apply ret_Done in H as [_ <-]. split; [reflexivity|]. split; [auto|].
    intros _ _ _ _ t [].
  - cbn [repair_targets] in H. apply bind_Done in H as [res [fs1 [H1 H]]].
    destruct (repair_targets_errors _ _ _ _ _ _ H) as [e2 He2].
    destruct (errors_tally res t acc) as [e1 [He1 Hres]].
    assert (e1 = [] /\ e2 = []) as [-> ->].
    { rewrite He2, He1, <- app_assoc in Herr. symmetry in Herr.
      apply app_same_nil in Herr. now apply app_eq_nil in Herr. }
    rewrite app_nil_r in He2, He1.
    destruct (IH _ _ _ _ H He2) as [Hframe [Hspare Hpost]].
    pose proof (confined_ensureSymlink (source m) t (kind m) fs) as Hc.
    pose proof (sparing_ensureSymlink (source m) t (kind m) fs) as Hsp.
    rewrite H1 in Hc, Hsp.
    split; [|split].
    + intros q Hq. rewrite Hframe by (intros t' Ht'; apply Hq; now right).
      apply Hc. apply Hq. now left.
    + intros q Hq He. apply Hspare; [intros Hin; apply Hq; now right|].
      apply Hsp; [intros ->; apply Hq; now left|exact He].
    + intros Hnd Hpf Hsrc Hexists t0 Ht0.
      inversion Hnd as [|t' rest' Hnotin Hnd']; subst.
      assert (forall a b, In a (t :: rest) -> In b (t :: rest) -> a <> b ->
                          is_prefix a b = false) as Hapart.
      { intros a b Ha Hb Hne. destruct (is_prefix a b) eqn:E; [|reflexivity].
        exfalso. apply Hne. now apply Hpf. }
      assert (pathExists fs1 (source m) = true) as Hexists1.
      { apply Hsp; [|exact Hexists]. intros Heq. apply Hsrc. rewrite Heq. now left. }
      destruct Ht0 as [<-|Ht0].
      * assert (lookup t (Some fs') = lookup t (Some fs1)) as Hsame.
        { apply Hframe. intros t' Ht'. apply Hapart; [now left|now right|].
          intros ->. now apply Hnotin. }
        destruct (ensureSymlink_cases (source m) t (kind m) fs)
          as [res' [fs1' [H1' [_ [_ [_ [Hskip Hlink]]]]]]].
        rewrite H1 in H1'. injection H1' as <- <-.
        destruct res.
        -- right. apply (linked_to_same fs1); [exact Hsame|].
           apply Hlink. now left.
        -- right. apply (linked_to_same fs1); [exact Hsame|].
           apply Hlink. now right.
        -- destruct (Hskip eq_refl) as [-> [Hmiss|[Hreal|Hl]]].
           ++ congruence.
           ++ left. split; [exact Hreal|exact Hsame].
           ++ right. now apply (linked_to_same fs).
        -- now contradiction (Hres eq_refl).
      * assert (lookup t0 (Some fs1) = lookup t0 (Some fs)) as Hsame.
        { apply Hc. apply Hapart; [now right|now left|].
          intros ->. now apply Hnotin. }
        destruct (Hpost Hnd') with (t := t0) as [[Hreal Hl]|Hl]; try assumption.
        -- intros a b Ha Hb. apply Hpf; now right.
        -- intros Hin. apply Hsrc. now right.
        -- left. split; [now apply (real_target_same fs1); [symmetry|]|congruence].
        -- now right.
Qed.

Lemma repair_mappings_links (ms : list Mapping) :
  forall acc fs r fs',
    repair_mappings ms acc fs = Done r fs' ->
    errors r = errors acc ->
    (forall q, (forall t, In t (flat_map targets ms) -> is_prefix q t = false) ->
               lookup q (Some fs') = lookup q (Some fs))
    /\ (forall q, ~ In q (flat_map targets ms) ->
                  pathExists fs q = true -> pathExists fs' q = true)
    /\ (NoDup (flat_map targets ms) -> prefix_free (flat_map targets ms) ->
        (forall m, In m ms -> ~ In (source m) (flat_map targets ms)) ->
        forall m t, In m ms -> In t (targets m) ->
          pathExists fs (source m) = true ->
          (real_target fs t /\ lookup t (Some fs') = lookup t (Some fs))
          \/ linked_to fs' t (source m)).
Proof.
  induction ms as [|m rest IH]; intros acc fs r fs' H Herr.
  - apply ret_Done in H as [_ <-]. split; [reflexivity|]. split; [auto|].
    intros _ _ _ m t [].
  - cbn [repair_mappings] in H. apply bind_Done in H as [acc' [fs1 [H1 H]]].
    destruct (repair_targets_errors _ _ _ _ _ _ H1) as [e1 He1].
    destruct (repair_mappings_errors _ _ _ _ _ H) as [e2 He2].
    assert (e1 = [] /\ e2 = []) as [-> ->].
    { rewrite He2, He1, <- app_assoc in Herr. symmetry in Herr.
      apply app_same_nil in Herr. now apply app_eq_nil in Herr. }
    rewrite app_nil_r in He2, He1.
    destruct (repair_targets_links _ _ _ _ _ _ H1 He1) as [Hframe1 [Hspare1 Hpost1]].
    destruct (IH _ _ _ _ H He2) as [Hframe [Hspare Hpost]].
    cbn [flat_map].
    split; [|split].
    + intros q Hq. rewrite Hframe by (intros t Ht; apply Hq, in_or_app; now right).
      apply Hframe1. intros t Ht. apply Hq, in_or_app. now left.
    + intros q Hq He. apply Hspare; [intros Hin; apply Hq, in_or_app; now right|].
      apply Hspare1; [intros Hin; apply Hq, in_or_app; now left|exact He].
    + intros Hnd Hpf Hsrc m0 t0 Hm0 Ht0 Hexists.
      assert (forall a b, In a (targets m ++ flat_map targets rest) ->
                          In b (targets m ++ flat_map targets rest) -> a <> b ->
                          is_prefix a b = false) as Hapart.
      { intros a b Ha Hb Hne. destruct (is_prefix a b) eqn:E; [|reflexivity].
        exfalso. apply Hne. now apply Hpf. }
      assert (forall a b, In a (targets m) -> In b (flat_map targets rest) -> a <> b)
        as Hsplit.
      { intros a b Ha Hb ->. revert Ha Hb. clear -Hnd.
        induction (targets m) as [|x xs IHx]; [intros []|].
        inversion Hnd as [|y ys Hnotin Hnd']; subst.
        intros [->|Ha] Hb.
        - apply Hnotin, in_or_app. now right.
        - now apply IHx. }
      destruct Hm0 as [<-|Hm0].
      * assert (lookup t0 (Some fs') = lookup t0 (Some fs1)) as Hsame.
        { apply Hframe. intros t' Ht'.
          apply Hapart; [apply in_or_app; now left|apply in_or_app; now right|].
          now apply Hsplit. }
        destruct Hpost1 with (t := t0) as [[Hreal Hl]|Hl]; try assumption.
        -- now apply NoDup_app_remove_r in Hnd.
        -- intros a b Ha Hb. apply Hpf; apply in_or_app; now left.
        -- intros Hin. apply (Hsrc m); [now left|apply in_or_app; now left].
        -- left. split; [exact Hreal|congruence].
        -- right. now apply (linked_to_same fs1).
      * assert (In t0 (flat_map targets rest)) as Hin0.
        { apply in_flat_map. now exists m0. }
        assert (lookup t0 (Some fs1) = lookup t0 (Some fs)) as Hsame.
        { apply Hframe1. intros t' Ht'.
          apply Hapart; [apply in_or_app; now right|apply in_or_app; now left|].
          intros Heq. symmetry in Heq. revert Heq. now apply Hsplit. }
        destruct Hpost with (m := m0) (t := t0) as [[Hreal Hl]|Hl]; try assumption.
        -- now apply NoDup_app_remove_l in Hnd.
        -- intros a b Ha Hb. apply Hpf; apply in_or_app; now right.
        -- intros m' Hm' Hin. apply (Hsrc m'); [now right|apply in_or_app; now right].
        -- apply Hspare1; [|exact Hexists].
           intros Hin. apply (Hsrc m0); [now right|apply in_or_app; now left].
        -- left. split; [now apply (real_target_same fs1); [symmetry|]|congruence].
        -- now right.
Qed.

(** When [repair] finds a scope and reports no error, every target of
    every mapping whose source exists is afterwards a symbolic link that
    resolves to that source, or was a real file or directory before and is
    left exactly as it was; and every path that is neither a target nor a
    directory leading to one holds what it held before the links were
    made.  The targets are assumed pairwise distinct, none below another,
    and no source is itself a target. *)
Theorem repair_links_what_it_can
        (env : Env) (yaml_load : string -> option MonorepoConfig)
        (fuel : nat) (fs fs1 fs' : FS) (r : RepairResult)
        (scope : RepairScope) (chain : option InheritanceChain)
        (mappings : list Mapping)
        (Hscope : detectScope env fs = Done (Some (scope, chain)) fs)
        (Hmappings :
           repair_mappings_for env yaml_load fuel scope chain (clients_on env fs) fs
           = Done mappings fs1)
        (Hdone : repair env yaml_load fuel fs = Done r fs')
        (Hclean : errors r = [])
        (Hnodup : NoDup (flat_map targets mappings))
        (Hfree : prefix_free (flat_map targets mappings))
        (Hsources : forall m, In m mappings ->
                              ~ In (source m) (flat_map targets mappings)) :
  (forall m t, In m mappings -> In t (targets m) ->
               pathExists fs1 (source m) = true ->
               (real_target fs1 t /\ lookup t (Some fs') = lookup t (Some fs1))
               \/ linked_to fs' t (source m))
  /\ (forall q, (forall t, In t (flat_map targets mappings) -> is_prefix q t = false) ->
                lookup q (Some fs') = lookup q (Some fs1)).
Proof.
  unfold repair, bind in Hdone. rewrite Hscope in Hdone.
  unfold getClients, reads in Hdone. rewrite Hmappings in Hdone.
  destruct (repair_mappings_links _ _ _ _ _ Hdone Hclean) as [Hframe [_ Hpost]].
  split; [|exact Hframe].
  intros m t Hm Ht He. now apply (Hpost Hnodup Hfree Hsources m t).
Qed.

Lemma repair_links_what_it_can_witness :
  exists fs',
    repair Examples.homeEnv Examples.no_yaml 0 Scenes.unlinkedDisk
    = Done (MkRepair rs_global 4 0 0 []) fs'
    /\ linked_to fs' (Examples.claudeDir ++ ["commands"])
                     (Examples.agentsRoot ++ ["commands"])
    /\ lookup Examples.agentsRoot (Some fs') = Some Examples.canonicalTree.
Proof.
  destruct (repair Examples.homeEnv Examples.no_yaml 0 Scenes.unlinkedDisk)
    as [r fs'| |] eqn:E; try (vm_compute in E; discriminate).
  assert (r = MkRepair rs_global 4 0 0 []) as Hr
    by (vm_compute in E; now injection E as <- _).
  exists fs'. split; [now rewrite Hr|].
  pose (mappings :=
          [MkMapping "claude-md" (Examples.agentsRoot ++ ["AGENTS.md"])
                     [Examples.claudeDir ++ ["CLAUDE.md"]] kind_file;
           MkMapping "commands" (Examples.agentsRoot ++ ["commands"])
                     [Examples.claudeDir ++ ["commands"]] kind_dir;
           MkMapping "hooks" (Examples.agentsRoot ++ ["hooks"])
                     [Examples.claudeDir ++ ["hooks"]] kind_dir;
           MkMapping "skills" (Examples.agentsRoot ++ ["skills"])
                     [Examples.claudeDir ++ ["skills"]] kind_dir]).
  assert (forall t, In t (flat_map targets mappings) ->
                    t = Examples.claudeDir ++ ["CLAUDE.md"]
                    \/ t = Examples.claudeDir ++ ["commands"]
                    \/ t = Examples.claudeDir ++ ["hooks"]
                    \/ t = Examples.claudeDir ++ ["skills"]) as Hts.
  { intros t Ht. simpl in Ht. intuition. }
  destruct (repair_links_what_it_can
              Examples.homeEnv Examples.no_yaml 0
              Scenes.unlinkedDisk Scenes.unlinkedDisk fs' r rs_global None mappings)
    as [Hpost Hframe].
  - reflexivity.
  - reflexivity.
  - exact E.
  - now rewrite Hr.
  - repeat constructor; simpl; intuition discriminate.
  - intros t t' Ht Ht' Hp. apply Hts in Ht, Ht'.
    destruct Ht as [Ht|[Ht|[Ht|Ht]]]; destruct Ht' as [Ht'|[Ht'|[Ht'|Ht']]];
      subst t t'; try reflexivity; vm_compute in Hp; discriminate.
  - intros m Hm Hin. apply Hts in Hin. simpl in Hm.
    destruct Hm as [<-|[<-|[<-|[<-|[]]]]]; simpl in Hin;
      intuition discriminate.
  - split.
    + destruct (Hpost (MkMapping "commands" (Examples.agentsRoot ++ ["commands"])
                                 [Examples.claudeDir ++ ["commands"]] kind_dir)
                      (Examples.claudeDir ++ ["commands"]))
        as [[[n [Hn _]] _]|Hl].
      * simpl. auto.
      * simpl. auto.
      * reflexivity.
      * vm_compute in Hn. discriminate.
      * exact Hl.
    + rewrite Hframe; [reflexivity|].
      intros t Ht. apply Hts in Ht.
      destruct Ht as [Ht|[Ht|[Ht|Ht]]]; subst t; reflexivity.
Defined.

(** Whenever [repair] finds a scope and its mappings can be built, it
    returns, and its report accounts for every target exactly once: the
    numbers of targets created, updated and skipped and the number of
    error messages add up to the number of targets of the mappings, and
    the scope reported is the one detected.  A target that cannot be
    linked becomes one error message; it never makes [repair] throw. *)
Theorem repair_accounts_for_every_target
        (env : Env) (yaml_load : string -> option MonorepoConfig)
        (fuel : nat) (fs fs1 : FS)
        (scope : RepairScope) (chain : option InheritanceChain)
        (mappings : list Mapping)
        (Hscope : detectScope env fs = Done (Some (scope, chain)) fs)
        (Hmappings :
           repair_mappings_for env yaml_load fuel scope chain (clients_on env fs) fs
           = Done mappings fs1) :
  exists r fs',
    repair env yaml_load fuel fs = Done r fs'
    /\ accounted r = List.length (flat_map targets mappings)
    /\ rr_scope r = scope.
Proof.
  unfold repair, bind. rewrite Hscope. unfold getClients, reads. rewrite Hmappings.
  destruct (repair_mappings_accounts mappings (MkRepair scope 0 0 0 []) fs1)
    as [r [fs' [Hr [Hn Hs]]]].
  exists r, fs'. split; [exact Hr|]. split; [exact Hn|exact Hs].
Qed.

Lemma repair_accounts_for_every_target_witness :
  exists r fs',
    repair Examples.homeEnv Examples.no_yaml 0 Examples.copiedDisk = Done r fs'
    /\ accounted r = 4
    /\ rr_scope r = rs_global.
Proof.
  exact (repair_accounts_for_every_target
           Examples.homeEnv Examples.no_yaml 0
           Examples.copiedDisk Examples.copiedDisk rs_global None
           [MkMapping "claude-md" (Examples.agentsRoot ++ ["AGENTS.md"])
                      [Examples.claudeDir ++ ["CLAUDE.md"]] kind_file;
            MkMapping "commands" (Examples.agentsRoot ++ ["commands"])
                      [Examples.claudeDir ++ ["commands"]] kind_dir;
            MkMapping "hooks" (Examples.agentsRoot ++ ["hooks"])
                      [Examples.claudeDir ++ ["hooks"]] kind_dir;
            MkMapping "skills" (Examples.agentsRoot ++ ["skills"])
                      [Examples.claudeDir ++ ["skills"]] kind_dir]
           eq_refl eq_refl).
Defined.

(* ===================================================================== *)
(** ** The compose scenario *)

Lemma apart_siblings (p : path) (a b : string) (r r' : path) :
  a <> b -> apart (p ++ a :: r) (p ++ b :: r') = true.
Proof.
  intros Hne. induction p as [|s p IH].
  - unfold apart. cbn [app is_prefix].
    destruct (String.eqb_spec a b) as [->|_]; [congruence|].
    destruct (String.eqb_spec b a) as [->|_]; [congruence|]. reflexivity.
  - unfold apart in *. cbn [app is_prefix]. rewrite String.eqb_refl. exact IH.
Qed.

(** One copy of a regular file into a directory that is there. *)
Lemma copyFile_into (src d : path) (s c : string) (fs : FS)
      (es : list (string * node)) :
  lookup src (Some fs) = Some (File c) ->
  lookup d (Some fs) = Some (Dir es) ->
  (forall n, assoc s es = Some n -> is_file n = true) ->
  exists fs',
    copyFile src (join d s) fs = Done tt fs'
    /\ lookup d (Some fs') = Some (Dir (put s (Some (File c)) es))
    /\ forall q, apart (join d s) q = true -> lookup q (Some fs') = lookup q (Some fs).
Proof.
  intros Hsrc Hd Hslot.
  assert (writeFile_slot c (assoc s es) = OK (Some (File c))) as Hw.
  { destruct (assoc s es) as [n|] eqn:E; [|reflexivity].
    specialize (Hslot n eq_refl). destruct n; try discriminate. reflexivity. }
  destruct (alter_child_ok false (writeFile_slot c) d s fs es _ Hd Hw)
    as [fs' [Halt Hl]].
  exists fs'. split; [exact (copyFile_Done _ _ _ _ _ Hsrc Halt)|].
  split; [exact Hl|].
  intros q Hq. exact (lookup_alter_apart _ _ _ q _ _ Halt Hq).
Qed.

Lemma apart_neq (p q : path) : apart p q = true -> p <> q.
Proof.
  intros H ->. unfold apart in H. now rewrite is_prefix_refl in H.
Qed.

Lemma pathExists_lookup (fs : FS) (p : path) (n : node) :
  lookup p (Some fs) = Some n -> pathExists fs p = true.
Proof. intros H. unfold pathExists. now rewrite H. Qed.



